(** * DynamicalSystemFramework: node variants and the sparse matrix

    A shallow embedding of [src/dsm/headers/Node.hpp] (NodeConcept, Node,
    TrafficLight, Roundabout) and of [src/dsm/headers/SparseMatrix.hpp].

    The class templates are taken at the instantiation the repository uses
    ([Id = Size = Delay = Index = uint32_t], see the Python binding and the
    benchmark): an unsigned value is a [Z] in [0, 2^32) and every arithmetic
    operation of the source is followed by its wrap-around.  A member function
    that can throw is a computation in a state-and-exception monad: it returns
    an outcome together with the object as it is when the call ends, so that
    the state left behind by a [throw] can be observed. *)

From Stdlib Require Import ZArith Lia QArith Qabs Floats Sorted.
From stdpp Require Import gmap list strings sorting.

Open Scope Z_scope.

(** ** Machine integers *)

Definition modulus : Z := 2 ^ 32.

(** Result of an unsigned 32-bit operation. *)
Definition wrap (z : Z) : Z := z mod modulus.

(** Conversion to [int16_t] (two's complement). *)
Definition to_int16 (z : Z) : Z := (z + 2 ^ 15) mod 2 ^ 16 - 2 ^ 15.

(** Conversion to [int] (two's complement, 32 bits). *)
Definition to_int (z : Z) : Z := (z + 2 ^ 31) mod modulus - 2 ^ 31.

Definition is_uint32 (z : Z) : Prop := 0 <= z < modulus.

(** ** Exceptions and the monad of member functions *)

Inductive exn : Type :=
  | out_of_range (msg : string)
  | runtime_error (msg : string)
  | bad_optional_access
  | division_by_zero.

Inductive outcome (A : Type) : Type :=
  | Returned (a : A)
  | Thrown (e : exn).
Arguments Returned {A} a.
Arguments Thrown {A} e.

Definition returns {A} (o : outcome A) : bool :=
  match o with Returned _ => true | Thrown _ => false end.

Definition throws {A} (o : outcome A) : bool := negb (returns o).

(** A member function on an object of type [S]: the outcome and the object
    after the call. *)
Definition M (S A : Type) : Type := S -> outcome A * S.

Definition ret {S A} (a : A) : M S A := fun s => (Returned a, s).

Definition bind {S A B} (m : M S A) (k : A -> M S B) : M S B :=
  fun s =>
    match m s with
    | (Returned a, s') => k a s'
    | (Thrown e, s') => (Thrown e, s')
    end.

Definition throw {S A} (e : exn) : M S A := fun s => (Thrown e, s).
Definition get {S} : M S S := fun s => (Returned s, s).
Definition put {S} (s : S) : M S unit := fun _ => (Returned tt, s).
Definition modify {S} (f : S -> S) : M S unit := fun s => (Returned tt, f s).

(** [if (c) throw e;] *)
Definition throw_if {S} (c : bool) (e : exn) : M S unit :=
  if c then throw e else ret tt.

#[global] Instance M_ret {S} : MRet (M S) := fun A => @ret S A.
#[global] Instance M_bind {S} : MBind (M S) := fun A B k m => bind m k.

(** Range-based [for] whose body may throw. *)
Fixpoint for_each {S A} (l : list A) (body : A -> M S unit) : M S unit :=
  match l with
  | [] => ret tt
  | x :: t => body x;; for_each t body
  end.

(** ** NodeConcept and Node (the intersection) *)

Module Node.

(** [std::multimap<int16_t, Id>::emplace]: the new pair goes after the
    pairs whose key is not greater than its own. *)
Fixpoint multimap_emplace (k v : Z) (l : list (Z * Z)) : list (Z * Z) :=
  match l with
  | [] => [(k, v)]
  | (k', v') :: t =>
      if k' <=? k then (k', v') :: multimap_emplace k v t else (k, v) :: l
  end.

(** Erase the first pair whose value is [v] (the loop of [removeAgent]);
    [None] when the loop runs to the end. *)
Fixpoint erase_first (v : Z) (l : list (Z * Z)) : option (list (Z * Z)) :=
  match l with
  | [] => None
  | (k', v') :: t =>
      if v' =? v then Some t
      else option_map (cons (k', v')) (erase_first v t)
  end.

Record t : Type := mk {
  m_id : Z;
  m_coords : option (float * float);
  m_capacity : Z;
  m_agents : list (Z * Z);
  m_streetPriorities : gset Z;
  m_agentCounter : Z
}.

Definition with_id (x : Z) (n : t) : t :=
  mk x (m_coords n) (m_capacity n) (m_agents n) (m_streetPriorities n)
     (m_agentCounter n).
Definition with_coords (x : option (float * float)) (n : t) : t :=
  mk (m_id n) x (m_capacity n) (m_agents n) (m_streetPriorities n)
     (m_agentCounter n).
Definition with_capacity (x : Z) (n : t) : t :=
  mk (m_id n) (m_coords n) x (m_agents n) (m_streetPriorities n)
     (m_agentCounter n).
Definition with_agents (x : list (Z * Z)) (n : t) : t :=
  mk (m_id n) (m_coords n) (m_capacity n) x (m_streetPriorities n)
     (m_agentCounter n).
Definition with_streetPriorities (x : gset Z) (n : t) : t :=
  mk (m_id n) (m_coords n) (m_capacity n) (m_agents n) x (m_agentCounter n).
Definition with_agentCounter (x : Z) (n : t) : t :=
  mk (m_id n) (m_coords n) (m_capacity n) (m_agents n)
     (m_streetPriorities n) x.

(** [explicit Node(Id id)]: capacity 1, no agent.  The constructor leaves
    [m_agentCounter] without an initialiser; the value it happens to hold
    is the parameter [junk]. *)
Definition make (id junk : Z) : t := mk id None 1 [] ∅ junk.

(** [m_agents.size()] *)
Definition size (n : t) : Z := Z.of_nat (length (m_agents n)).

Definition setId (id : Z) : M t unit := modify (with_id id).
Definition setCoords (c : float * float) : M t unit :=
  modify (with_coords (Some c)).
Definition capacity (n : t) : Z := m_capacity n.
Definition isFull (n : t) : bool := size n =? m_capacity n.

Definition setCapacity (capacity : Z) : M t unit :=
  n ← get;
  throw_if (capacity <? size n)
    (runtime_error "Node capacity is smaller than the current queue size");;
  modify (with_capacity capacity).

(** The two guards shared by both overloads of [addAgent]. *)
Definition addAgent_guards (agentId : Z) : M t unit :=
  n ← get;
  throw_if (size n =? m_capacity n) (runtime_error "Node is full");;
  for_each (m_agents n) (fun '(angle, id) =>
    throw_if (id =? agentId) (runtime_error "Agent is already on the node.")).

(** [addAgent(double angle, Id agentId)].  [iAngle] stands for the value
    of [angle * 100] truncated to an integer; the conversion to [int16_t]
    is applied here. *)
Definition addAgent_angle (iAngle agentId : Z) : M t unit :=
  addAgent_guards agentId;;
  n ← get;
  put (with_agents (multimap_emplace (to_int16 iAngle) agentId (m_agents n)) n);;
  modify (fun n => with_agentCounter (wrap (m_agentCounter n + 1)) n).

(** [addAgent(Id agentId)] *)
Definition addAgent (agentId : Z) : M t unit :=
  addAgent_guards agentId;;
  n ← get;
  let lastKey :=
    match last (m_agents n) with
    | None => 0
    | Some (k, _) => to_int (k + 1)
    end in
  put (with_agents (multimap_emplace (to_int16 lastKey) agentId (m_agents n)) n);;
  modify (fun n => with_agentCounter (wrap (m_agentCounter n + 1)) n).

Definition removeAgent (agentId : Z) : M t unit :=
  n ← get;
  match erase_first agentId (m_agents n) with
  | Some l => put (with_agents l n)
  | None => throw (runtime_error "Agent is not on the node")
  end.

Definition setStreetPriorities (streetPriorities : gset Z) : M t unit :=
  modify (with_streetPriorities streetPriorities).

Definition addStreetPriority (streetId : Z) : M t unit :=
  modify (fun n => with_streetPriorities ({[streetId]} ∪ m_streetPriorities n) n).

Definition agentCounter : M t Z :=
  n ← get;
  put (with_agentCounter 0 n);;
  ret (m_agentCounter n).

(** The agent ids waiting on the node. *)
Definition agent_ids (n : t) : list Z := (m_agents n).*2.

(** [|agents| <= capacity] *)
Definition within_capacity (n : t) : Prop := size n <= m_capacity n.

(** The state-changing member functions of [Node]. *)
Inductive op : Type :=
  | SetId (id : Z)
  | SetCoords (c : float * float)
  | SetCapacity (capacity : Z)
  | AddAgentAngle (iAngle agentId : Z)
  | AddAgent (agentId : Z)
  | RemoveAgent (agentId : Z)
  | SetStreetPriorities (s : gset Z)
  | AddStreetPriority (streetId : Z)
  | AgentCounter.

(** The node after the call, whether it returned or threw. *)
Definition after (o : op) (n : t) : t :=
  match o with
  | SetId id => snd (setId id n)
  | SetCoords c => snd (setCoords c n)
  | SetCapacity c => snd (setCapacity c n)
  | AddAgentAngle a i => snd (addAgent_angle a i n)
  | AddAgent i => snd (addAgent i n)
  | RemoveAgent i => snd (removeAgent i n)
  | SetStreetPriorities s => snd (setStreetPriorities s n)
  | AddStreetPriority s => snd (addStreetPriority s n)
  | AgentCounter => snd (agentCounter n)
  end.

End Node.

(** ** TrafficLight *)

Module TrafficLight.

Record t : Type := mk {
  node : Node.t;
  m_delay : option (Z * Z);
  m_counter : Z;
  m_phase : Z
}.

Definition with_node (x : Node.t) (tl : t) : t :=
  mk x (m_delay tl) (m_counter tl) (m_phase tl).
Definition with_delay (x : option (Z * Z)) (tl : t) : t :=
  mk (node tl) x (m_counter tl) (m_phase tl).
Definition with_counter (x : Z) (tl : t) : t :=
  mk (node tl) (m_delay tl) x (m_phase tl).
Definition with_phase (x : Z) (tl : t) : t :=
  mk (node tl) (m_delay tl) (m_counter tl) x.

(** [explicit TrafficLight(Id id)] *)
Definition make (id junk : Z) : t := mk (Node.make id junk) None 0 0.

(** [m_delay.value()] *)
Definition delay_value : M t (Z * Z) :=
  tl ← get;
  match m_delay tl with
  | Some d => ret d
  | None => throw bad_optional_access
  end.

Definition not_set : exn :=
  runtime_error "TrafficLight's delay has not been set.".

(** [setDelay(Delay delay)] *)
Definition setDelay (delay : Z) : M t unit :=
  tl ← get;
  match m_delay tl with
  | Some (green, red) =>
      if m_counter tl >=? wrap (delay + red) then
        modify (with_counter (wrap (wrap (delay + red) - 1)))
      else if delay <? green then
        if (m_counter tl >=? delay) && (m_counter tl <=? green) then
          modify (with_counter (wrap (delay - wrap (green - m_counter tl))))
        else ret tt
      else ret tt
  | None => ret tt
  end;;
  modify (with_delay (Some (delay, delay))).

(** [setDelay(std::pair<Delay, Delay> delay)] *)
Definition setDelay_pair (delay : Z * Z) : M t unit :=
  tl ← get;
  match m_delay tl with
  | Some (green, red) =>
      if m_counter tl >=? wrap (delay.1 + delay.2) then
        modify (with_counter (wrap (wrap (delay.1 + delay.2) - 1)))
      else if delay.1 <? green then
        if (m_counter tl >=? delay.1) && (m_counter tl <=? green) then
          modify (with_counter (wrap (delay.1 - wrap (green - m_counter tl))))
        else ret tt
      else ret tt
  | None => ret tt
  end;;
  modify (with_delay (Some delay)).

(** The one conditional subtraction applied to a phase argument. *)
Definition reduce_phase (d : Z * Z) (phase : Z) : Z :=
  if phase >? wrap (d.1 + d.2) then wrap (phase - wrap (d.1 + d.2)) else phase.

Definition setPhase (phase : Z) : M t unit :=
  tl ← get;
  match m_delay tl with
  | None => throw not_set
  | Some d =>
      modify (with_counter (reduce_phase d phase));;
      modify (with_phase 0)
  end.

Definition setPhaseAfterCycle (phase : Z) : M t unit :=
  d ← delay_value;
  modify (with_phase (reduce_phase d phase)).

Definition increaseCounter : M t unit :=
  tl ← get;
  match m_delay tl with
  | None => throw not_set
  | Some d =>
      modify (with_counter (wrap (m_counter tl + 1)));;
      tl ← get;
      if m_counter tl =? wrap (d.1 + d.2) then
        if negb (m_phase tl =? 0) then
          modify (with_counter (m_phase tl));;
          modify (with_phase 0)
        else modify (with_counter 0)
      else ret tt
  end.

(** [isGreen() const] *)
Definition isGreen (tl : t) : outcome bool :=
  match m_delay tl with
  | None => Thrown not_set
  | Some d => Returned (m_counter tl <? d.1)
  end.

(** [isGreen(Id streetId) const] *)
Definition isGreen_street (streetId : Z) (tl : t) : outcome bool :=
  match m_delay tl with
  | None => Thrown not_set
  | Some _ =>
      let hasPriority := bool_decide (streetId ∈ Node.m_streetPriorities (node tl)) in
      match isGreen tl with
      | Thrown e => Thrown e
      | Returned true => Returned hasPriority
      | Returned false => Returned (negb hasPriority)
      end
  end.

(** The length of the cycle, [green + red] in the type [Delay]. *)
Definition cycle (d : Z * Z) : Z := wrap (d.1 + d.2).

(** The counter lies in [0, green + red). *)
Definition in_cycle (tl : t) : bool :=
  match m_delay tl with
  | Some d => (0 <=? m_counter tl) && (m_counter tl <? cycle d)
  | None => false
  end.

(** Every field holds a value of its type. *)
Definition well_typed (tl : t) : Prop :=
  is_uint32 (m_counter tl) /\ is_uint32 (m_phase tl) /\
  match m_delay tl with
  | Some d => is_uint32 d.1 /\ is_uint32 d.2
  | None => True
  end.

(** A phase argument that the single subtraction brings into the cycle. *)
Definition reducible (d : Z * Z) (phase : Z) : bool :=
  (phase <? cycle d) || ((cycle d <? phase) && (phase <? 2 * cycle d)).

End TrafficLight.

(** ** Roundabout *)

Module Roundabout.

(** Modelled from the spec: [dsm::queue] of [utility/queue.hpp] is not
    among the sources; the spec calls it a FIFO queue of agent ids.  It is
    a list: [push] appends, [front] and [pop] work on the head, and the
    range-based [for] visits the elements from the front. *)
Record t : Type := mk {
  m_id : Z;
  m_coords : option (float * float);
  m_capacity : Z;
  m_agents : list Z
}.

Definition with_capacity (x : Z) (r : t) : t :=
  mk (m_id r) (m_coords r) x (m_agents r).
Definition with_agents (x : list Z) (r : t) : t :=
  mk (m_id r) (m_coords r) (m_capacity r) x.

(** [explicit Roundabout(Id id)] *)
Definition make (id : Z) : t := mk id None 1 [].

Definition size (r : t) : Z := Z.of_nat (length (m_agents r)).

(** [NodeConcept::setCapacity], which [Roundabout] does not override. *)
Definition setCapacity (capacity : Z) : M t unit :=
  modify (with_capacity capacity).

Definition isFull (r : t) : bool := size r =? m_capacity r.

Definition enqueue (agentId : Z) : M t unit :=
  r ← get;
  throw_if (size r =? m_capacity r) (runtime_error "Roundabout is full");;
  for_each (m_agents r) (fun id =>
    throw_if (id =? agentId)
      (runtime_error "Agent is already on the roundabout."));;
  modify (fun r => with_agents (m_agents r ++ [agentId]) r).

Definition dequeue : M t Z :=
  r ← get;
  match m_agents r with
  | [] => throw (runtime_error "Roundabout is empty")
  | agentId :: rest =>
      put (with_agents rest r);;
      ret agentId
  end.

End Roundabout.

(** ** SparseMatrix *)

(** The value [T{0}] of a value type. *)
Class Zero (V : Type) : Type := zero : V.
#[global] Instance Z_zero : Zero Z := 0.
#[global] Instance bool_zero : Zero bool := false.
#[global] Instance float_zero : Zero float := 0%float.
#[global] Instance Q_zero : Zero Q := 0%Q.

(** The arithmetic [getNormRows] needs from [double]. *)
Class Real (R : Type) : Type := {
  radd : R -> R -> R;
  rdiv : R -> R -> R;
  rabs : R -> R;
  rltb : R -> R -> bool;
  rone : R;
  repsilon : R
}.

(** IEEE 754 binary64; [epsilon] is 2^-52. *)
#[global] Instance float_real : Real float := {|
  radd := PrimFloat.add;
  rdiv := PrimFloat.div;
  rabs := PrimFloat.abs;
  rltb := PrimFloat.ltb;
  rone := 1%float;
  repsilon := 0x1p-52%float
|}.

(** Exact rational arithmetic with the same [epsilon]. *)
#[global] Instance Q_real : Real Q := {|
  radd := Qplus;
  rdiv := Qdiv;
  rabs := Qabs;
  rltb := fun a b => negb (Qle_bool b a);
  rone := 1%Q;
  repsilon := (1 # 4503599627370496)%Q
|}.

(** The order in which a range-based [for] visits a [std::unordered_map]:
    some enumeration of its pairs, each exactly once. *)
Class Iteration : Type := {
  iteration : forall {V}, gmap Z V -> list (Z * V);
  iteration_perm : forall V (m : gmap Z V), iteration m ≡ₚ map_to_list m
}.

(** One such order. *)
#[global] Instance by_key : Iteration := {|
  iteration := fun V => map_to_list;
  iteration_perm := fun V m => Permutation_refl (map_to_list m)
|}.

(** A [const] member function called from a mutating one. *)
Definition observe {S A} (f : S -> outcome A) : M S A := fun s => (f s, s).

(** Run the statements [m] that fill a local object [init] and return it. *)
Definition filled {S} (init : S) (m : M S unit) : outcome S :=
  match m init with
  | (Returned _, s) => Returned s
  | (Thrown e, _) => Thrown e
  end.

(** Unsigned [a / b] and [a % b]; a zero divisor has no defined result. *)
Definition udiv {S} (a b : Z) : M S Z :=
  if b =? 0 then throw division_by_zero else ret (a `div` b).
Definition umod {S} (a b : Z) : M S Z :=
  if b =? 0 then throw division_by_zero else ret (a `mod` b).

(** The operators [+], binary [-] and unary [-] of a value type, with the
    result converted back to the type. *)
Class Arith (V : Type) : Type := {
  vadd : V -> V -> V;
  vsub : V -> V -> V;
  vneg : V -> V
}.

(** [bool]: the operands are promoted to [int] and a non-zero result is
    [true], so [+] is "or", binary [-] is "exclusive or" and unary [-]
    changes nothing. *)
#[global] Instance bool_arith : Arith bool := {|
  vadd := orb;
  vsub := xorb;
  vneg := fun b => b
|}.

(** IEEE 754 binary64. *)
#[global] Instance float_arith : Arith float := {|
  vadd := PrimFloat.add;
  vsub := PrimFloat.sub;
  vneg := PrimFloat.opp
|}.

Module SparseMatrix.

Record t (V : Type) : Type := mk {
  _matrix : gmap Z V;
  _rows : Z;
  _cols : Z;
  _defaultReturn : V
}.
Arguments mk {V} _ _ _ _.
Arguments _matrix {V} _.
Arguments _rows {V} _.
Arguments _cols {V} _.
Arguments _defaultReturn {V} _.

Section Members.
Context {V : Type} `{Zero V}.

Definition with_matrix (x : gmap Z V) (m : t V) : t V :=
  mk x (_rows m) (_cols m) (_defaultReturn m).
Definition with_dims (rows cols : Z) (m : t V) : t V :=
  mk (_matrix m) rows cols (_defaultReturn m).

(** [SparseMatrix()] *)
Definition make_default : t V := mk ∅ 0 0 zero.
(** [SparseMatrix(Index rows, Index cols)] *)
Definition make (rows cols : Z) : t V := mk ∅ rows cols zero.
(** [SparseMatrix(Index index)] *)
Definition make_column (index : Z) : t V := mk ∅ index 1 zero.

(** [_rows * _cols - 1], the bound of the checks on a linear index. *)
Definition last_index (m : t V) : Z := wrap (wrap (_rows m * _cols m) - 1).

(** [i * _cols + j] *)
Definition linear (m : t V) (i j : Z) : Z := wrap (wrap (i * _cols m) + j).

(** [std::unordered_map::emplace]: an existing key keeps its value. *)
Definition emplace (k : Z) (v : V) (mp : gmap Z V) : gmap Z V :=
  match mp !! k with
  | Some _ => mp
  | None => <[k := v]> mp
  end.

(** [insert(Index i, T value)] *)
Definition insert_index (i : Z) (value : V) : M (t V) unit :=
  m ← get;
  throw_if (i >? last_index m) (out_of_range "Index out of range");;
  modify (fun m => with_matrix (emplace i value (_matrix m)) m).

(** [insert(Index i, Index j, T value)] *)
Definition insert (i j : Z) (value : V) : M (t V) unit :=
  m ← get;
  insert_index (linear m i j) value.

(** [insert_or_assign(Index index, T value)] *)
Definition insert_or_assign_index (index : Z) (value : V) : M (t V) unit :=
  m ← get;
  throw_if (index >? last_index m) (out_of_range "Index out of range");;
  modify (fun m => with_matrix (<[index := value]> (_matrix m)) m).

(** [insert_or_assign(Index i, Index j, T value)] *)
Definition insert_or_assign (i j : Z) (value : V) : M (t V) unit :=
  m ← get;
  insert_or_assign_index (linear m i j) value.

(** [contains(Index i, Index j) const] *)
Definition contains (i j : Z) (m : t V) : outcome bool :=
  if (i >=? _rows m) || (j >=? _cols m)
  then Thrown (out_of_range "Index out of range")
  else Returned (bool_decide (is_Some (_matrix m !! linear m i j))).

(** [contains(Index const index) const] *)
Definition contains_index (index : Z) (m : t V) : outcome bool :=
  if index >? last_index m
  then Thrown (out_of_range "Index out of range")
  else Returned (bool_decide (is_Some (_matrix m !! index))).

(** [operator()(Index i, Index j)] *)
Definition at_cell (i j : Z) (m : t V) : outcome V :=
  if (i >=? _rows m) || (j >=? _cols m)
  then Thrown (out_of_range "Index out of range")
  else Returned (default (_defaultReturn m) (_matrix m !! linear m i j)).

(** [operator()(Index index)] *)
Definition at_index (index : Z) (m : t V) : outcome V :=
  if index >=? wrap (_rows m * _cols m)
  then Thrown (out_of_range "Index out of range")
  else Returned (default (_defaultReturn m) (_matrix m !! index)).

Context `{Iteration}.

(** [reshape(Index rows, Index cols)] *)
Definition reshape (rows cols : Z) : M (t V) unit :=
    m ← get;
    let oldCols := _cols m in
    modify (with_dims rows cols);;
    let copy := _matrix m in
    for_each (iteration copy) (fun '(first, second) =>
  modify (fun m => with_matrix (delete first (_matrix m)) m);;
  if first <? wrap (rows * cols) then
    q ← udiv first oldCols;
    r ← umod first oldCols;
    insert_or_assign q r second
  else mret tt).

(** [getRow(Index index, bool keepIndex) const] *)
Definition getRow (index : Z) (keepIndex : bool) (m : t V) : outcome (t V) :=
    if index >=? _rows m then Thrown (out_of_range "Index out of range")
    else
  filled (make 1 (_cols m))
    ((if keepIndex then reshape (_rows m) (_cols m) else mret tt);;
     for_each (iteration (_matrix m)) (fun '(first, second) =>
       q ← udiv first (_cols m);
       if q =? index then
         if keepIndex then insert_index first second
         else r ← umod first (_cols m); insert_index r second
       else mret tt)).

End Members.

Section Graph.
Context {V : Type} `{Iteration}.

(** [getDegreeVector() const]; the vector holds [int]. *)
Definition getDegreeVector (m : t V) : outcome (t Z) :=
    if negb (_rows m =? _cols m)
    then Thrown (runtime_error "getDegreeVector only works on square matrices")
    else
  filled (make (_rows m) 1)
    (for_each (iteration (_matrix m)) (fun '(first, _) =>
       q ← udiv first (_cols m);
       d ← observe (at_cell q 0);
       insert_or_assign q 0 (to_int (d + 1)))).

(** [getLaplacian() const] *)
Definition getLaplacian (m : t V) : outcome (t Z) :=
    if negb (_rows m =? _cols m)
    then Thrown (runtime_error "getLaplacian only works on square matrices")
    else
  filled (make (_rows m) (_cols m))
    (for_each (iteration (_matrix m)) (fun '(first, _) =>
       q ← udiv first (_cols m);
       r ← umod first (_cols m);
       insert_or_assign q r (-1));;
     degreeVector ← observe (fun _ => getDegreeVector m);
     for_each (seqZ 0 (_rows m)) (fun i =>
       d ← observe (fun _ => at_cell i 0 degreeVector);
       insert_or_assign i i d)).

End Graph.

Section Norm.
Context {R : Type} `{Zero R} `{Real R} `{Iteration}.

(** The row sum of [getNormRows]: [sum += std::abs(it.second)]. *)
Definition abs_sum (l : list (Z * R)) : R :=
  foldl (fun sum it => radd sum (rabs it.2)) zero l.

(** [sum < epsilon ? sum = 1. : sum = sum] *)
Definition divisor (sum : R) : R :=
  if rltb sum repsilon then rone else sum.

(** [getNormRows() const], on a matrix of [double]. *)
Definition getNormRows (m : t R) : outcome (t R) :=
    filled (make (_rows m) (_cols m))
  (for_each (seqZ 0 (_rows m)) (fun index =>
     row ← observe (fun _ => getRow index true m);
     let sum := divisor (abs_sum (iteration (_matrix row))) in
     for_each (iteration (_matrix row)) (fun '(first, second) =>
       insert_index first (rdiv second sum)))).

End Norm.

Section Observations.
Context {V : Type}.

(** The dimensions are values of the index type, the number of cells does not
    exceed [2^32], and every stored key is the linear index of a cell. *)
Definition well_formed (m : t V) : bool :=
    (0 <=? _rows m) && (0 <=? _cols m) && (_rows m * _cols m <=? modulus) &&
    forallb (fun kv : Z * V => (0 <=? kv.1) && (kv.1 <? _rows m * _cols m))
  (map_to_list (_matrix m)).

(** A pair of the table lies in row [i]. *)
Definition in_row (cols i : Z) (kv : Z * V) : Prop := kv.1 `div` cols = i.

#[global] Instance in_row_dec cols i kv : Decision (in_row cols i kv).
Proof. unfold in_row. apply _. Defined.

(** The stored entries of row [i]. *)
Definition row_entries (m : t V) (i : Z) : gmap Z V :=
  filter (in_row (_cols m) i) (_matrix m).

(** The number of stored entries of row [i]. *)
Definition degree (m : t V) (i : Z) : Z :=
  Z.of_nat (length (filter (in_row (_cols m) i) (map_to_list (_matrix m)))).

(** Cell [(i, j)] holds a stored entry. *)
Definition stored (m : t V) (i j : Z) : bool :=
  bool_decide (is_Some (_matrix m !! (i * _cols m + j))).

(** The value read from cell [(i, j)]: the stored one or the default. *)
Definition cell (m : t V) (i j : Z) : V :=
  default (_defaultReturn m) (_matrix m !! (i * _cols m + j)).

End Observations.

Section Erasing.
Context {V : Type} `{Zero V}.

(** [erase(Index i, Index j)] *)
Definition erase (i j : Z) : M (t V) unit :=
  m ← get;
  throw_if ((i >=? _rows m) || (j >=? _cols m))
    (out_of_range "Index out of range");;
  throw_if (negb (bool_decide (is_Some (_matrix m !! linear m i j))))
    (runtime_error "Element not found");;
  modify (fun m => with_matrix (delete (linear m i j) (_matrix m)) m).

(** [erase(Index index)] *)
Definition erase_index (index : Z) : M (t V) unit :=
  m ← get;
  throw_if (index >? last_index m) (out_of_range "Index out of range");;
  throw_if (negb (bool_decide (is_Some (_matrix m !! index))))
    (runtime_error "Element not found");;
  modify (fun m => with_matrix (delete index (_matrix m)) m).

(** [clear()] *)
Definition clear : M (t V) unit :=
  modify (fun m => mk ∅ 0 0 (_defaultReturn m)).

(** [size() const] *)
Definition size (m : t V) : Z := wrap (Z.of_nat (base.size (_matrix m))).

(** [max_size() const] *)
Definition max_size (m : t V) : Z := wrap (_rows m * _cols m).

Context `{Iteration}.

(** [reshape(Index dim)] *)
Definition reshape_dim (index : Z) : M (t V) unit :=
  m ← get;
  modify (with_dims index 1);;
  let copy := _matrix m in
  for_each (iteration copy) (fun '(first, second) =>
    modify (fun m => with_matrix (delete first (_matrix m)) m);;
    if first <? index then insert_or_assign_index first second else mret tt).

(** [insert_and_expand(Index i, Index j, T value)] *)
Definition insert_and_expand (i j : Z) (value : V) : M (t V) unit :=
  m ← get;
  (if negb (i <? _rows m) || negb (j <? _cols m) then
     let delta := Z.max (wrap (i - _rows m)) (wrap (j - _cols m)) in
     if _cols m =? 1 then
       let delta' :=
         if negb (wrap (i + delta) <? wrap (_rows m + delta))
         then wrap (delta + 1) else delta in
       reshape_dim (wrap (_rows m + delta'))
     else
       let delta' :=
         if negb (wrap (wrap (i * wrap (_cols m + delta)) + j)
                  <? wrap (wrap (_rows m + delta) * wrap (_cols m + delta)))
         then wrap (delta + 1) else delta in
       reshape (wrap (_rows m + delta')) (wrap (_cols m + delta'))
   else mret tt);;
  modify (fun m => with_matrix (<[linear m i j := value]> (_matrix m)) m).

(** [eraseRow(Index index)] *)
Definition eraseRow (index : Z) : M (t V) unit :=
  m ← get;
  throw_if (index >? wrap (_rows m - 1)) (out_of_range "Index out of range");;
  for_each (seqZ 0 (_cols m)) (fun i =>
    modify (fun m => with_matrix (delete (linear m index i) (_matrix m)) m));;
  m ← get;
  new_matrix ← observe (fun _ =>
    filled (∅ : gmap Z V)
      (for_each (iteration (_matrix m)) (fun '(key, value) =>
         q ← udiv key (_cols m);
         if q <? index then modify (emplace key value)
         else modify (emplace (wrap (key - _cols m)) value))));
  put (mk new_matrix (wrap (_rows m - 1)) (_cols m) (_defaultReturn m)).

(** [eraseColumn(Index index)] *)
Definition eraseColumn (index : Z) : M (t V) unit :=
  m ← get;
  throw_if (index >? wrap (_cols m - 1)) (out_of_range "Index out of range");;
  for_each (seqZ 0 (_rows m)) (fun i =>
    modify (fun m => with_matrix (delete (linear m i index) (_matrix m)) m));;
  m ← get;
  new_matrix ← observe (fun _ =>
    filled (∅ : gmap Z V)
      (for_each (iteration (_matrix m)) (fun '(key, value) =>
         r ← umod key (_cols m);
         q ← udiv key (_cols m);
         if r <? index then modify (emplace (wrap (key - q)) value)
         else
           modify (emplace
             (wrap (wrap (wrap (q * wrap (_cols m - 1)) + r) - 1)) value))));
  put (mk new_matrix (_rows m) (wrap (_cols m - 1)) (_defaultReturn m)).

(** [getCol(Index index, bool keepIndex) const] *)
Definition getCol (index : Z) (keepIndex : bool) (m : t V) : outcome (t V) :=
  if index >=? _cols m then Thrown (out_of_range "Index out of range")
  else
    filled (make (_rows m) 1)
      ((if keepIndex then reshape (_rows m) (_cols m) else mret tt);;
       for_each (iteration (_matrix m)) (fun '(first, second) =>
         r ← umod first (_cols m);
         if r =? index then
           if keepIndex then insert_index first second
           else q ← udiv first (_cols m); insert_index q second
         else mret tt)).

(** [emptyRow(Index index)] *)
Definition emptyRow (index : Z) : M (t V) unit :=
  row ← observe (getRow index false);
  for_each (iteration (_matrix row)) (fun '(first, _) =>
    modify (fun m => with_matrix (delete (linear m index first) (_matrix m)) m)).

(** [emptyColumn(Index index)] *)
Definition emptyColumn (index : Z) : M (t V) unit :=
  col ← observe (getCol index false);
  for_each (iteration (_matrix col)) (fun '(first, _) =>
    modify (fun m => with_matrix (delete (linear m first index) (_matrix m)) m)).

(** [operator++()], the transpose *)
Definition transpose (m : t V) : outcome (t V) :=
  filled (make (_cols m) (_rows m))
    (for_each (iteration (_matrix m)) (fun '(first, second) =>
       r ← umod first (_cols m);
       q ← udiv first (_cols m);
       insert r q second)).

End Erasing.

Section Operators.
Context {V : Type} `{Zero V} `{Arith V} `{Iteration}.

Definition dimensions_differ (m other : t V) : bool :=
  negb (_rows m =? _rows other) || negb (_cols m =? _cols other).

(** [operator+=(const SparseMatrix& other)] *)
Definition add_assign (other : t V) : M (t V) unit :=
  m ← get;
  throw_if (dimensions_differ m other) (runtime_error "Dimensions do not match");;
  for_each (iteration (_matrix other)) (fun '(first, second) =>
    c ← observe (contains_index first);
    if c : bool then
      x ← observe (at_index first);
      insert_or_assign_index first (vadd x second)
    else insert_index first second).

(** [operator-=(const SparseMatrix& other)] *)
Definition sub_assign (other : t V) : M (t V) unit :=
  m ← get;
  throw_if (dimensions_differ m other) (runtime_error "Dimensions do not match");;
  for_each (iteration (_matrix other)) (fun '(first, second) =>
    c ← observe (contains_index first);
    if c : bool then
      x ← observe (at_index first);
      insert_or_assign_index first (vsub x second)
    else insert_index first (vneg second)).

(** [symmetrize()] *)
Definition symmetrize : M (t V) unit :=
  transposed ← observe transpose;
  add_assign transposed.

(** The local table [unique] of [operator+] and [operator-]. *)
Definition unique (m other : t V) : gmap Z bool :=
  foldl (fun u (it : Z * V) => <[it.1 := true]> u)
    (foldl (fun u (it : Z * V) => <[it.1 := true]> u) ∅
       (iteration (_matrix m)))
    (iteration (_matrix other)).

(** The body shared by [operator+] and [operator-]. *)
Definition combine (op : V -> V -> V) (m other : t V) : outcome (t V) :=
  if dimensions_differ m other
  then Thrown (runtime_error "Dimensions do not match")
  else
    filled (make (_rows m) (_cols m))
      (for_each (iteration (unique m other)) (fun '(first, _) =>
         q ← udiv first (_cols m);
         r ← umod first (_cols m);
         x ← observe (fun _ => at_index first m);
         y ← observe (fun _ => at_index first other);
         insert q r (op x y))).

(** [operator+(const SparseMatrix& other)] *)
Definition add (m other : t V) : outcome (t V) := combine vadd m other.

(** [operator-(const SparseMatrix& other)] *)
Definition sub (m other : t V) : outcome (t V) := combine vsub m other.

End Operators.

Section Strength.
Context {R : Type} `{Zero R} `{Real R} `{Iteration}.

(** [getStrengthVector() const], on a matrix of [double]. *)
Definition getStrengthVector (m : t R) : outcome (t R) :=
  if negb (_rows m =? _cols m)
  then Thrown (runtime_error
                 "getStrengthVector only works on square matrices")
  else
    filled (make (_rows m) 1)
      (for_each (iteration (_matrix m)) (fun '(first, second) =>
         q ← udiv first (_cols m);
         s ← observe (at_cell q 0);
         insert_or_assign q 0 (radd s second))).

(** [getNormCols() const], on a matrix of [double]. *)
Definition getNormCols (m : t R) : outcome (t R) :=
  filled (make (_rows m) (_cols m))
    (for_each (seqZ 0 (_cols m)) (fun index =>
       col ← observe (fun _ => getCol index true m);
       let sum := divisor (abs_sum (iteration (_matrix col))) in
       for_each (iteration (_matrix col)) (fun '(first, second) =>
         insert_index first (rdiv second sum)))).

End Strength.

End SparseMatrix.

(** * Vocabulary of the properties *)

(** ** Guards *)

(** [addAgent] finds the node full or the agent on it. *)
Definition refused (a : Z) (n : Node.t) : bool :=
  (Node.size n =? Node.m_capacity n)
  || existsb (fun '(_, id) => id =? a) (Node.m_agents n).

(** [enqueue] finds the roundabout full or the agent on it. *)
Definition rejected (a : Z) (r : Roundabout.t) : bool :=
  (Roundabout.size r =? Roundabout.m_capacity r)
  || existsb (fun id => id =? a) (Roundabout.m_agents r).

(** ** Loop bodies as pure updates *)

Section LoopSteps.
Import SparseMatrix.
Context {V : Type}.

(** One pass of the loop of [getDegreeVector] on an [n] x [n] matrix. *)
Definition degree_step (n : Z) (dv : t Z) (kv : Z * V) : t Z :=
  with_matrix
    (<[kv.1 `div` n := to_int (default 0 (_matrix dv !! (kv.1 `div` n)) + 1)]>
       (_matrix dv)) dv.

(** The shape of the degree vector while it is filled. *)
Definition column_of (n : Z) (dv : t Z) : Prop :=
  _rows dv = n /\ _cols dv = 1 /\ _defaultReturn dv = 0.

(** The number of pairs of a list that lie in row [i]. *)
Definition count_row (n i : Z) (l : list (Z * V)) : Z :=
  Z.of_nat (length (filter (in_row n i) l)).

(** The shape of the Laplacian while it is filled. *)
Definition square_of (n : Z) (L : t Z) : Prop :=
  _rows L = n /\ _cols L = n /\ _defaultReturn L = 0.

(** One pass of the first loop of [getLaplacian]. *)
Definition lap_mark (L : t Z) (kv : Z * V) : t Z :=
  with_matrix (<[kv.1 := -1]> (_matrix L)) L.

(** One pass of its second loop. *)
Definition lap_diag (n : Z) (dv L : t Z) (i : Z) : t Z :=
  with_matrix (<[i * n + i := cell dv i 0]> (_matrix L)) L.

(** One pass of the loop of [getRow(index, true)]. *)
Definition row_take (c i : Z) (row : t V) (kv : Z * V) : t V :=
  if decide (kv.1 `div` c = i)
  then with_matrix (emplace kv.1 kv.2 (_matrix row)) row
  else row.

(** A matrix of the dimensions of [m]. *)
Definition same_extent (m : t V) (row : t V) : Prop :=
  _rows row = _rows m /\ _cols row = _cols m.

End LoopSteps.

Section NormSteps.
Import SparseMatrix.
Context {R : Type} `{Zero R} `{Real R} `{Iteration}.

(** The L1 sum of row [i] as [getNormRows] computes it: the absolute values
    of the stored entries of the row, added in the order of the visit. *)
Definition row_l1 (m : t R) (i : Z) : R :=
  abs_sum (iteration (row_entries m i)).

(** The divisor [getNormRows] uses for row [i]: the sum of the absolute
    values of the row, taken in the order in which the row is visited, or 1
    when that sum is below epsilon. *)
Definition row_divisor (m : t R) (i : Z) : R :=
  divisor (abs_sum (iteration (row_entries m i))).

(** One pass of the inner loop of [getNormRows]. *)
Definition scale_into (d : R) (N : t R) (kv : Z * R) : t R :=
  with_matrix (emplace kv.1 (rdiv kv.2 d) (_matrix N)) N.

(** One pass of its outer loop. *)
Definition norm_row (m N : t R) (i : Z) : t R :=
  foldl (scale_into (row_divisor m i)) N (iteration (row_entries m i)).

End NormSteps.

(** Cell [(i, j)] of a matrix that a member function returned. *)
Definition read {V} (o : outcome (SparseMatrix.t V)) (i j : Z) : outcome V :=
  match o with
  | Returned m => SparseMatrix.at_cell i j m
  | Thrown e => Thrown e
  end.

(** ** Sample objects *)

(** A node on which one agent waits while the capacity is 1. *)
Definition full_node : Node.t :=
  Node.mk 0 None 1 [(0, 7)] ∅ 1.

(** A roundabout of capacity 1 on which agent 7 waits. *)
Definition full_roundabout : Roundabout.t := Roundabout.mk 0 None 1 [7].

(** An empty roundabout of capacity 3. *)
Definition roundabout3 : Roundabout.t := Roundabout.mk 0 None 3 [].

(** A light with delay (5, 5) at the start of its cycle. *)
Definition light55 : TrafficLight.t :=
  TrafficLight.mk (Node.make 0 0) (Some (5, 5)) 0 0.

(** A light with delay (10, 10), three ticks into its green window. *)
Definition light1010 : TrafficLight.t :=
  TrafficLight.mk (Node.make 0 0) (Some (10, 10)) 3 0.

(** A 2 x 2 matrix of [int] that holds 5 in cell (0, 0). *)
Definition m22 : SparseMatrix.t Z := SparseMatrix.mk {[0 := 5]} 2 2 0.

(** A 1 x 1 matrix of [int] with a 1 on its diagonal. *)
Definition loop11 : SparseMatrix.t Z := SparseMatrix.mk {[0 := 1]} 1 1 0.

(** A 2 x 2 matrix of [int] that holds 5 in cell (0, 1). *)
Definition weighted22 : SparseMatrix.t Z := SparseMatrix.mk {[1 := 5]} 2 2 0.

(** A 3 x 3 adjacency matrix with the edges 0 -> 1, 0 -> 2 and 2 -> 1. *)
Definition triangle : SparseMatrix.t bool :=
  SparseMatrix.mk {[1 := true; 2 := true; 7 := true]} 3 3 false.

(** A 1 x 1 matrix of [double] that stores 0.0 in its only cell. *)
Definition zero_row : SparseMatrix.t float :=
  SparseMatrix.mk {[0 := 0%float]} 1 1 0%float.

(** A 1 x 1 matrix of [double] that stores 2^-60 in its only cell. *)
Definition tiny_row : SparseMatrix.t float :=
  SparseMatrix.mk {[0 := 0x1p-60%float]} 1 1 0%float.

(** A 2 x 2 matrix of [double] with row 0 = (1.0, -3.0) and an empty
    row 1. *)
Definition quarters : SparseMatrix.t float :=
  SparseMatrix.mk {[0 := 1%float; 1 := (-3)%float]} 2 2 0%float.

(** A 1 x 2 matrix of [double] that stores 2^1023 in both cells. *)
Definition huge_row : SparseMatrix.t float :=
  SparseMatrix.mk {[0 := 0x1p1023%float; 1 := 0x1p1023%float]} 1 2 0%float.

(** A 2 x 2 rational matrix with row 0 = (1/2, -3/2) and an empty row 1. *)
Definition halves : SparseMatrix.t Q :=
  SparseMatrix.mk {[0 := (1 # 2)%Q; 1 := (- 3 # 2)%Q]} 2 2 0%Q.

(** ** Orders, histories and repeated calls *)

(** Order of two pairs of the agent multimap by their keys. *)
Definition key_le (x y : Z * Z) : Prop := x.1 <= y.1.

(** What a [std::multimap<int16_t, Id>] is by construction: keys in the
    range of [int16_t], in non-decreasing order. *)
Definition multimap_ok (l : list (Z * Z)) : Prop :=
  StronglySorted key_le l /\ Forall (fun x : Z * Z => - 2 ^ 15 <= x.1 < 2 ^ 15) l.

(** The agents of a node are distinct and its multimap is in order. *)
Definition agents_ok (n : Node.t) : Prop :=
  NoDup (Node.agent_ids n) /\ multimap_ok (Node.m_agents n).

(** The two overloads of [addAgent]. *)
Definition is_add (o : Node.op) : bool :=
  match o with
  | Node.AddAgent _ | Node.AddAgentAngle _ _ => true
  | _ => false
  end.

(** [n] calls of [m] in a row. *)
Fixpoint times {S} (n : nat) (m : M S unit) : M S unit :=
  match n with
  | O => mret tt
  | S n' => m;; times n' m
  end.


(** ** Keys of re-indexed tables *)

(** A pair of the table lies in column [j]. *)
Definition in_col {V} (cols j : Z) (kv : Z * V) : Prop := kv.1 `mod` cols = j.

#[global] Instance in_col_dec {V} cols j (kv : Z * V) : Decision (in_col cols j kv).
Proof. unfold in_col. apply _. Defined.

(** The linear index, in the transposed table, of the cell that has index
    [k] in a table of [rows] by [cols] cells. *)
Definition transposed_key (rows cols k : Z) : Z := k `mod` cols * rows + k `div` cols.

(** The linear index that the entry under [k] has once row [index] is
    taken out of a table with [cols] columns, and the index it came from. *)
Definition key_without_row (cols index k : Z) : Z :=
  if k `div` cols <? index then k else k - cols.
Definition key_before_row (cols index k : Z) : Z :=
  if k `div` cols <? index then k else k + cols.

(** The same for column [index]: the new table has one column less. *)
Definition key_without_col (cols index k : Z) : Z :=
  k `div` cols * (cols - 1)
  + (if k `mod` cols <? index then k `mod` cols else k `mod` cols - 1).
Definition key_before_col (cols index k : Z) : Z :=
  k `div` (cols - 1) * cols
  + (if k `mod` (cols - 1) <? index then k `mod` (cols - 1)
     else k `mod` (cols - 1) + 1).

(** ** Columns of [getNormCols] *)

(** The stored entries of column [j]. *)
Definition col_entries {V} (m : SparseMatrix.t V) (j : Z) : gmap Z V :=
  filter (in_col (SparseMatrix._cols m) j) (SparseMatrix._matrix m).

(** The divisor [getNormCols] uses for column [j]: the sum of the absolute
    values of the column, taken in the order in which the column is
    visited, or 1 when that sum is below epsilon. *)
Definition col_divisor {R} `{Zero R} `{Real R} `{Iteration}
    (m : SparseMatrix.t R) (j : Z) : R :=
  SparseMatrix.divisor (SparseMatrix.abs_sum (iteration (col_entries m j))).

(** One pass of the outer loop of [getNormCols]. *)
Definition norm_col {R} `{Zero R} `{Real R} `{Iteration}
    (m N : SparseMatrix.t R) (j : Z) : SparseMatrix.t R :=
  foldl (scale_into (col_divisor m j)) N (iteration (col_entries m j)).

(** The calls that change the queue of a roundabout. *)
Inductive queue_op : Type :=
  | Enqueue (agentId : Z)
  | Dequeue.

(** The roundabout after the call, whether it returned or threw. *)
Definition queue_after (o : queue_op) (r : Roundabout.t) : Roundabout.t :=
  match o with
  | Enqueue a => (Roundabout.enqueue a r).2
  | Dequeue => (Roundabout.dequeue r).2
  end.

(** * Properties *)

(** ** The monad *)

Ltac unfold_monad :=
  unfold mbind, M_bind, mret, M_ret, bind, ret, get, put, modify, throw_if,
    throw in *.

Lemma for_each_guard {S A} (p : A -> bool) (e : exn) (body : A -> M S unit)
    (l : list A) (s : S) :
  (forall x s', body x s' = throw_if (p x) e s') ->
  for_each l body s = (if existsb p l then Thrown e else Returned tt, s).
Proof.
  intros Hbody. induction l as [|x l IH]; [reflexivity|].
  simpl. unfold mbind, M_bind, bind. rewrite Hbody. unfold throw_if, throw, ret.
  destruct (p x); simpl; [reflexivity|]. exact IH.
Qed.

Lemma existsb_snd_eqb (a : Z) (l : list (Z * Z)) :
  existsb (fun '(_, id) => id =? a) l = true <-> a ∈ l.*2.
Proof.
  induction l as [|[k v] l IH]; simpl.
  - split; [discriminate|]. intros H. inversion H.
  - rewrite orb_true_iff, IH, elem_of_cons, Z.eqb_eq. intuition congruence.
Qed.

Lemma existsb_eqb (a : Z) (l : list Z) :
  existsb (fun id => id =? a) l = true <-> a ∈ l.
Proof.
  induction l as [|v l IH]; simpl.
  - split; [discriminate|]. intros H. inversion H.
  - rewrite orb_true_iff, IH, elem_of_cons, Z.eqb_eq. intuition congruence.
Qed.

(** ** Node *)

Section NodeFacts.
Import Node.

Lemma length_multimap_emplace k v l :
  length (multimap_emplace k v l) = S (length l).
Proof.
  induction l as [|[k' v'] l IH]; simpl; [reflexivity|].
  destruct (k' <=? k); simpl; congruence.
Qed.

Lemma length_erase_first v l l' :
  erase_first v l = Some l' -> length l = S (length l').
Proof.
  revert l'. induction l as [|[k' v'] l IH]; simpl; intros l' H; [discriminate|].
  destruct (v' =? v); [congruence|].
  destruct (erase_first v l) as [l0|]; simpl in H; [|discriminate].
  injection H as <-. simpl. f_equal. apply IH. reflexivity.
Qed.

(** What the guards of [addAgent] decide, and that they write nothing. *)
Lemma addAgent_guards_run a n :
  addAgent_guards a n
  = (if size n =? m_capacity n then Thrown (runtime_error "Node is full")
     else if existsb (fun '(_, id) => id =? a) (m_agents n)
          then Thrown (runtime_error "Agent is already on the node.")
          else Returned tt, n).
Proof.
  unfold addAgent_guards. unfold_monad.
  destruct (size n =? m_capacity n); simpl; [reflexivity|].
  apply (for_each_guard (fun '(_, id) => id =? a)).
  intros [k id] s'. reflexivity.
Qed.

Lemma refused_iff a n :
  refused a n = true <-> size n = m_capacity n \/ a ∈ agent_ids n.
Proof.
  unfold refused, agent_ids.
  rewrite orb_true_iff, Z.eqb_eq, existsb_snd_eqb. reflexivity.
Qed.

Lemma addAgent_run a n :
  addAgent a n =
  if refused a n then (Thrown (runtime_error
       (if size n =? m_capacity n then "Node is full"
        else "Agent is already on the node.")), n)
  else (Returned tt,
        with_agentCounter (wrap (m_agentCounter n + 1))
          (with_agents
             (multimap_emplace
                (to_int16 match last (m_agents n) with
                          | None => 0
                          | Some (k, _) => to_int (k + 1)
                          end) a (m_agents n)) n)).
Proof.
  unfold addAgent, refused.
  unfold mbind at 1. unfold M_bind, bind. rewrite addAgent_guards_run.
  destruct (size n =? m_capacity n); simpl; [reflexivity|].
  destruct (existsb _ _); reflexivity.
Qed.

Lemma addAgent_angle_run k a n :
  addAgent_angle k a n =
  if refused a n then (Thrown (runtime_error
       (if size n =? m_capacity n then "Node is full"
        else "Agent is already on the node.")), n)
  else (Returned tt,
        with_agentCounter (wrap (m_agentCounter n + 1))
          (with_agents (multimap_emplace (to_int16 k) a (m_agents n)) n)).
Proof.
  unfold addAgent_angle, refused.
  unfold mbind at 1. unfold M_bind, bind. rewrite addAgent_guards_run.
  destruct (size n =? m_capacity n); simpl; [reflexivity|].
  destruct (existsb _ _); reflexivity.
Qed.

Lemma setCapacity_run c n :
  setCapacity c n =
  if c <? size n
  then (Thrown (runtime_error
          "Node capacity is smaller than the current queue size"), n)
  else (Returned tt, with_capacity c n).
Proof.
  unfold setCapacity. unfold_monad. destruct (c <? size n); reflexivity.
Qed.

Lemma after_within_capacity o n :
  within_capacity n -> within_capacity (after o n).
Proof.
  unfold within_capacity, size. intros H.
  destruct o as [id|c|c|k a|a|a|s|s|]; simpl; try exact H.
  - rewrite setCapacity_run. unfold size.
    destruct (Z.ltb_spec c (Z.of_nat (length (m_agents n)))); simpl; lia.
  - rewrite addAgent_angle_run. unfold refused, size.
    destruct (Z.eqb_spec (Z.of_nat (length (m_agents n))) (m_capacity n));
      simpl; [exact H|].
    destruct (existsb _ _); simpl; [exact H|].
    rewrite length_multimap_emplace. lia.
  - rewrite addAgent_run. unfold refused, size.
    destruct (Z.eqb_spec (Z.of_nat (length (m_agents n))) (m_capacity n));
      simpl; [exact H|].
    destruct (existsb _ _); simpl; [exact H|].
    rewrite length_multimap_emplace. lia.
  - unfold removeAgent. unfold_monad.
    destruct (erase_first a (m_agents n)) as [l|] eqn:E; simpl; [|exact H].
    apply length_erase_first in E. lia.
Qed.

Lemma make_within_capacity id junk : within_capacity (make id junk).
Proof. unfold within_capacity, size. simpl. lia. Qed.

Lemma history_within_capacity (os : list op) n :
  within_capacity n -> within_capacity (foldl (fun n o => after o n) n os).
Proof.
  revert n. induction os as [|o os IH]; simpl; intros n H; [exact H|].
  apply IH, after_within_capacity, H.
Qed.

End NodeFacts.

(** C1.  On an intersection node [|agents| <= capacity] is kept by every
    member function, whether the call returns or throws, hence by every
    history of calls on a fresh node; [addAgent] (both overloads) throws
    exactly when the node is full or the agent is already on it, and
    [setCapacity] throws exactly when the new capacity is below the number
    of agents. *)
Theorem node_agents_within_capacity (n : Node.t) :
  Node.within_capacity n ->
  (forall o, Node.within_capacity (Node.after o n)) /\
  (forall os, Node.within_capacity (foldl (fun n o => Node.after o n) n os)) /\
  (forall a, throws (Node.addAgent a n).1 = true <->
             Node.size n = Node.m_capacity n \/ a ∈ Node.agent_ids n) /\
  (forall k a, throws (Node.addAgent_angle k a n).1 = true <->
               Node.size n = Node.m_capacity n \/ a ∈ Node.agent_ids n) /\
  (forall c, throws (Node.setCapacity c n).1 = true <-> c < Node.size n) /\
  (forall id junk os,
     Node.within_capacity
       (foldl (fun n o => Node.after o n) (Node.make id junk) os)).
Proof.
  intros H. split; [|split; [|split; [|split; [|split]]]].
  - intros o. apply after_within_capacity, H.
  - intros os. apply history_within_capacity, H.
  - intros a. rewrite <- refused_iff, addAgent_run.
    destruct (refused a n); simpl; intuition congruence.
  - intros k a. rewrite <- refused_iff, addAgent_angle_run.
    destruct (refused a n); simpl; intuition congruence.
  - intros c. rewrite setCapacity_run.
    destruct (Z.ltb_spec c (Node.size n)); simpl.
    + split; [intros _; assumption | reflexivity].
    + split; [discriminate | lia].
  - intros id junk os. apply history_within_capacity, make_within_capacity.
Qed.

Lemma node_agents_within_capacity_witness :
  Node.within_capacity (Node.after (Node.AddAgent 8) full_node) /\
  Node.within_capacity (Node.after (Node.SetCapacity 0) full_node).
Proof.
  assert (H : Node.within_capacity full_node) by (vm_compute; discriminate).
  split; apply (node_agents_within_capacity full_node H).
Defined.

(** ** Roundabout *)

Section RoundaboutFacts.
Import Roundabout.

Lemma enqueue_run a r :
  enqueue a r =
  if rejected a r then (Thrown (runtime_error
       (if size r =? m_capacity r then "Roundabout is full"
        else "Agent is already on the roundabout.")), r)
  else (Returned tt, with_agents (m_agents r ++ [a]) r).
Proof.
  unfold enqueue, rejected. unfold_monad.
  destruct (size r =? m_capacity r); simpl; [reflexivity|].
  rewrite (for_each_guard (fun id => id =? a)
             (runtime_error "Agent is already on the roundabout."))
    by reflexivity.
  destruct (existsb _ _); reflexivity.
Qed.

Lemma rejected_false a r :
  size r < m_capacity r -> a ∉ m_agents r -> rejected a r = false.
Proof.
  intros Hsz Hnot. unfold rejected. apply orb_false_iff. split.
  - apply Z.eqb_neq. lia.
  - apply not_true_is_false. rewrite existsb_eqb. exact Hnot.
Qed.

Lemma dequeue_run r :
  dequeue r =
  match m_agents r with
  | [] => (Thrown (runtime_error "Roundabout is empty"), r)
  | a :: rest => (Returned a, with_agents rest r)
  end.
Proof. unfold dequeue. unfold_monad. destruct (m_agents r); reflexivity. Qed.

End RoundaboutFacts.

(** C10.  When [Node::addAgent] (either overload) or [Roundabout::enqueue]
    throws, the object is exactly as it was before the call: agents and
    agent counter are untouched. *)
Theorem add_throws_object_unchanged (n : Node.t) (r : Roundabout.t) (k a : Z) :
  (throws (Node.addAgent a n).1 = true -> (Node.addAgent a n).2 = n) /\
  (throws (Node.addAgent_angle k a n).1 = true ->
   (Node.addAgent_angle k a n).2 = n) /\
  (throws (Roundabout.enqueue a r).1 = true -> (Roundabout.enqueue a r).2 = r).
Proof.
  rewrite addAgent_run, addAgent_angle_run, enqueue_run.
  destruct (refused a n), (rejected a r); simpl; intuition discriminate.
Qed.

Lemma add_throws_object_unchanged_witness :
  (Node.addAgent 8 full_node).2 = full_node /\
  (Node.addAgent_angle 0 7 full_node).2 = full_node /\
  (Roundabout.enqueue 7 full_roundabout).2 = full_roundabout.
Proof.
  destruct (add_throws_object_unchanged full_node full_roundabout 0 8)
    as (H1 & _ & _).
  destruct (add_throws_object_unchanged full_node full_roundabout 0 7)
    as (_ & H2 & H3).
  split; [apply H1; reflexivity|].
  split; [apply H2; reflexivity | apply H3; reflexivity].
Defined.

(** C8.  [Roundabout::dequeue] throws exactly when the queue is empty and
    otherwise returns and removes the head; [enqueue], when it returns, has
    put the agent at the back; so on an empty roundabout with room for three
    agents, enqueuing distinct [a], [b], [c] and dequeuing three times yields
    [a], [b], [c] and leaves the roundabout empty.  No angle takes part. *)
Theorem roundabout_is_fifo (r : Roundabout.t) :
  (throws (Roundabout.dequeue r).1 = true <-> Roundabout.m_agents r = []) /\
  (forall a rest, Roundabout.m_agents r = a :: rest ->
     Roundabout.dequeue r = (Returned a, Roundabout.with_agents rest r)) /\
  (forall a, returns (Roundabout.enqueue a r).1 = true ->
     Roundabout.m_agents (Roundabout.enqueue a r).2
     = Roundabout.m_agents r ++ [a]) /\
  (forall a b c,
     Roundabout.m_agents r = [] -> 3 <= Roundabout.m_capacity r ->
     a <> b -> a <> c -> b <> c ->
     (Roundabout.enqueue a;; Roundabout.enqueue b;; Roundabout.enqueue c;;
      x ← Roundabout.dequeue; y ← Roundabout.dequeue; z ← Roundabout.dequeue;
      mret (x, y, z)) r = (Returned (a, b, c), r)).
Proof.
  split; [|split; [|split]].
  - rewrite dequeue_run. destruct (Roundabout.m_agents r); simpl.
    + split; reflexivity.
    + split; discriminate.
  - intros a rest H. rewrite dequeue_run, H. reflexivity.
  - intros a. rewrite enqueue_run. destruct (rejected a r); simpl;
      [discriminate | reflexivity].
  - intros a b c Hempty Hcap Hab Hac Hbc.
    destruct r as [id co cap ag]. simpl in Hempty, Hcap. subst ag.
    unfold mbind, M_bind, bind, mret, M_ret, ret.
    rewrite enqueue_run, rejected_false; simpl;
      [|unfold Roundabout.size; simpl; lia | apply not_elem_of_nil].
    rewrite enqueue_run, rejected_false; simpl;
      [|unfold Roundabout.size; simpl; lia
       |rewrite !not_elem_of_cons; repeat split; try congruence;
        apply not_elem_of_nil].
    rewrite enqueue_run, rejected_false; simpl;
      [|unfold Roundabout.size; simpl; lia
       |rewrite !not_elem_of_cons; repeat split; try congruence;
        apply not_elem_of_nil].
    reflexivity.
Qed.

Lemma roundabout_is_fifo_witness :
  (Roundabout.enqueue 11;; Roundabout.enqueue 5;; Roundabout.enqueue 8;;
   x ← Roundabout.dequeue; y ← Roundabout.dequeue; z ← Roundabout.dequeue;
   mret (x, y, z)) roundabout3 = (Returned (11, 5, 8), roundabout3).
Proof.
  destruct (roundabout_is_fifo roundabout3) as (_ & _ & _ & H).
  apply H; [reflexivity | vm_compute; discriminate | lia | lia | lia].
Defined.

(** ** TrafficLight *)

Lemma wrap_range z : 0 <= wrap z < modulus.
Proof. apply Z.mod_pos_bound. reflexivity. Qed.

Lemma wrap_small z : 0 <= z < modulus -> wrap z = z.
Proof. apply Z.mod_small. Qed.

Section TrafficLightFacts.
Import TrafficLight.

Lemma setPhase_run p tl :
  setPhase p tl =
  match m_delay tl with
  | None => (Thrown not_set, tl)
  | Some d => (Returned tt, with_phase 0 (with_counter (reduce_phase d p) tl))
  end.
Proof. unfold setPhase. unfold_monad. destruct (m_delay tl); reflexivity. Qed.

Lemma reduce_phase_reducible d p :
  is_uint32 p -> reducible d p = true ->
  0 <= reduce_phase d p < cycle d /\ reduce_phase d p = p mod cycle d.
Proof.
  unfold reducible, reduce_phase, cycle. intros Hp H.
  pose proof (wrap_range (d.1 + d.2)) as Hs.
  set (s := wrap (d.1 + d.2)) in *. clearbody s.
  apply orb_true_iff in H as [H|H].
  - apply Z.ltb_lt in H. rewrite Z.gtb_ltb.
    destruct (Z.ltb_spec s p); [lia|].
    unfold is_uint32 in Hp. rewrite Z.mod_small by lia. lia.
  - apply andb_true_iff in H as [H1 H2].
    apply Z.ltb_lt in H1. apply Z.ltb_lt in H2. rewrite Z.gtb_ltb.
    destruct (Z.ltb_spec s p); [|lia].
    unfold is_uint32 in Hp. rewrite wrap_small by lia.
    split; [lia|]. apply (Z.mod_unique_pos p s 1); lia.
Qed.

Lemma reduce_phase_uint32 d p : is_uint32 p -> is_uint32 (reduce_phase d p).
Proof.
  unfold reduce_phase. intros Hp. rewrite Z.gtb_ltb.
  destruct (Z.ltb_spec (wrap (d.1 + d.2)) p); [apply wrap_range | exact Hp].
Qed.

End TrafficLightFacts.

(** C3.  With the delay set to [(g, r)], [isGreen(s)] returns whether
    [counter < g] agrees with [s] having priority, that is
    [(counter < g) XOR not priority(s)]: a priority street is shown green
    exactly while the counter is in [0, g), any other street exactly while it
    is in [g, g + r). *)
Theorem isGreen_street_window (tl : TrafficLight.t) (s g r : Z) :
  TrafficLight.m_delay tl = Some (g, r) ->
  let c := TrafficLight.m_counter tl in
  let priority := bool_decide (s ∈ Node.m_streetPriorities (TrafficLight.node tl)) in
  TrafficLight.isGreen_street s tl = Returned (eqb (c <? g) priority) /\
  TrafficLight.isGreen_street s tl = Returned (xorb (c <? g) (negb priority)) /\
  (TrafficLight.in_cycle tl = true ->
   s ∈ Node.m_streetPriorities (TrafficLight.node tl) ->
   TrafficLight.isGreen_street s tl = Returned true <-> 0 <= c < g) /\
  (TrafficLight.in_cycle tl = true ->
   s ∉ Node.m_streetPriorities (TrafficLight.node tl) ->
   TrafficLight.isGreen_street s tl = Returned true <->
   g <= c < TrafficLight.cycle (g, r)).
Proof.
  intros Hd c priority.
  assert (Hrun : TrafficLight.isGreen_street s tl
                 = Returned (eqb (c <? g) priority)).
  { unfold TrafficLight.isGreen_street, TrafficLight.isGreen. rewrite Hd. simpl.
    fold c. fold priority. destruct (c <? g), priority; reflexivity. }
  split; [exact Hrun|]. split.
  { rewrite Hrun. destruct (c <? g), priority; reflexivity. }
  unfold TrafficLight.in_cycle. rewrite Hd, Hrun. fold c.
  split; intros Hin Hs.
  - unfold priority. rewrite bool_decide_eq_true_2 by exact Hs.
    destruct (Z.ltb_spec c g); simpl; split; intros H'; try reflexivity;
      try discriminate; lia.
  - unfold priority. rewrite bool_decide_eq_false_2 by exact Hs.
    destruct (Z.ltb_spec c g); simpl; split; intros H'; try reflexivity;
      try discriminate; lia.
Qed.

Lemma isGreen_street_window_witness :
  TrafficLight.isGreen_street 4 light55 = Returned false /\
  (TrafficLight.isGreen_street 4 light55 = Returned true <->
   5 <= 0 < TrafficLight.cycle (5, 5)).
Proof.
  destruct (isGreen_street_window light55 4 5 5 eq_refl) as (H1 & _ & _ & H4).
  split; [exact H1|].
  apply H4; [reflexivity | apply not_elem_of_empty].
Defined.

(** C2.  [setDelay] does not keep the counter inside the cycle.  On a light
    with delay (10, 10) and counter 3, inside its cycle, [setDelay] with the
    pair (2, 5) takes the branch that shifts the counter into the shorter
    green window and computes 2 - (10 - 3) in the unsigned type: it returns
    and leaves the counter at 4294967291, outside [0, 7); the overload
    [setDelay(2)] does the same.  The other branch of the same function
    does bring a counter that is too large back into the new cycle: from
    counter 15 the same call leaves it at 6. *)
Theorem setDelay_counter_leaves_cycle :
  TrafficLight.well_typed light1010 /\
  TrafficLight.in_cycle light1010 = true /\
  TrafficLight.setDelay_pair (2, 5) light1010
  = (Returned tt, TrafficLight.mk (Node.make 0 0) (Some (2, 5)) 4294967291 0) /\
  wrap (2 - (10 - 3)) = 4294967291 /\
  TrafficLight.in_cycle (TrafficLight.setDelay_pair (2, 5) light1010).2 = false /\
  TrafficLight.setDelay 2 light1010
  = (Returned tt, TrafficLight.mk (Node.make 0 0) (Some (2, 2)) 4294967291 0) /\
  TrafficLight.in_cycle (TrafficLight.setDelay 2 light1010).2 = false /\
  TrafficLight.setDelay_pair (2, 5)
    (TrafficLight.mk (Node.make 0 0) (Some (10, 10)) 15 0)
  = (Returned tt, TrafficLight.mk (Node.make 0 0) (Some (2, 5)) 6 0) /\
  TrafficLight.in_cycle
    (TrafficLight.setDelay_pair (2, 5)
       (TrafficLight.mk (Node.make 0 0) (Some (10, 10)) 15 0)).2 = true.
Proof.
  split; [repeat split; vm_compute; (reflexivity || discriminate)|].
  repeat split; reflexivity.
Qed.

(** C5.  [setPhase] throws when the delay is not set and otherwise clears
    the pending phase, but the phase it stores is reduced by one conditional
    subtraction guarded by [>]: called with the cycle length itself, here 10
    on a light with delay (5, 5), it stores 10 and not 10 mod 10 = 0.  The
    counter is then outside the cycle and the next tick moves it to 11
    instead of wrapping. *)
Theorem setPhase_cycle_length_not_reduced :
  TrafficLight.setPhase 10 (TrafficLight.make 0 0) =
    (Thrown TrafficLight.not_set, TrafficLight.make 0 0) /\
  TrafficLight.setPhase 10 light55
  = (Returned tt, TrafficLight.mk (Node.make 0 0) (Some (5, 5)) 10 0) /\
  10 mod TrafficLight.cycle (5, 5) = 0 /\
  TrafficLight.in_cycle (TrafficLight.setPhase 10 light55).2 = false /\
  TrafficLight.m_counter
    ((TrafficLight.setPhase 10;; TrafficLight.increaseCounter) light55).2
  = 11 /\
  TrafficLight.m_counter (TrafficLight.setPhase 35 light55).2 = 25.
Proof. repeat split; reflexivity. Qed.

(** ** SparseMatrix: single cells *)

Section CellFacts.
Import SparseMatrix.
Context {V : Type} `{Zero V}.

Lemma insert_index_run i v (m : t V) :
  insert_index i v m =
  if i >? last_index m then (Thrown (out_of_range "Index out of range"), m)
  else (Returned tt, with_matrix (emplace i v (_matrix m)) m).
Proof.
  unfold insert_index. unfold_monad. destruct (i >? last_index m); reflexivity.
Qed.

Lemma insert_or_assign_index_run i v (m : t V) :
  insert_or_assign_index i v m =
  if i >? last_index m then (Thrown (out_of_range "Index out of range"), m)
  else (Returned tt, with_matrix (<[i := v]> (_matrix m)) m).
Proof.
  unfold insert_or_assign_index. unfold_monad.
  destruct (i >? last_index m); reflexivity.
Qed.

Lemma lookup_emplace k v (mp : gmap Z V) k' :
  emplace k v mp !! k' =
  match mp !! k' with
  | Some x => Some x
  | None => if decide (k = k') then Some v else None
  end.
Proof.
  unfold emplace. destruct (mp !! k) as [x|] eqn:E.
  - destruct (mp !! k') eqn:E'; [reflexivity|].
    destruct (decide (k = k')); [congruence | reflexivity].
  - rewrite lookup_insert. destruct (decide (k = k')) as [<-|].
    + rewrite E. reflexivity.
    + destruct (mp !! k'); reflexivity.
Qed.

(** A cell inside the extent has a linear index that no wrap-around
    touches and that passes the bound check, as long as the number of cells
    does not exceed [2^32]. *)
Lemma linear_in_extent (m : t V) i j :
  0 <= i < _rows m -> 0 <= j < _cols m -> _rows m * _cols m <= modulus ->
  linear m i j = i * _cols m + j /\ 0 <= linear m i j <= last_index m.
Proof.
  intros Hi Hj Hfit. unfold linear, last_index.
  assert (Hmul : 0 <= i * _cols m <= (_rows m - 1) * _cols m)
    by (split; [apply Z.mul_nonneg_nonneg
               |apply Z.mul_le_mono_nonneg_r]; lia).
  assert (Hidx : 0 <= i * _cols m + j <= _rows m * _cols m - 1) by lia.
  assert (Hic : 0 <= i * _cols m < modulus) by lia.
  rewrite (wrap_small (i * _cols m)) by exact Hic.
  rewrite (wrap_small (i * _cols m + j)) by lia.
  split; [reflexivity|].
  destruct (Z.eq_dec (_rows m * _cols m) modulus) as [E|E].
  - rewrite E. change (wrap (wrap modulus - 1)) with (modulus - 1). lia.
  - rewrite (wrap_small (_rows m * _cols m)) by lia.
    rewrite wrap_small by lia. lia.
Qed.

End CellFacts.

(** C4, as the code has it.  For a cell inside the extent of a matrix with at
    most [2^32] cells: [insert(i, j, v)] on a cell that already holds a value
    returns without an error and leaves the matrix, hence the old value, as
    it was; on an empty cell it returns and the cell then holds [v];
    [insert_or_assign(i, j, v)] returns and the cell then holds [v] in either
    case. *)
Theorem insert_keeps_insert_or_assign_overwrites
    {V : Type} `{Zero V} (m : SparseMatrix.t V) (i j : Z) (v : V) :
  0 <= i < SparseMatrix._rows m -> 0 <= j < SparseMatrix._cols m ->
  SparseMatrix._rows m * SparseMatrix._cols m <= modulus ->
  (forall v0,
     SparseMatrix._matrix m !! SparseMatrix.linear m i j = Some v0 ->
     SparseMatrix.insert i j v m = (Returned tt, m) /\
     SparseMatrix.at_cell i j m = Returned v0) /\
  (SparseMatrix._matrix m !! SparseMatrix.linear m i j = None ->
     (SparseMatrix.insert i j v m).1 = Returned tt /\
     SparseMatrix.at_cell i j (SparseMatrix.insert i j v m).2 = Returned v) /\
  (SparseMatrix.insert_or_assign i j v m).1 = Returned tt /\
  SparseMatrix.at_cell i j (SparseMatrix.insert_or_assign i j v m).2
  = Returned v.
Proof.
  intros Hi Hj Hfit.
  destruct (linear_in_extent m i j Hi Hj Hfit) as [_ Hle].
  assert (Hgt : (SparseMatrix.linear m i j >? SparseMatrix.last_index m) = false)
    by (rewrite Z.gtb_ltb; apply Z.ltb_ge; lia).
  assert (Hin : forall m' : SparseMatrix.t V,
             SparseMatrix._rows m' = SparseMatrix._rows m ->
             SparseMatrix._cols m' = SparseMatrix._cols m ->
             SparseMatrix.at_cell i j m'
             = Returned (default (SparseMatrix._defaultReturn m')
                 (SparseMatrix._matrix m' !! SparseMatrix.linear m i j))).
  { intros m' Hr Hc. unfold SparseMatrix.at_cell, SparseMatrix.linear.
    rewrite Hr, Hc, !Z.geb_leb.
    destruct (Z.leb_spec (SparseMatrix._rows m) i); [lia|].
    destruct (Z.leb_spec (SparseMatrix._cols m) j); [lia|]. reflexivity. }
  unfold SparseMatrix.insert, SparseMatrix.insert_or_assign.
  unfold mbind, M_bind, bind, get.
  rewrite insert_index_run, insert_or_assign_index_run, Hgt. simpl.
  split; [|split; [|split]].
  - intros v0 Hv0. rewrite (Hin m eq_refl eq_refl), Hv0.
    unfold SparseMatrix.emplace. rewrite Hv0. destruct m; split; reflexivity.
  - intros Hnone. split; [reflexivity|].
    rewrite Hin by reflexivity. simpl.
    rewrite lookup_emplace, Hnone, decide_True by reflexivity. reflexivity.
  - reflexivity.
  - rewrite Hin by reflexivity. simpl. rewrite lookup_insert_eq. reflexivity.
Qed.

Lemma insert_keeps_insert_or_assign_overwrites_witness :
  SparseMatrix.insert 0 0 7 m22 = (Returned tt, m22) /\
  SparseMatrix.at_cell 0 0 (SparseMatrix.insert_or_assign 0 0 7 m22).2
  = Returned 7.
Proof.
  destruct (insert_keeps_insert_or_assign_overwrites m22 0 0 7)
    as (H1 & _ & _ & H4);
    [simpl; lia | simpl; lia | vm_compute; discriminate|].
  split; [apply (H1 5); reflexivity | exact H4].
Defined.

(** C4 as stated fails: [insert(0, 0, 7)] on a 2 x 2 matrix that holds 5 in
    cell (0, 0) is in range, reports no failure, and the cell holds 5
    afterwards, not the given 7; [insert_or_assign] on the same cell stores
    7. *)
Lemma insert_occupied_cell_silent :
  SparseMatrix.at_cell 0 0 m22 = Returned 5 /\
  (SparseMatrix.insert 0 0 7 m22).1 = Returned tt /\
  SparseMatrix.at_cell 0 0 (SparseMatrix.insert 0 0 7 m22).2 = Returned 5 /\
  SparseMatrix.at_cell 0 0 (SparseMatrix.insert 0 0 7 m22).2 <> Returned 7 /\
  SparseMatrix.at_cell 0 0 (SparseMatrix.insert_or_assign 0 0 7 m22).2
  = Returned 7.
Proof.
  split; [reflexivity|]. split; [reflexivity|]. split; [reflexivity|].
  split; [|reflexivity]. vm_compute. discriminate.
Qed.

(** C9.  When [rows * cols] is 0 in the index type, as on the
    default-constructed matrix, the bound [rows * cols - 1] wraps to
    [2^32 - 1]; then for every linear index [i], [insert(i, v)] and
    [contains(i)] return without an out-of-range error, and after the insert
    the matrix holds an entry under [i] (the given value when there was
    none). *)
Theorem zero_extent_accepts_every_index
    {V : Type} `{Zero V} (m : SparseMatrix.t V) (i : Z) (v : V) :
  is_uint32 i ->
  wrap (SparseMatrix._rows m * SparseMatrix._cols m) = 0 ->
  SparseMatrix.last_index m = modulus - 1 /\
  (SparseMatrix.insert_index i v m).1 = Returned tt /\
  is_Some (SparseMatrix._matrix (SparseMatrix.insert_index i v m).2 !! i) /\
  (SparseMatrix._matrix m !! i = None ->
   SparseMatrix._matrix (SparseMatrix.insert_index i v m).2 !! i = Some v) /\
  SparseMatrix.contains_index i m
  = Returned (bool_decide (is_Some (SparseMatrix._matrix m !! i))) /\
  SparseMatrix.contains_index i (SparseMatrix.insert_index i v m).2
  = Returned true.
Proof.
  intros Hi Hz.
  assert (Hlast : SparseMatrix.last_index m = modulus - 1)
    by (unfold SparseMatrix.last_index; rewrite Hz; reflexivity).
  assert (Hgt : (i >? SparseMatrix.last_index m) = false)
    by (rewrite Hlast, Z.gtb_ltb; apply Z.ltb_ge; unfold is_uint32 in Hi; lia).
  assert (Hsome : is_Some (SparseMatrix.emplace i v (SparseMatrix._matrix m) !! i)).
  { rewrite lookup_emplace. destruct (SparseMatrix._matrix m !! i); [eauto|].
    rewrite decide_True by reflexivity. eauto. }
  rewrite insert_index_run, Hgt. simpl.
  unfold SparseMatrix.contains_index. rewrite Hgt.
  assert (Hlast' : SparseMatrix.last_index
            (SparseMatrix.with_matrix
               (SparseMatrix.emplace i v (SparseMatrix._matrix m)) m)
          = SparseMatrix.last_index m) by reflexivity.
  rewrite Hlast', Hgt. simpl.
  repeat split; try assumption.
  - intros Hnone. rewrite lookup_emplace, Hnone, decide_True by reflexivity.
    reflexivity.
  - rewrite bool_decide_eq_true_2 by exact Hsome. reflexivity.
Qed.

Lemma zero_extent_accepts_every_index_witness :
  (SparseMatrix.insert_index 4294967295 1
     (SparseMatrix.make_default (V := Z))).1 = Returned tt /\
  SparseMatrix.contains_index 4294967295
    (SparseMatrix.insert_index 4294967295 1
       (SparseMatrix.make_default (V := Z))).2 = Returned true.
Proof.
  destruct (zero_extent_accepts_every_index
              (SparseMatrix.make_default (V := Z)) 4294967295 1)
    as (_ & H2 & _ & _ & _ & H6);
    [split; vm_compute; (reflexivity || discriminate) | reflexivity|].
  split; assumption.
Defined.

(** ** Loops that do not throw *)

(** A loop whose body, under an invariant [P] of the object and a condition
    [Q] on the elements, returns after the pure update [f], is the left fold
    of [f]. *)
Lemma for_each_pure {S A} (P : S -> Prop) (Q : A -> Prop) (f : S -> A -> S)
    (body : A -> M S unit) :
  (forall x s, Q x -> P s -> body x s = (Returned tt, f s x) /\ P (f s x)) ->
  forall l s, Forall Q l -> P s ->
    for_each l body s = (Returned tt, foldl f s l) /\ P (foldl f s l).
Proof.
  intros Hbody l. induction l as [|x l IH]; intros s HQ HP; simpl.
  - split; [reflexivity | exact HP].
  - inversion HQ as [|? ? Hx Hl]; subst.
    destruct (Hbody x s Hx HP) as [Hrun HP'].
    unfold mbind, M_bind, bind. rewrite Hrun. apply IH; assumption.
Qed.

Lemma to_int_add a b : to_int (to_int a + b) = to_int (a + b).
Proof.
  unfold to_int.
  replace ((a + 2 ^ 31) `mod` modulus - 2 ^ 31 + b + 2 ^ 31)
    with ((a + 2 ^ 31) `mod` modulus + b) by lia.
  rewrite Z.add_mod_idemp_l by discriminate. f_equal. f_equal. lia.
Qed.

Lemma to_int_small z : - 2 ^ 31 <= z < 2 ^ 31 -> to_int z = z.
Proof.
  intros Hz. unfold to_int, modulus. rewrite Z.mod_small; lia.
Qed.

Lemma square_below_modulus n : 0 <= n -> n * n <= modulus -> n < modulus.
Proof. unfold modulus. change (2 ^ 32) with 4294967296. intros. nia. Qed.

Section ExtentFacts.
Import SparseMatrix.
Context {V : Type}.

Lemma well_formed_spec (m : t V) :
  well_formed m = true ->
  0 <= _rows m /\ 0 <= _cols m /\ _rows m * _cols m <= modulus /\
  forall k v, _matrix m !! k = Some v -> 0 <= k < _rows m * _cols m.
Proof.
  unfold well_formed. rewrite !andb_true_iff, !Z.leb_le, forallb_forall.
  intros [[[Hr Hc] Hfit] Hkeys].
  split; [exact Hr|]. split; [exact Hc|]. split; [exact Hfit|].
  intros k v Hkv.
  assert (Hin : In (k, v) (map_to_list (_matrix m)))
    by (apply list_elem_of_In, elem_of_map_to_list; assumption).
  apply Hkeys in Hin. simpl in Hin. lia.
Qed.

(** A linear index of a cell passes the bound check. *)
Lemma in_extent_last_index (m : t V) k :
  _rows m * _cols m <= modulus -> 0 <= k < _rows m * _cols m ->
  (k >? last_index m) = false.
Proof.
  intros Hfit Hk. rewrite Z.gtb_ltb. apply Z.ltb_ge. unfold last_index.
  destruct (Z.eq_dec (_rows m * _cols m) modulus) as [E|E].
  - rewrite E. change (wrap (wrap modulus - 1)) with (modulus - 1). lia.
  - rewrite (wrap_small (_rows m * _cols m)) by lia.
    rewrite wrap_small by lia. lia.
Qed.

(** Row and column of a linear index, and the index they give back. *)
Lemma div_mod_in_extent r c k :
  0 <= r -> 0 <= c -> r * c <= modulus -> 0 <= k < r * c ->
  0 < c /\ 0 <= k `div` c < r /\ 0 <= k `mod` c < c /\
  wrap (wrap (k `div` c * c) + k `mod` c) = k.
Proof.
  intros Hr Hc Hfit Hk.
  assert (Hpos : 0 < c) by nia.
  pose proof (Z.div_mod k c ltac:(lia)) as Hdm.
  pose proof (Z.mod_pos_bound k c Hpos) as Hmod.
  assert (Hdiv : 0 <= k `div` c < r).
  { split; [apply Z.div_pos; lia|]. apply Z.div_lt_upper_bound; lia. }
  repeat split; try lia.
  assert (Hq : 0 <= k `div` c * c <= k) by nia.
  rewrite (wrap_small (k `div` c * c)) by lia.
  rewrite wrap_small by lia. lia.
Qed.

End ExtentFacts.

(** ** SparseMatrix: degree vector and Laplacian *)

Section DegreeFacts.
Import SparseMatrix.
Context {V : Type} `{Iteration}.

Lemma udiv_run {S} a b (s : S) : b <> 0 -> udiv a b s = (Returned (a `div` b), s).
Proof. intros Hb. unfold udiv. apply Z.eqb_neq in Hb. rewrite Hb. reflexivity. Qed.

Lemma umod_run {S} a b (s : S) : b <> 0 -> umod a b s = (Returned (a `mod` b), s).
Proof. intros Hb. unfold umod. apply Z.eqb_neq in Hb. rewrite Hb. reflexivity. Qed.

(** Reading and writing a cell inside the extent. *)
Lemma at_cell_in_extent {W} (m : t W) i j :
  0 <= i < _rows m -> 0 <= j < _cols m -> _rows m * _cols m <= modulus ->
  at_cell i j m = Returned (cell m i j).
Proof.
  intros Hi Hj Hfit. unfold at_cell, cell.
  destruct (linear_in_extent m i j Hi Hj Hfit) as [-> _].
  rewrite !Z.geb_leb.
  destruct (Z.leb_spec (_rows m) i); [lia|].
  destruct (Z.leb_spec (_cols m) j); [lia|]. reflexivity.
Qed.

Lemma insert_or_assign_in_extent {W} (m : t W) i j v :
  0 <= i < _rows m -> 0 <= j < _cols m -> _rows m * _cols m <= modulus ->
  insert_or_assign i j v m
  = (Returned tt, with_matrix (<[i * _cols m + j := v]> (_matrix m)) m).
Proof.
  intros Hi Hj Hfit. unfold insert_or_assign. unfold mbind, M_bind, bind, get.
  destruct (linear_in_extent m i j Hi Hj Hfit) as [Hlin Hle].
  rewrite insert_or_assign_index_run.
  replace (linear m i j >? last_index m) with false
    by (symmetry; rewrite Z.gtb_ltb; apply Z.ltb_ge; lia).
  rewrite Hlin. reflexivity.
Qed.

Lemma degree_step_run n (kv : Z * V) dv :
  0 <= n -> n * n <= modulus -> 0 <= kv.1 < n * n -> column_of n dv ->
  (q ← udiv kv.1 n; d ← observe (at_cell q 0);
   insert_or_assign q 0 (to_int (d + 1))) dv
  = (Returned tt, degree_step n dv kv) /\ column_of n (degree_step n dv kv).
Proof.
  intros Hn Hfit Hk (Hr & Hc & Hd).
  destruct (div_mod_in_extent n n kv.1 Hn Hn Hfit Hk) as (Hpos & Hq & _ & _).
  pose proof (square_below_modulus n Hn Hfit) as Hlt.
  split; [|repeat split; assumption].
  unfold mbind, M_bind, bind. rewrite udiv_run by lia.
  unfold observe. rewrite at_cell_in_extent by (rewrite ?Hr, ?Hc; lia).
  rewrite insert_or_assign_in_extent by (rewrite ?Hr, ?Hc; lia).
  unfold degree_step, cell. rewrite Hc, Hd, Z.mul_1_r, Z.add_0_r. reflexivity.
Qed.

Lemma count_row_cons n i (kv : Z * V) l :
  count_row n i (kv :: l)
  = (if decide (kv.1 `div` n = i) then 1 else 0) + count_row n i l.
Proof.
  unfold count_row. rewrite filter_cons. unfold in_row at 1.
  destruct (decide (kv.1 `div` n = i)); simpl; lia.
Qed.

Lemma count_row_nonneg n i (l : list (Z * V)) : 0 <= count_row n i l.
Proof. unfold count_row. lia. Qed.

Lemma foldl_degree_step n (l : list (Z * V)) dv i :
  _matrix (foldl (degree_step n) dv l) !! i =
  if decide (count_row n i l = 0) then _matrix dv !! i
  else Some (to_int (default 0 (_matrix dv !! i) + count_row n i l)).
Proof.
  revert dv. induction l as [|kv l IH]; intros dv.
  - simpl. reflexivity.
  - simpl foldl. rewrite IH, count_row_cons.
    pose proof (count_row_nonneg n i l) as Hnn.
    unfold degree_step. simpl _matrix.
    destruct (decide (kv.1 `div` n = i)) as [->|Hne].
    + rewrite lookup_insert_eq. simpl.
      destruct (decide (count_row n i l = 0)) as [->|Hc].
      * rewrite decide_False by lia. rewrite Z.add_0_r. reflexivity.
      * rewrite decide_False by lia. rewrite to_int_add.
        f_equal. f_equal. lia.
    + rewrite lookup_insert_ne by exact Hne. rewrite Z.add_0_l.
      destruct (decide (count_row n i l = 0)); reflexivity.
Qed.

(** The pairs visited by a loop over a well-formed matrix are cells. *)
Lemma iteration_in_extent (m : t V) :
  well_formed m = true ->
  Forall (fun kv : Z * V => 0 <= kv.1 < _rows m * _cols m)
    (iteration (_matrix m)).
Proof.
  intros Hwf. apply well_formed_spec in Hwf as (_ & _ & _ & Hkeys).
  apply Forall_forall. intros [k v] Hin.
  rewrite iteration_perm in Hin. apply elem_of_map_to_list in Hin.
  exact (Hkeys k v Hin).
Qed.

Lemma count_row_iteration (m : t V) i :
  count_row (_cols m) i (iteration (_matrix m)) = degree m i.
Proof.
  unfold count_row, degree. rewrite (iteration_perm _ (_matrix m)). reflexivity.
Qed.

End DegreeFacts.

Section LaplacianFacts.
Import SparseMatrix.
Context {V : Type} `{Iteration}.

(** A row of a well-formed matrix stores at most one entry per column. *)
Lemma degree_le_cols (m : t V) i :
  well_formed m = true -> 0 <= degree m i <= _cols m.
Proof.
  intros Hwf. apply well_formed_spec in Hwf as (Hr & Hc & Hfit & Hkeys).
  unfold degree. split; [lia|].
  set (l := filter (in_row (_cols m) i) (map_to_list (_matrix m))).
  assert (Hnodup : NoDup l.*1).
  { apply (sublist_NoDup _ (map_to_list (_matrix m)).*1);
      [apply NoDup_fst_map_to_list | apply fmap_sublist, sublist_filter]. }
  assert (Hsub : forall k, k ∈ l.*1 -> k ∈ seqZ (i * _cols m) (_cols m)).
  { intros k Hk. apply list_elem_of_fmap in Hk as ([k' v] & -> & Hkv).
    apply list_elem_of_filter in Hkv as [Hrow Hin].
    apply elem_of_map_to_list in Hin. apply Hkeys in Hin.
    unfold in_row in Hrow. simpl in *.
    destruct (div_mod_in_extent _ _ k' Hr Hc Hfit Hin) as (Hpos & _ & Hmod & _).
    pose proof (Z.div_mod k' (_cols m) ltac:(lia)) as Hdm.
    apply elem_of_seqZ. rewrite Hrow in Hdm. lia. }
  pose proof (submseteq_length _ _ (NoDup_submseteq _ _ Hnodup Hsub)) as Hlen.
  rewrite length_fmap, length_seqZ in Hlen. lia.
Qed.

Lemma getDegreeVector_run (m : t V) :
  well_formed m = true -> _rows m = _cols m ->
  exists dv, getDegreeVector m = Returned dv /\
    column_of (_cols m) dv /\
    forall i, _matrix dv !! i
              = if decide (degree m i = 0) then None else Some (degree m i).
Proof.
  intros Hwf Hsq.
  pose proof (iteration_in_extent m Hwf) as Hall.
  pose proof (fun i => degree_le_cols m i Hwf) as Hdeg.
  apply well_formed_spec in Hwf as (Hr & Hc & Hfit & Hkeys).
  rewrite Hsq in Hall, Hfit.
  destruct (for_each_pure (column_of (_cols m))
              (fun kv : Z * V => 0 <= kv.1 < _cols m * _cols m)
              (degree_step (_cols m))
              (fun '(first, _) =>
                 q ← udiv first (_cols m); d ← observe (at_cell q 0);
                 insert_or_assign q 0 (to_int (d + 1)))
              ltac:(intros [k v] s Hk Hs;
                    exact (degree_step_run (_cols m) (k, v) s Hc Hfit Hk Hs))
              (iteration (_matrix m)) (make (_cols m) 1) Hall
              ltac:(repeat split))
    as [Hrun Hshape].
  exists (foldl (degree_step (_cols m)) (make (_cols m) 1)
            (iteration (_matrix m))).
  split; [|split; [exact Hshape|]].
  - unfold getDegreeVector. rewrite Hsq, Z.eqb_refl. simpl.
    unfold filled. rewrite Hrun. reflexivity.
  - intros i. rewrite foldl_degree_step, count_row_iteration. simpl.
    rewrite lookup_empty. simpl.
    destruct (decide (degree m i = 0)); [reflexivity|].
    rewrite to_int_small; [reflexivity|].
    specialize (Hdeg i).
    assert (_cols m <= 65536) by (unfold modulus in Hfit;
      change (2 ^ 32) with 4294967296 in Hfit; nia).
    change (2 ^ 31) with 2147483648. lia.
Qed.

Lemma bind_run {S A B} (c : M S A) (k : A -> M S B) s a s' :
  c s = (Returned a, s') -> (c ≫= k) s = k a s'.
Proof. intros Hc. unfold mbind, M_bind, bind. rewrite Hc. reflexivity. Qed.

Lemma lap_mark_run n (kv : Z * V) L :
  0 <= n -> n * n <= modulus -> 0 <= kv.1 < n * n -> square_of n L ->
  (q ← udiv kv.1 n; r ← umod kv.1 n; insert_or_assign q r (-1)) L
  = (Returned tt, lap_mark L kv) /\ square_of n (lap_mark L kv).
Proof.
  intros Hn Hfit Hk (Hr & Hc & Hd).
  destruct (div_mod_in_extent n n kv.1 Hn Hn Hfit Hk) as (Hpos & Hq & Hm & _).
  split; [|repeat split; assumption].
  unfold mbind, M_bind, bind. rewrite udiv_run, umod_run by lia.
  rewrite insert_or_assign_in_extent by (rewrite ?Hr, ?Hc; lia).
  unfold lap_mark. rewrite Hc.
  replace (kv.1 `div` n * n + kv.1 `mod` n) with kv.1
    by (pose proof (Z.div_mod kv.1 n ltac:(lia)); lia).
  reflexivity.
Qed.

Lemma lap_diag_run n dv L i :
  0 <= n -> n * n <= modulus -> 0 <= i < n ->
  column_of n dv -> square_of n L ->
  (d ← observe (fun _ => at_cell i 0 dv); insert_or_assign i i d) L
  = (Returned tt, lap_diag n dv L i) /\ square_of n (lap_diag n dv L i).
Proof.
  intros Hn Hfit Hi (Hr' & Hc' & Hd') (Hr & Hc & Hd).
  pose proof (square_below_modulus n Hn Hfit) as Hlt.
  split; [|repeat split; assumption].
  unfold mbind, M_bind, bind, observe.
  rewrite at_cell_in_extent by (rewrite ?Hr', ?Hc'; lia).
  rewrite insert_or_assign_in_extent by (rewrite ?Hr, ?Hc; lia).
  unfold lap_diag. rewrite Hc. reflexivity.
Qed.

Lemma foldl_lap_mark (l : list (Z * V)) L k :
  _matrix (foldl lap_mark L l) !! k
  = if decide (k ∈ l.*1) then Some (-1) else _matrix L !! k.
Proof.
  revert L. induction l as [|[k' v] l IH]; intros L.
  - rewrite decide_False by apply not_elem_of_nil. reflexivity.
  - simpl foldl. rewrite IH, fmap_cons. unfold lap_mark. simpl _matrix.
    simpl fst.
    destruct (decide (k ∈ l.*1)) as [Hin|Hnot].
    + rewrite decide_True by (apply elem_of_cons; auto). reflexivity.
    + destruct (decide (k' = k)) as [->|Hne].
      * rewrite lookup_insert_eq, decide_True by apply list_elem_of_here.
        reflexivity.
      * rewrite lookup_insert_ne by exact Hne.
        rewrite decide_False; [reflexivity|].
        rewrite elem_of_cons. intros [?|?]; congruence.
Qed.

Lemma diagonal_index n a b i :
  0 <= a < n -> 0 <= b < n -> 0 <= i < n ->
  i * n + i = a * n + b <-> i = a /\ i = b.
Proof.
  intros Ha Hb Hi. split; [|intros [-> ->]; reflexivity].
  intros Heq.
  assert (i = a) by nia. subst i. lia.
Qed.

Lemma foldl_lap_diag n dv (l : list Z) L a b :
  0 <= a < n -> 0 <= b < n -> Forall (fun i => 0 <= i < n) l ->
  _matrix (foldl (lap_diag n dv) L l) !! (a * n + b)
  = if decide (a = b /\ a ∈ l) then Some (cell dv a 0)
    else _matrix L !! (a * n + b).
Proof.
  intros Ha Hb. revert L. induction l as [|i l IH]; intros L Hall.
  - rewrite decide_False; [reflexivity|]. intros [_ Hin]. inversion Hin.
  - inversion Hall as [|? ? Hi Hl]; subst. simpl foldl. rewrite (IH _ Hl).
    unfold lap_diag. simpl _matrix.
    destruct (decide (a = b /\ a ∈ l)) as [[Hab Hin]|Hnot].
    + rewrite decide_True by (split; [exact Hab | apply elem_of_cons; auto]).
      reflexivity.
    + destruct (decide (i * n + i = a * n + b)) as [Heq|Hne].
      * rewrite Heq, lookup_insert_eq.
        apply diagonal_index in Heq as [-> Hib]; [|assumption..].
        rewrite decide_True by (split; [exact Hib | apply list_elem_of_here]).
        reflexivity.
      * rewrite lookup_insert_ne by exact Hne.
        rewrite decide_False; [reflexivity|].
        intros [Hab Hin]. apply elem_of_cons in Hin as [->|Hin].
        -- apply Hne. subst b. reflexivity.
        -- apply Hnot. split; assumption.
Qed.

Lemma getLaplacian_cells (m : t V) :
  well_formed m = true -> _rows m = _cols m ->
  exists L, getLaplacian m = Returned L /\
    square_of (_cols m) L /\
    forall i j, 0 <= i < _cols m -> 0 <= j < _cols m ->
      at_cell i j L
      = Returned (if decide (i = j) then degree m i
                  else if stored m i j then -1 else 0).
Proof.
  intros Hwf Hsq.
  pose proof (iteration_in_extent m Hwf) as Hall.
  destruct (getDegreeVector_run m Hwf Hsq) as (dv & Hdv & Hcol & Hdeg).
  apply well_formed_spec in Hwf as (Hr & Hc & Hfit & Hkeys).
  rewrite Hsq in Hall, Hfit.
  set (n := _cols m) in *.
  destruct (for_each_pure (square_of n)
              (fun kv : Z * V => 0 <= kv.1 < n * n) lap_mark
              (fun '(first, _) =>
                 q ← udiv first (_cols m); r ← umod first (_cols m);
                 insert_or_assign q r (-1))
              ltac:(intros [k v] s Hk Hs;
                    exact (lap_mark_run n (k, v) s Hc Hfit Hk Hs))
              (iteration (_matrix m)) (make n n) Hall
              ltac:(repeat split))
    as [Hrun1 Hshape1].
  set (L1 := foldl lap_mark (make n n) (iteration (_matrix m))) in *.
  assert (Hrows : Forall (fun i => 0 <= i < n) (seqZ 0 n))
    by (apply Forall_forall; intros i Hi; apply elem_of_seqZ in Hi; lia).
  destruct (for_each_pure (square_of n) (fun i => 0 <= i < n)
              (lap_diag n dv)
              (fun i => d ← observe (fun _ => at_cell i 0 dv);
                        insert_or_assign i i d)
              ltac:(intros i s Hi Hs;
                    exact (lap_diag_run n dv s i Hc Hfit Hi Hcol Hs))
              (seqZ 0 n) L1 Hrows Hshape1)
    as [Hrun2 Hshape2].
  exists (foldl (lap_diag n dv) L1 (seqZ 0 n)).
  split; [|split; [exact Hshape2|]].
  - unfold getLaplacian. rewrite Hsq, Z.eqb_refl. simpl. fold n.
    unfold filled.
    rewrite (bind_run _ _ _ _ _ Hrun1).
    rewrite (bind_run _ _ L1 dv L1)
      by (unfold observe; rewrite Hdv; reflexivity).
    rewrite Hrun2. reflexivity.
  - intros i j Hi Hj. destruct Hshape2 as (Hr2 & Hc2 & Hd2).
    rewrite at_cell_in_extent by (rewrite ?Hr2, ?Hc2; lia).
    unfold cell. rewrite Hc2, Hd2, (foldl_lap_diag n dv _ L1 i j Hi Hj Hrows).
    destruct (decide (i = j)) as [<-|Hne].
    + rewrite decide_True by (split; [reflexivity | apply elem_of_seqZ; lia]).
      simpl. unfold cell. destruct Hcol as (_ & -> & ->).
      rewrite Z.mul_1_r, Z.add_0_r, Hdeg.
      destruct (decide (degree m i = 0)) as [->|]; reflexivity.
    + rewrite decide_False by (intros [? _]; contradiction).
      unfold L1. rewrite foldl_lap_mark. simpl. rewrite lookup_empty.
      unfold stored. fold n.
      destruct (decide (i * n + j ∈ (iteration (_matrix m)).*1)) as [Hin|Hnot].
      * rewrite bool_decide_eq_true_2; [reflexivity|].
        apply list_elem_of_fmap in Hin as ([k v] & Hk & Hin). simpl in Hk.
        rewrite iteration_perm in Hin. apply elem_of_map_to_list in Hin.
        rewrite Hk, Hin. eauto.
      * rewrite bool_decide_eq_false_2; [reflexivity|].
        intros [v Hv]. apply Hnot. apply list_elem_of_fmap.
        exists (i * n + j, v). split; [reflexivity|].
        rewrite iteration_perm. apply elem_of_map_to_list. exact Hv.
Qed.

End LaplacianFacts.

(** C6, as the code has it.  On a well-formed square matrix, in whatever
    order the table is visited, [getDegreeVector] returns the number of
    stored entries of each row, and [getLaplacian] returns a matrix whose
    diagonal cell [(i, i)] is that number (a stored [A(i, i)] is not
    subtracted) and whose cell [(i, j)], [i <> j], is -1 where [A] stores an
    entry, whatever its value, and 0 elsewhere.  With unstored cells
    reading 0, this is [Diag(degree) - A] exactly when every diagonal cell
    of [A] reads 0 (it is not stored, or stores 0) and every stored
    off-diagonal value is 1. *)
Theorem laplacian_counts_stored_entries
    {V : Type} `{Iteration} (m : SparseMatrix.t V) :
  SparseMatrix.well_formed m = true ->
  SparseMatrix._rows m = SparseMatrix._cols m ->
  let n := SparseMatrix._rows m in
  exists dv L,
    SparseMatrix.getDegreeVector m = Returned dv /\
    SparseMatrix.getLaplacian m = Returned L /\
    (forall i, 0 <= i < n ->
       SparseMatrix.at_cell i 0 dv = Returned (SparseMatrix.degree m i)) /\
    (forall i, 0 <= i < n ->
       SparseMatrix.at_cell i i L = Returned (SparseMatrix.degree m i)) /\
    (forall i j, 0 <= i < n -> 0 <= j < n -> i <> j ->
       SparseMatrix.at_cell i j L
       = Returned (if SparseMatrix.stored m i j then -1 else 0)) /\
    (forall num : V -> Z,
       num (SparseMatrix._defaultReturn m) = 0 ->
       ((forall i j, 0 <= i < n -> 0 <= j < n ->
           SparseMatrix.at_cell i j L
           = Returned ((if decide (i = j) then SparseMatrix.degree m i else 0)
                       - num (SparseMatrix.cell m i j)))
        <->
        (forall i, 0 <= i < n -> num (SparseMatrix.cell m i i) = 0) /\
        (forall i j v, 0 <= i < n -> 0 <= j < n -> i <> j ->
           SparseMatrix._matrix m !! (i * n + j) = Some v -> num v = 1))).
Proof.
  intros Hwf Hsq n.
  destruct (getDegreeVector_run m Hwf Hsq) as (dv & Hdv & Hcol & Hdeg).
  destruct (getLaplacian_cells m Hwf Hsq) as (L & HL & Hshape & Hcells).
  pose proof (well_formed_spec m Hwf) as (Hr & Hc & Hfit & Hkeys).
  assert (Hlt : n < modulus)
    by (apply square_below_modulus; [exact Hr | unfold n; rewrite Hsq at 2; exact Hfit]).
  unfold n in *. rewrite Hsq in *.
  exists dv, L. split; [exact Hdv|]. split; [exact HL|].
  split; [|split; [|split]].
  - intros i Hi. destruct Hcol as (Hr' & Hc' & Hd').
    rewrite at_cell_in_extent by (rewrite ?Hr', ?Hc'; lia).
    unfold SparseMatrix.cell. rewrite Hc', Hd', Z.mul_1_r, Z.add_0_r, Hdeg.
    destruct (decide (SparseMatrix.degree m i = 0)) as [->|]; reflexivity.
  - intros i Hi. rewrite (Hcells i i Hi Hi), decide_True by reflexivity.
    reflexivity.
  - intros i j Hi Hj Hne. rewrite (Hcells i j Hi Hj), decide_False by exact Hne.
    reflexivity.
  - intros num Hzero. split.
    + intros Hdiff. split.
      * intros i Hi. specialize (Hdiff i i Hi Hi).
        rewrite (Hcells i i Hi Hi), !decide_True in Hdiff by reflexivity.
        injection Hdiff as Hdiff. lia.
      * intros i j v Hi Hj Hne Hv. specialize (Hdiff i j Hi Hj).
        rewrite (Hcells i j Hi Hj), !decide_False in Hdiff by exact Hne.
        unfold SparseMatrix.stored, SparseMatrix.cell in Hdiff.
        rewrite Hv in Hdiff.
        rewrite bool_decide_eq_true_2 in Hdiff by eauto.
        simpl in Hdiff. injection Hdiff as Hdiff. lia.
    + intros [Hdiag Hone] i j Hi Hj. rewrite (Hcells i j Hi Hj).
      destruct (Z.eq_dec i j) as [<-|Hne].
      * rewrite !decide_True by reflexivity.
        rewrite (Hdiag i Hi). f_equal. lia.
      * rewrite !decide_False by exact Hne.
        unfold SparseMatrix.stored, SparseMatrix.cell.
        destruct (SparseMatrix._matrix m !! (i * SparseMatrix._cols m + j))
          as [v|] eqn:E.
        -- rewrite bool_decide_eq_true_2 by eauto. simpl.
           rewrite (Hone i j v Hi Hj Hne E). reflexivity.
        -- rewrite bool_decide_eq_false_2 by (intros [? ?]; discriminate).
           simpl. rewrite Hzero. reflexivity.
Qed.

Lemma laplacian_counts_stored_entries_witness :
  exists dv L,
    SparseMatrix.getDegreeVector triangle = Returned dv /\
    SparseMatrix.getLaplacian triangle = Returned L /\
    SparseMatrix.at_cell 0 0 dv = Returned 2 /\
    SparseMatrix.at_cell 0 0 L = Returned 2 /\
    SparseMatrix.at_cell 0 1 L = Returned (-1) /\
    SparseMatrix.at_cell 1 0 L = Returned 0.
Proof.
  destruct (laplacian_counts_stored_entries triangle eq_refl eq_refl)
    as (dv & L & Hdv & HL & Hd & Hdiag & Hoff & _).
  exists dv, L. split; [exact Hdv|]. split; [exact HL|].
  split; [apply (Hd 0); simpl; lia|].
  split; [apply (Hdiag 0); simpl; lia|].
  split; [apply (Hoff 0 1); simpl; lia | apply (Hoff 1 0); simpl; lia].
Defined.

(** C6 as stated fails.  On the 1 x 1 matrix that stores a 1 in cell (0, 0),
    row 0 has one entry and [A(0, 0) = 1], so the claimed diagonal value is
    1 - 1 = 0, but [getLaplacian] returns 1 there.  On the 2 x 2 matrix that
    stores 5 in cell (0, 1) the claimed off-diagonal value is -5, but
    [getLaplacian] returns -1. *)
Lemma laplacian_ignores_stored_values :
  SparseMatrix.well_formed loop11 = true /\
  SparseMatrix.at_cell 0 0 loop11 = Returned 1 /\
  SparseMatrix.degree loop11 0 = 1 /\
  read (SparseMatrix.getLaplacian loop11) 0 0 = Returned 1 /\
  read (SparseMatrix.getLaplacian loop11) 0 0 <> Returned (1 - 1) /\
  SparseMatrix.well_formed weighted22 = true /\
  SparseMatrix.at_cell 0 1 weighted22 = Returned 5 /\
  read (SparseMatrix.getLaplacian weighted22) 0 1 = Returned (-1) /\
  read (SparseMatrix.getLaplacian weighted22) 0 1 <> Returned (- 5).
Proof.
  repeat split; try reflexivity; vm_compute; discriminate.
Qed.

(** ** SparseMatrix: rows and their normalisation *)

Section RowFacts.
Import SparseMatrix.
Context {V : Type} `{Zero V} `{Iteration}.

Lemma iteration_empty : iteration (∅ : gmap Z V) = [].
Proof.
  apply Permutation_nil_r. rewrite iteration_perm, map_to_list_empty.
  reflexivity.
Qed.

Lemma list_to_map_iteration (mp : gmap Z V) : list_to_map (iteration mp) = mp.
Proof.
  rewrite <- (list_to_map_to_list mp) at 2.
  apply list_to_map_proper; [|apply iteration_perm].
  rewrite iteration_perm. apply NoDup_fst_map_to_list.
Qed.

Lemma reshape_fresh rows cols c0 :
  reshape rows cols (make 1 c0) = (Returned tt, make rows cols).
Proof.
  unfold reshape. unfold mbind, M_bind, bind, get, modify. simpl.
  rewrite iteration_empty. reflexivity.
Qed.

Lemma row_take_run (m : t V) i row (kv : Z * V) :
  0 <= _rows m -> 0 <= _cols m -> _rows m * _cols m <= modulus ->
  0 <= kv.1 < _rows m * _cols m -> same_extent m row ->
  (q ← udiv kv.1 (_cols m);
   if q =? i then if true then insert_index kv.1 kv.2
                  else r ← umod kv.1 (_cols m); insert_index r kv.2
   else mret tt) row
  = (Returned tt, row_take (_cols m) i row kv) /\
  same_extent m (row_take (_cols m) i row kv).
Proof.
  intros Hr Hc Hfit Hk [Hr' Hc'].
  destruct (div_mod_in_extent _ _ kv.1 Hr Hc Hfit Hk) as (Hpos & _).
  unfold row_take.
  split; [|destruct (decide _); split; assumption].
  unfold mbind, M_bind, bind. rewrite udiv_run by lia.
  destruct (Z.eqb_spec (kv.1 `div` _cols m) i) as [Heq|Hne].
  - rewrite decide_True by exact Heq. rewrite insert_index_run.
    rewrite in_extent_last_index by (rewrite ?Hr', ?Hc'; assumption).
    reflexivity.
  - rewrite decide_False by exact Hne. reflexivity.
Qed.

Lemma foldl_row_take c i (l : list (Z * V)) row k :
  _matrix (foldl (row_take c i) row l) !! k =
  match _matrix row !! k with
  | Some x => Some x
  | None => if decide (k `div` c = i)
            then (list_to_map l : gmap Z V) !! k else None
  end.
Proof.
  revert row. induction l as [|[k1 v1] l IH]; intros row.
  - simpl. rewrite lookup_empty.
    destruct (_matrix row !! k); [reflexivity|].
    destruct (decide (k `div` c = i)); reflexivity.
  - simpl foldl. rewrite IH. unfold row_take. simpl fst. simpl snd.
    rewrite list_to_map_cons.
    destruct (decide (k1 `div` c = i)) as [H1|H1].
    + simpl _matrix. rewrite lookup_emplace.
      destruct (_matrix row !! k); [reflexivity|].
      destruct (decide (k1 = k)) as [->|Hne].
      * rewrite decide_True by exact H1. rewrite lookup_insert_eq. reflexivity.
      * rewrite lookup_insert_ne by exact Hne. reflexivity.
    + destruct (_matrix row !! k); [reflexivity|].
      destruct (decide (k `div` c = i)) as [H2|H2]; [|reflexivity].
      rewrite lookup_insert_ne by congruence. reflexivity.
Qed.

Lemma lookup_row_entries (m : t V) i k :
  row_entries m i !! k
  = if decide (k `div` _cols m = i) then _matrix m !! k else None.
Proof.
  unfold row_entries. rewrite map_lookup_filter.
  destruct (_matrix m !! k) as [v|]; simpl.
  - unfold in_row. simpl.
    destruct (decide (k `div` _cols m = i)).
    + rewrite option_guard_True by assumption. reflexivity.
    + rewrite option_guard_False by assumption. reflexivity.
  - destruct (decide (k `div` _cols m = i)); reflexivity.
Qed.

Lemma getRow_true_run (m : t V) i :
  well_formed m = true -> 0 <= i < _rows m ->
  exists row, getRow i true m = Returned row /\
    _matrix row = row_entries m i /\ same_extent m row.
Proof.
  intros Hwf Hi.
  pose proof (iteration_in_extent m Hwf) as Hall.
  apply well_formed_spec in Hwf as (Hr & Hc & Hfit & Hkeys).
  destruct (for_each_pure (same_extent m)
              (fun kv : Z * V => 0 <= kv.1 < _rows m * _cols m)
              (row_take (_cols m) i)
              (fun '(first, second) =>
                 q ← udiv first (_cols m);
                 if q =? i then if true then insert_index first second
                                else r ← umod first (_cols m);
                                     insert_index r second
                 else mret tt)
              ltac:(intros [k v] s Hk Hs;
                    exact (row_take_run m i s (k, v) Hr Hc Hfit Hk Hs))
              (iteration (_matrix m)) (make (_rows m) (_cols m)) Hall
              ltac:(split; reflexivity))
    as [Hrun Hshape].
  exists (foldl (row_take (_cols m) i) (make (_rows m) (_cols m))
            (iteration (_matrix m))).
  split; [|split; [|exact Hshape]].
  - unfold getRow. rewrite Z.geb_leb.
    destruct (Z.leb_spec (_rows m) i); [lia|].
    unfold filled.
    rewrite (bind_run _ _ _ _ _ (reshape_fresh (_rows m) (_cols m) (_cols m))).
    rewrite Hrun. reflexivity.
  - apply map_eq. intros k.
    rewrite foldl_row_take, lookup_row_entries, list_to_map_iteration.
    simpl. rewrite lookup_empty. reflexivity.
Qed.

End RowFacts.

Section NormFacts.
Import SparseMatrix.
Context {R : Type} `{Zero R} `{Real R} `{Iteration}.

Lemma scale_into_run (m : t R) d N (kv : Z * R) :
  _rows m * _cols m <= modulus -> 0 <= kv.1 < _rows m * _cols m ->
  same_extent m N ->
  insert_index kv.1 (rdiv kv.2 d) N = (Returned tt, scale_into d N kv) /\
  same_extent m (scale_into d N kv).
Proof.
  intros Hfit Hk [Hr' Hc']. split; [|split; assumption].
  rewrite insert_index_run.
  rewrite in_extent_last_index by (rewrite ?Hr', ?Hc'; assumption).
  reflexivity.
Qed.

Lemma foldl_scale_into d (l : list (Z * R)) N k :
  _matrix (foldl (scale_into d) N l) !! k =
  match _matrix N !! k with
  | Some x => Some x
  | None => (fun v => rdiv v d) <$> (list_to_map l : gmap Z R) !! k
  end.
Proof.
  revert N. induction l as [|[k1 v1] l IH]; intros N.
  - simpl. rewrite lookup_empty. destruct (_matrix N !! k); reflexivity.
  - simpl foldl. rewrite IH. unfold scale_into. simpl _matrix. simpl fst.
    simpl snd. rewrite list_to_map_cons, lookup_emplace.
    destruct (_matrix N !! k); [reflexivity|].
    destruct (decide (k1 = k)) as [->|Hne].
    + rewrite lookup_insert_eq. reflexivity.
    + rewrite lookup_insert_ne by exact Hne. reflexivity.
Qed.

Lemma lookup_norm_row (m N : t R) i k :
  _matrix (norm_row m N i) !! k =
  match _matrix N !! k with
  | Some x => Some x
  | None => if decide (k `div` _cols m = i)
            then (fun v => rdiv v (row_divisor m i)) <$> _matrix m !! k
            else None
  end.
Proof.
  unfold norm_row.
  rewrite foldl_scale_into, list_to_map_iteration, lookup_row_entries.
  destruct (_matrix N !! k); [reflexivity|].
  destruct (decide (k `div` _cols m = i)); reflexivity.
Qed.

Lemma norm_row_run (m N : t R) i :
  well_formed m = true -> 0 <= i < _rows m -> same_extent m N ->
  (row ← observe (fun _ => getRow i true m);
   let sum := divisor (abs_sum (iteration (_matrix row))) in
   for_each (iteration (_matrix row)) (fun '(first, second) =>
     insert_index first (rdiv second sum))) N
  = (Returned tt, norm_row m N i) /\ same_extent m (norm_row m N i).
Proof.
  intros Hwf Hi HN.
  destruct (getRow_true_run m i Hwf Hi) as (row & Hrow & Hmat & _).
  apply well_formed_spec in Hwf as (Hr & Hc & Hfit & Hkeys).
  assert (Hall : Forall (fun kv : Z * R => 0 <= kv.1 < _rows m * _cols m)
                   (iteration (row_entries m i))).
  { apply Forall_forall. intros [k v] Hin.
    rewrite iteration_perm in Hin. apply elem_of_map_to_list in Hin.
    apply map_lookup_filter_Some in Hin as [Hin _]. exact (Hkeys k v Hin). }
  destruct (for_each_pure (same_extent m)
              (fun kv : Z * R => 0 <= kv.1 < _rows m * _cols m)
              (scale_into (row_divisor m i))
              (fun '(first, second) =>
                 insert_index first (rdiv second (row_divisor m i)))
              ltac:(intros [k v] s Hk Hs;
                    exact (scale_into_run m _ s (k, v) Hfit Hk Hs))
              (iteration (row_entries m i)) N Hall HN)
    as [Hrun Hshape].
  split; [|exact Hshape].
  rewrite (bind_run _ _ N row N) by (unfold observe; rewrite Hrow; reflexivity).
  cbv zeta. rewrite Hmat. exact Hrun.
Qed.

Lemma foldl_norm_row (m : t R) (l : list Z) N k :
  _matrix (foldl (norm_row m) N l) !! k =
  match _matrix N !! k with
  | Some x => Some x
  | None => if decide (k `div` _cols m ∈ l)
            then (fun v => rdiv v (row_divisor m (k `div` _cols m)))
                   <$> _matrix m !! k
            else None
  end.
Proof.
  revert N. induction l as [|i l IH]; intros N.
  - simpl foldl. destruct (_matrix N !! k); [reflexivity|].
    rewrite decide_False by apply not_elem_of_nil. reflexivity.
  - simpl foldl. rewrite IH, lookup_norm_row.
    destruct (_matrix N !! k); [reflexivity|].
    destruct (decide (k `div` _cols m = i)) as [Heq|Hne].
    + rewrite (decide_True (P := k `div` _cols m ∈ i :: l))
        by (rewrite Heq; apply list_elem_of_here).
      rewrite Heq. destruct (_matrix m !! k); simpl; [reflexivity|].
      destruct (decide (i ∈ l)); reflexivity.
    + destruct (decide (k `div` _cols m ∈ l)) as [Hin|Hnot].
      * rewrite decide_True by (apply elem_of_cons; auto). reflexivity.
      * rewrite decide_False; [reflexivity|].
        rewrite elem_of_cons. intros [?|?]; contradiction.
Qed.

(** Every stored entry is divided by the divisor of its row. *)
Lemma getNormRows_cells (m : t R) :
  well_formed m = true ->
  exists N, getNormRows m = Returned N /\ same_extent m N /\
    forall k, _matrix N !! k
              = (fun v => rdiv v (row_divisor m (k `div` _cols m)))
                  <$> _matrix m !! k.
Proof.
  intros Hwf.
  assert (Hrows : Forall (fun i => 0 <= i < _rows m) (seqZ 0 (_rows m)))
    by (apply Forall_forall; intros i Hi; apply elem_of_seqZ in Hi; lia).
  destruct (for_each_pure (same_extent m) (fun i => 0 <= i < _rows m)
              (norm_row m)
              (fun index =>
                 row ← observe (fun _ => getRow index true m);
                 let sum := divisor (abs_sum (iteration (_matrix row))) in
                 for_each (iteration (_matrix row)) (fun '(first, second) =>
                   insert_index first (rdiv second sum)))
              ltac:(intros i s Hi Hs; exact (norm_row_run m s i Hwf Hi Hs))
              (seqZ 0 (_rows m)) (make (_rows m) (_cols m)) Hrows
              ltac:(split; reflexivity))
    as [Hrun Hshape].
  exists (foldl (norm_row m) (make (_rows m) (_cols m)) (seqZ 0 (_rows m))).
  split; [|split; [exact Hshape|]].
  - unfold getNormRows, filled. cbv zeta in Hrun |- *. rewrite Hrun.
    reflexivity.
  - intros k. rewrite foldl_norm_row. simpl. rewrite lookup_empty.
    destruct (_matrix m !! k) as [v|] eqn:E.
    + apply well_formed_spec in Hwf as (Hr & Hc & Hfit & Hkeys).
      destruct (div_mod_in_extent _ _ k Hr Hc Hfit (Hkeys k v E))
        as (_ & Hq & _).
      rewrite decide_True by (apply elem_of_seqZ; lia). reflexivity.
    + destruct (decide _); reflexivity.
Qed.

End NormFacts.

Section EmptyRowFacts.
Import SparseMatrix.
Context {R : Type} `{Zero R} `{Real R} `{Iteration}.

(** A row without stored entries has none in the normalised matrix. *)
Lemma normalised_empty_row (m N : t R) i :
  _cols N = _cols m ->
  (forall k, _matrix N !! k
             = (fun v => rdiv v (row_divisor m (k `div` _cols m)))
                 <$> _matrix m !! k) ->
  row_entries m i = ∅ -> row_entries N i = ∅ /\ row_l1 N i = zero.
Proof.
  intros Hc Hcells Hempty.
  assert (HN : row_entries N i = ∅).
  { apply map_empty. intros k. apply eq_None_not_Some. intros [v Hv].
    unfold row_entries in Hv.
    apply map_lookup_filter_Some in Hv as [Hv Hrow].
    rewrite Hcells in Hv.
    destruct (_matrix m !! k) as [w|] eqn:E; [|discriminate].
    assert (Hw : row_entries m i !! k = Some w).
    { apply map_lookup_filter_Some. split; [exact E|].
      unfold in_row in *. simpl in *. rewrite <- Hc. exact Hrow. }
    rewrite Hempty, lookup_empty in Hw. discriminate. }
  split; [exact HN|].
  unfold row_l1. rewrite HN, iteration_empty. reflexivity.
Qed.

End EmptyRowFacts.

(** C7, as the code has it.  On a well-formed matrix, for any arithmetic of
    the value type (IEEE doubles included) and any order of visit,
    [getNormRows] returns a matrix of the same extents that stores, under
    every stored key and no other, the entry divided by the divisor of its
    row: the sum of the absolute values of the stored entries of the row,
    added from zero in the order of the visit, or 1 when that sum is below
    epsilon.  A row without stored entries has none in the result, and its
    sum there is zero.  Nothing is said of the sum of a row that has
    entries. *)
Theorem getNormRows_divides_by_row_sum
    {R : Type} `{Zero R} `{Real R} `{Iteration} (m : SparseMatrix.t R) :
  SparseMatrix.well_formed m = true ->
  (forall i, row_divisor m i
             = if rltb (row_l1 m i) repsilon then rone else row_l1 m i) /\
  exists N, SparseMatrix.getNormRows m = Returned N /\
    SparseMatrix._rows N = SparseMatrix._rows m /\
    SparseMatrix._cols N = SparseMatrix._cols m /\
    (forall k, SparseMatrix._matrix N !! k
               = (fun v => rdiv v
                    (row_divisor m (k `div` SparseMatrix._cols m)))
                   <$> SparseMatrix._matrix m !! k) /\
    (forall i, SparseMatrix.row_entries m i = ∅ ->
       SparseMatrix.row_entries N i = ∅ /\ row_l1 N i = zero).
Proof.
  intros Hwf. split; [intros i; reflexivity|].
  destruct (getNormRows_cells m Hwf) as (N & HN & [Hr Hc] & Hcells).
  exists N. split; [exact HN|]. split; [exact Hr|]. split; [exact Hc|].
  split; [exact Hcells|].
  intros i. apply normalised_empty_row; assumption.
Qed.

Lemma getNormRows_divides_by_row_sum_witness :
  exists N, SparseMatrix.getNormRows quarters = Returned N /\
    SparseMatrix._matrix N !! 0 = Some 0.25%float /\
    SparseMatrix._matrix N !! 1 = Some (-0.75)%float /\
    row_l1 N 1 = 0%float.
Proof.
  destruct (getNormRows_divides_by_row_sum quarters eq_refl)
    as (_ & N & HN & _ & _ & Hcells & Hempty).
  exists N. split; [exact HN|].
  split; [rewrite Hcells; vm_compute; reflexivity|].
  split; [rewrite Hcells; vm_compute; reflexivity|].
  apply (Hempty 1). vm_compute. reflexivity.
Defined.

(** C7 as stated fails, in the arithmetic of the code.  A row can have
    entries and an L1 sum below epsilon: on the 1 x 1 matrix of doubles
    that stores 0.0, row 0 of the result of [getNormRows] holds one entry
    and its sum is 0.0, not 1; on the one that stores 2^-60 the sum is
    2^-60.  A row can also have a sum that is not below epsilon and still
    not be brought to 1: on the row (2^1023, 2^1023) the sum overflows to
    infinity, both entries are divided by it, and the row of the result
    holds two zeros. *)
Lemma normalised_row_does_not_sum_to_one :
  SparseMatrix.well_formed zero_row = true /\
  (exists N, SparseMatrix.getNormRows zero_row = Returned N /\
     SparseMatrix.row_entries N 0 !! 0 = Some 0%float /\
     row_l1 N 0 = 0%float /\
     PrimFloat.eqb (row_l1 N 0) 1 = false) /\
  SparseMatrix.well_formed tiny_row = true /\
  (exists N, SparseMatrix.getNormRows tiny_row = Returned N /\
     SparseMatrix.row_entries N 0 !! 0 = Some 0x1p-60%float /\
     row_l1 N 0 = 0x1p-60%float /\
     PrimFloat.eqb (row_l1 N 0) 1 = false) /\
  SparseMatrix.well_formed huge_row = true /\
  row_l1 huge_row 0 = PrimFloat.infinity /\
  rltb (row_l1 huge_row 0) repsilon = false /\
  (exists N, SparseMatrix.getNormRows huge_row = Returned N /\
     SparseMatrix.row_entries N 0 !! 0 = Some 0%float /\
     SparseMatrix.row_entries N 0 !! 1 = Some 0%float /\
     row_l1 N 0 = 0%float /\
     PrimFloat.eqb (row_l1 N 0) 1 = false).
Proof.
  split; [reflexivity|]. split.
  { eexists. split; [vm_compute; reflexivity|]. repeat split; reflexivity. }
  split; [reflexivity|]. split.
  { eexists. split; [vm_compute; reflexivity|]. repeat split; reflexivity. }
  split; [reflexivity|]. split; [vm_compute; reflexivity|].
  split; [vm_compute; reflexivity|].
  eexists. split; [vm_compute; reflexivity|].
  repeat split; vm_compute; reflexivity.
Qed.


(** * Further properties *)

(** ** Node: the agent multimap *)

Section MultimapFacts.
Import Node.

Lemma multimap_emplace_perm k v l : multimap_emplace k v l ≡ₚ (k, v) :: l.
Proof.
  induction l as [|[k' v'] l IH]; simpl; [reflexivity|].
  destruct (k' <=? k); [|reflexivity].
  rewrite IH. apply Permutation_swap.
Qed.

Lemma erase_first_emplace k a l :
  a ∉ l.*2 -> erase_first a (multimap_emplace k a l) = Some l.
Proof.
  induction l as [|[k' v'] l IH]; simpl; intros Hnot.
  - rewrite Z.eqb_refl. reflexivity.
  - apply not_elem_of_cons in Hnot as [Hne Hnot].
    destruct (k' <=? k); simpl.
    + destruct (Z.eqb_spec v' a) as [->|_]; [contradiction|].
      rewrite (IH Hnot). reflexivity.
    + rewrite Z.eqb_refl. reflexivity.
Qed.

Lemma erase_first_None a l : erase_first a l = None <-> a ∉ l.*2.
Proof.
  induction l as [|[k' v'] l IH]; simpl.
  - split; [intros _; apply not_elem_of_nil | reflexivity].
  - rewrite not_elem_of_cons. destruct (Z.eqb_spec v' a) as [->|Hne].
    + split; [discriminate | intros [? _]; contradiction].
    + destruct (erase_first a l) as [l'|]; simpl.
      * split; [discriminate|]. intros [_ Hnot]. apply IH in Hnot. discriminate.
      * split; [|reflexivity]. intros _. split; [congruence | apply IH; reflexivity].
Qed.

Lemma erase_first_Some a l l' :
  erase_first a l = Some l' ->
  exists l1 k l2, l = l1 ++ (k, a) :: l2 /\ l' = l1 ++ l2 /\ a ∉ l1.*2.
Proof.
  revert l'. induction l as [|[k' v'] l IH]; simpl; intros l' H; [discriminate|].
  destruct (Z.eqb_spec v' a) as [->|Hne].
  - injection H as <-. exists [], k', l. repeat split. apply not_elem_of_nil.
  - destruct (erase_first a l) as [l0|]; simpl in H; [|discriminate].
    injection H as <-.
    destruct (IH l0 eq_refl) as (l1 & k & l2 & -> & -> & Hnot).
    exists ((k', v') :: l1), k, l2. repeat split.
    rewrite fmap_cons. apply not_elem_of_cons.
    split; [simpl; congruence | exact Hnot].
Qed.

Lemma to_int16_range z : - 2 ^ 15 <= to_int16 z < 2 ^ 15.
Proof.
  unfold to_int16. pose proof (Z.mod_pos_bound (z + 2 ^ 15) (2 ^ 16) eq_refl).
  change (2 ^ 16) with (2 * 2 ^ 15) in *. lia.
Qed.

Lemma Forall_multimap_emplace (P : Z * Z -> Prop) k v l :
  Forall P (multimap_emplace k v l) <-> P (k, v) /\ Forall P l.
Proof. rewrite multimap_emplace_perm. apply Forall_cons. Qed.

Lemma multimap_emplace_ok k v l :
  - 2 ^ 15 <= k < 2 ^ 15 -> multimap_ok l -> multimap_ok (multimap_emplace k v l).
Proof.
  intros Hk [Hsorted Hrange]. split; [|apply Forall_multimap_emplace; auto].
  clear Hrange. induction l as [|[k' v'] l IH]; simpl.
  - repeat constructor.
  - apply StronglySorted_inv in Hsorted as [Hl Hhd].
    destruct (Z.leb_spec k' k) as [Hle|Hgt].
    + constructor; [apply IH, Hl|].
      apply Forall_multimap_emplace. split; [exact Hle | exact Hhd].
    + constructor; [constructor; assumption|].
      constructor; [unfold key_le; simpl; lia|].
      eapply Forall_impl; [exact Hhd|]. unfold key_le. simpl. intros; lia.
Qed.

Lemma multimap_emplace_back k v l :
  Forall (fun x : Z * Z => x.1 <= k) l -> multimap_emplace k v l = l ++ [(k, v)].
Proof.
  induction 1 as [|[k' v'] l Hle _ IH]; simpl; [reflexivity|].
  simpl in Hle. destruct (Z.leb_spec k' k); [|lia]. rewrite IH. reflexivity.
Qed.

Lemma multimap_emplace_front k v x l :
  k < x.1 -> multimap_emplace k v (x :: l) = (k, v) :: x :: l.
Proof.
  intros Hlt. destruct x as [k' v']. simpl in *.
  destruct (Z.leb_spec k' k); [lia | reflexivity].
Qed.

Lemma removeAgent_run a n :
  removeAgent a n =
  match erase_first a (m_agents n) with
  | Some l => (Returned tt, with_agents l n)
  | None => (Thrown (runtime_error "Agent is not on the node"), n)
  end.
Proof.
  unfold removeAgent. unfold_monad. destruct (erase_first a (m_agents n)); reflexivity.
Qed.

Lemma refused_false a n :
  size n <> m_capacity n -> a ∉ agent_ids n -> refused a n = false.
Proof.
  intros Hsz Hnot. apply not_true_is_false. rewrite refused_iff. tauto.
Qed.

End MultimapFacts.

(** X1.  An agent that [addAgent] (either overload) admits and that
    [removeAgent] then takes away leaves the node as it was, but for the
    agent counter, which has advanced by one. *)
Theorem addAgent_then_removeAgent (n : Node.t) (k a : Z) :
  Node.size n <> Node.m_capacity n -> a ∉ Node.agent_ids n ->
  (Node.addAgent a;; Node.removeAgent a) n
  = (Returned tt,
     Node.with_agentCounter (wrap (Node.m_agentCounter n + 1)) n) /\
  (Node.addAgent_angle k a;; Node.removeAgent a) n
  = (Returned tt,
     Node.with_agentCounter (wrap (Node.m_agentCounter n + 1)) n).
Proof.
  intros Hsz Hnot. pose proof (refused_false a n Hsz Hnot) as Href.
  unfold mbind, M_bind, bind.
  rewrite addAgent_run, addAgent_angle_run, Href, !removeAgent_run. simpl.
  rewrite !erase_first_emplace by exact Hnot.
  destruct n; split; reflexivity.
Qed.

Lemma addAgent_then_removeAgent_witness :
  (Node.addAgent 3;; Node.removeAgent 3) (Node.make 0 5)
  = (Returned tt, Node.with_agentCounter 6 (Node.make 0 5)).
Proof.
  apply (addAgent_then_removeAgent (Node.make 0 5) 0 3);
    [vm_compute; discriminate | apply not_elem_of_nil].
Defined.

(** X2.  Every member function of [Node], whether it returns or throws,
    keeps the agents on the node distinct and the multimap in key order with
    keys in the range of [int16_t]. *)
Theorem node_agents_stay_distinct_and_ordered (n : Node.t) (o : Node.op) :
  agents_ok n -> agents_ok (Node.after o n).
Proof.
  intros [Hnd Hok].
  assert (Hadd : forall k a, refused a n = false ->
            agents_ok (Node.with_agentCounter (wrap (Node.m_agentCounter n + 1))
              (Node.with_agents
                 (Node.multimap_emplace (to_int16 k) a (Node.m_agents n)) n))).
  { intros k a Href. split; simpl.
    - unfold Node.agent_ids. simpl. rewrite multimap_emplace_perm, fmap_cons.
      simpl. apply NoDup_cons. split; [|exact Hnd].
      intros Hin.
      assert (refused a n = true) by (apply refused_iff; right; exact Hin).
      congruence.
    - apply multimap_emplace_ok; [apply to_int16_range | exact Hok]. }
  destruct o as [id|c|c|k a|a|a|s|s|]; simpl; try (split; assumption).
  - rewrite setCapacity_run. destruct (_ <? _); split; assumption.
  - rewrite addAgent_angle_run. destruct (refused a n) eqn:E;
      [split; assumption | apply Hadd, E].
  - rewrite addAgent_run. destruct (refused a n) eqn:E;
      [split; assumption | apply Hadd, E].
  - rewrite removeAgent_run.
    destruct (Node.erase_first a (Node.m_agents n)) as [l'|] eqn:E;
      [|split; assumption].
    apply erase_first_Some in E as (l1 & k & l2 & Hl & -> & _).
    unfold agents_ok, Node.agent_ids in *. simpl. rewrite Hl in Hnd, Hok.
    assert (Hsub : l1 ++ l2 `sublist_of` l1 ++ (k, a) :: l2)
      by (apply sublist_app; [reflexivity | apply sublist_cons; reflexivity]).
    destruct Hok as [Hs Hr]. split; [|split].
    + eapply sublist_NoDup; [exact Hnd | apply fmap_sublist, Hsub].
    + revert Hs. clear. induction l1 as [|x l1 IH]; simpl; intros Hs.
      * apply StronglySorted_inv in Hs as [Hs _]. exact Hs.
      * apply StronglySorted_inv in Hs as [Hs Hhd]. constructor; [apply IH, Hs|].
        rewrite Forall_app in Hhd |- *. destruct Hhd as [H1 H2].
        apply Forall_cons in H2 as [_ H2]. split; assumption.
    + rewrite Forall_app in Hr |- *. destruct Hr as [H1 H2].
      apply Forall_cons in H2 as [_ H2]. split; assumption.
Qed.

Lemma node_agents_stay_distinct_and_ordered_witness :
  agents_ok (Node.after (Node.AddAgent 8) (Node.make 0 0)).
Proof.
  apply (node_agents_stay_distinct_and_ordered (Node.make 0 0) (Node.AddAgent 8)).
  split; [apply NoDup_nil_2 | split; constructor].
Defined.

(** X3.  [removeAgent] throws exactly when the agent is not on the node, and
    then leaves the node as it was; otherwise it returns, the node holds one
    agent less, every other agent stays, and, the agents being distinct, the
    removed one is gone. *)
Theorem removeAgent_takes_one_agent (n : Node.t) (a : Z) :
  (throws (Node.removeAgent a n).1 = true <-> a ∉ Node.agent_ids n) /\
  (a ∉ Node.agent_ids n -> (Node.removeAgent a n).2 = n) /\
  (a ∈ Node.agent_ids n ->
   (Node.removeAgent a n).1 = Returned tt /\
   Node.size (Node.removeAgent a n).2 = Node.size n - 1 /\
   (forall b, b <> a ->
      b ∈ Node.agent_ids (Node.removeAgent a n).2 <-> b ∈ Node.agent_ids n) /\
   (NoDup (Node.agent_ids n) -> a ∉ Node.agent_ids (Node.removeAgent a n).2)).
Proof.
  rewrite removeAgent_run. unfold Node.agent_ids, Node.size.
  destruct (Node.erase_first a (Node.m_agents n)) as [l'|] eqn:E; simpl.
  - apply erase_first_Some in E as (l1 & k & l2 & Hl & -> & Hnot1).
    rewrite Hl. rewrite !fmap_app, !fmap_cons. simpl.
    assert (Hin : a ∈ l1.*2 ++ a :: l2.*2)
      by (apply elem_of_app; right; apply list_elem_of_here).
    split; [split; [discriminate | intros H; contradiction]|].
    split; [intros H; contradiction|]. intros _.
    split; [reflexivity|]. split; [rewrite !length_app; simpl; lia|]. split.
    + intros b Hb. rewrite !elem_of_app, elem_of_cons. intuition congruence.
    + intros Hnd. apply NoDup_app in Hnd as (_ & Hdis & Hnd2).
      apply NoDup_cons in Hnd2 as [Hnot2 _].
      rewrite elem_of_app. intros [?|?]; contradiction.
  - apply erase_first_None in E.
    split; [split; [intros _; exact E | reflexivity]|].
    split; [reflexivity|]. intros H. contradiction.
Qed.

Lemma removeAgent_takes_one_agent_witness :
  (Node.removeAgent 8 full_node).2 = full_node /\
  Node.size (Node.removeAgent 7 full_node).2 = Node.size full_node - 1.
Proof.
  destruct (removeAgent_takes_one_agent full_node 8) as (_ & H8 & _).
  destruct (removeAgent_takes_one_agent full_node 7) as (_ & _ & H7).
  split.
  - apply H8. vm_compute. intros H. inversion H as [|? ? ? H']. inversion H'.
  - apply H7. apply list_elem_of_here.
Defined.

Section CounterFacts.
Import Node.

Lemma is_add_after o n :
  is_add o = true ->
  m_capacity (after o n) = m_capacity n /\
  size n <= size (after o n) /\
  m_agentCounter (after o n)
  = if size (after o n) =? size n then m_agentCounter n
    else wrap (m_agentCounter n + (size (after o n) - size n)).
Proof.
  assert (Hstep : forall k a,
            size (with_agentCounter (wrap (m_agentCounter n + 1))
                    (with_agents (multimap_emplace k a (m_agents n)) n))
            = size n + 1)
    by (intros; unfold size; simpl; rewrite length_multimap_emplace; lia).
  destruct o as [| | |k a|a| | | |]; try discriminate; intros _; simpl.
  - rewrite addAgent_angle_run. destruct (refused a n); simpl.
    + rewrite Z.eqb_refl. repeat split; lia.
    + rewrite Hstep. destruct (Z.eqb_spec (size n + 1) (size n)); [lia|].
      repeat split; try lia. f_equal. lia.
  - rewrite addAgent_run. destruct (refused a n); simpl.
    + rewrite Z.eqb_refl. repeat split; lia.
    + rewrite Hstep. destruct (Z.eqb_spec (size n + 1) (size n)); [lia|].
      repeat split; try lia. f_equal. lia.
Qed.

Lemma wrap_wrap_add a b : wrap (wrap a + b) = wrap (a + b).
Proof. unfold wrap. apply Z.add_mod_idemp_l. discriminate. Qed.

Lemma additions_counted os n :
  forallb is_add os = true -> is_uint32 (m_agentCounter n) ->
  let n' := foldl (fun n o => after o n) n os in
  m_capacity n' = m_capacity n /\ size n <= size n' /\
  m_agentCounter n' = wrap (m_agentCounter n + (size n' - size n)).
Proof.
  revert n. induction os as [|o os IH]; simpl; intros n Hadds Hc.
  - rewrite Z.sub_diag, Z.add_0_r, wrap_small by exact Hc. repeat split; lia.
  - apply andb_true_iff in Hadds as [Ho Hos].
    destruct (is_add_after o n Ho) as (Hcap & Hsz & Hcnt).
    assert (Hc' : is_uint32 (m_agentCounter (after o n))).
    { rewrite Hcnt. destruct (_ =? _); [exact Hc | apply wrap_range]. }
    destruct (IH (after o n) Hos Hc') as (Hcap' & Hsz' & Hcnt').
    split; [congruence|]. split; [lia|]. rewrite Hcnt', Hcnt.
    destruct (Z.eqb_spec (size (after o n)) (size n)) as [->|_]; [reflexivity|].
    rewrite wrap_wrap_add. f_equal. lia.
Qed.

End CounterFacts.

(** X4.  [agentCounter] returns the number of agents admitted since it was
    last read and resets the count: after a read, any sequence of [addAgent]
    calls, failed ones included, makes the next read return the growth of the
    agent collection, provided the capacity is a value of its type and the
    node started within it. *)
Theorem agentCounter_counts_admissions (n : Node.t) (os : list Node.op) :
  Node.within_capacity n -> is_uint32 (Node.m_capacity n) ->
  forallb is_add os = true ->
  let n' := foldl (fun n o => Node.after o n) (Node.agentCounter n).2 os in
  Node.agentCounter n'
  = (Returned (Node.size n' - Node.size n), Node.with_agentCounter 0 n').
Proof.
  intros Hin Hcap Hadds n'.
  assert (H0 : is_uint32 (Node.m_agentCounter (Node.agentCounter n).2))
    by (simpl; unfold is_uint32, modulus; lia).
  destruct (additions_counted os (Node.agentCounter n).2 Hadds H0)
    as (Hcap' & Hsz & Hcnt).
  fold n' in Hcap', Hsz, Hcnt. simpl in Hcap', Hsz, Hcnt.
  assert (Hin' : Node.within_capacity n')
    by (apply history_within_capacity; exact Hin).
  unfold Node.within_capacity in Hin'. rewrite Hcap' in Hin'.
  change (Node.size (Node.with_agentCounter 0 n)) with (Node.size n) in *.
  unfold Node.agentCounter. unfold_monad. simpl. rewrite Hcnt, Z.add_0_l.
  rewrite wrap_small by (unfold is_uint32, Node.size in *; lia). reflexivity.
Qed.

Lemma agentCounter_counts_admissions_witness :
  (Node.agentCounter
     (foldl (fun n o => Node.after o n) (Node.agentCounter (Node.make 0 9)).2
        [Node.AddAgent 4; Node.AddAgent 4; Node.AddAgentAngle 150 6])).1
  = Returned 1.
Proof.
  assert (H1 : Node.within_capacity (Node.make 0 9))
    by (vm_compute; discriminate).
  assert (H2 : is_uint32 (Node.m_capacity (Node.make 0 9)))
    by (split; vm_compute; (reflexivity || discriminate)).
  exact (f_equal fst (agentCounter_counts_admissions (Node.make 0 9)
    [Node.AddAgent 4; Node.AddAgent 4; Node.AddAgentAngle 150 6]
    H1 H2 eq_refl)).
Defined.

Lemma StronglySorted_snoc_le (l : list (Z * Z)) k b :
  StronglySorted key_le (l ++ [(k, b)]) ->
  Forall (fun x : Z * Z => x.1 <= k) (l ++ [(k, b)]).
Proof.
  induction l as [|x l IH]; simpl; intros Hs.
  - constructor; [simpl; lia | constructor].
  - apply StronglySorted_inv in Hs as [Hs Hhd]. constructor; [|apply IH, Hs].
    apply Forall_app in Hhd as [_ Hlast].
    apply Forall_cons in Hlast as [Hle _]. exact Hle.
Qed.

(** X5.  [addAgent(Id)], the overload without an angle, queues the agent
    behind all others under the key that follows the last one: key 0 on an
    empty node, [k + 1] after a last key [k < 32767].  When the last key is
    32767 the new key wraps to -32768 in [int16_t], and the newcomer is put
    ahead of every agent whose key is larger, at the very front when the
    first key is. *)
Theorem addAgent_without_angle_queues_last (n : Node.t) (a : Z) :
  agents_ok n -> Node.size n <> Node.m_capacity n -> a ∉ Node.agent_ids n ->
  (Node.addAgent a n).1 = Returned tt /\
  (Node.m_agents n = [] -> Node.m_agents (Node.addAgent a n).2 = [(0, a)]) /\
  (forall l k b, Node.m_agents n = l ++ [(k, b)] -> k < 2 ^ 15 - 1 ->
     Node.m_agents (Node.addAgent a n).2 = Node.m_agents n ++ [(k + 1, a)]) /\
  (forall x l k b, Node.m_agents n = x :: l ->
     last (Node.m_agents n) = Some (k, b) -> k = 2 ^ 15 - 1 -> - 2 ^ 15 < x.1 ->
     Node.m_agents (Node.addAgent a n).2 = (- 2 ^ 15, a) :: Node.m_agents n).
Proof.
  intros [_ [Hs Hr]] Hsz Hnot. rewrite addAgent_run, refused_false by assumption.
  simpl. split; [reflexivity|]. split; [|split].
  - intros ->. reflexivity.
  - intros l k b Hl Hk. rewrite Hl in *. rewrite last_snoc.
    apply Forall_app in Hr as [_ Hkr]. apply Forall_cons in Hkr as [Hkr _].
    simpl in Hkr.
    assert (Hkey : to_int16 (to_int (k + 1)) = k + 1).
    { rewrite to_int_small by (change (2 ^ 31) with 2147483648;
        change (2 ^ 15) with 32768 in *; lia).
      unfold to_int16. change (2 ^ 16) with 65536. change (2 ^ 15) with 32768 in *.
      rewrite Z.mod_small; lia. }
    rewrite Hkey. apply multimap_emplace_back.
    eapply Forall_impl; [apply StronglySorted_snoc_le, Hs|].
    simpl. intros; lia.
  - intros x l k b Hl Hlast -> Hx. rewrite Hlast, Hl.
    change (to_int16 (to_int (2 ^ 15 - 1 + 1))) with (- 2 ^ 15).
    apply multimap_emplace_front. exact Hx.
Qed.

Lemma addAgent_without_angle_queues_last_witness :
  Node.m_agents
    (Node.addAgent 9 (Node.mk 0 None 3 [(32767, 7)] ∅ 0)).2
  = [(- 32768, 9); (32767, 7)].
Proof.
  assert (Hok : agents_ok (Node.mk 0 None 3 [(32767, 7)] ∅ 0)).
  { split; [apply NoDup_singleton|].
    split; repeat constructor; vm_compute; (reflexivity || discriminate). }
  destruct (addAgent_without_angle_queues_last
              (Node.mk 0 None 3 [(32767, 7)] ∅ 0) 9 Hok)
    as (_ & _ & _ & H).
  - vm_compute. discriminate.
  - vm_compute. intros Hin. inversion Hin as [|? ? ? Hin']. inversion Hin'.
  - apply (H (32767, 7) [] 32767 7); [reflexivity | reflexivity | reflexivity|].
    vm_compute. reflexivity.
Defined.

(** ** TrafficLight: ticks and phases *)

Section TickFacts.
Import TrafficLight.

Lemma increaseCounter_run tl :
  increaseCounter tl =
  match m_delay tl with
  | None => (Thrown not_set, tl)
  | Some d =>
      let c := wrap (m_counter tl + 1) in
      (Returned tt,
       if c =? cycle d
       then if negb (m_phase tl =? 0)
            then with_phase 0 (with_counter (m_phase tl) (with_counter c tl))
            else with_counter 0 (with_counter c tl)
       else with_counter c tl)
  end.
Proof.
  unfold increaseCounter. unfold_monad. destruct (m_delay tl) as [d|]; [|reflexivity].
  simpl. unfold cycle. destruct (_ =? _); [|reflexivity].
  destruct (negb _); reflexivity.
Qed.

(** Ticks that stay below the end of the cycle only advance the counter. *)
Lemma ticks_before_wrap (n : nat) tl d :
  m_delay tl = Some d -> 0 <= m_counter tl ->
  m_counter tl + Z.of_nat n < cycle d ->
  times n increaseCounter tl
  = (Returned tt, with_counter (m_counter tl + Z.of_nat n) tl).
Proof.
  revert tl. induction n as [|n IH]; intros tl Hd Hc Hlt.
  - simpl. rewrite Z.add_0_r. destruct tl; reflexivity.
  - pose proof (wrap_range (d.1 + d.2)) as Hs. unfold cycle in *.
    simpl times. unfold mbind, M_bind, bind.
    rewrite increaseCounter_run, Hd. cbv zeta.
    rewrite (wrap_small (m_counter tl + 1)) by lia.
    unfold cycle. destruct (Z.eqb_spec (m_counter tl + 1) (wrap (d.1 + d.2))); [lia|].
    rewrite (IH (with_counter (m_counter tl + 1) tl));
      [|exact Hd | simpl; lia | simpl; lia].
    unfold with_counter. simpl. do 2 f_equal. lia.
Qed.

End TickFacts.

(** X6.  On a light whose counter is inside the cycle and that has no
    pending phase, [n] calls of [increaseCounter] return and leave the
    counter at [(counter + n) mod (green + red)]; the light shows after them
    what [isGreen] computes from that value.  In particular a full cycle of
    ticks brings the counter back. *)
Theorem ticks_advance_counter_modulo_cycle
    (tl : TrafficLight.t) (d : Z * Z) (n : nat) :
  TrafficLight.m_delay tl = Some d ->
  TrafficLight.in_cycle tl = true -> TrafficLight.m_phase tl = 0 ->
  let c' := (TrafficLight.m_counter tl + Z.of_nat n) mod TrafficLight.cycle d in
  times n TrafficLight.increaseCounter tl
  = (Returned tt, TrafficLight.with_counter c' tl) /\
  TrafficLight.isGreen (times n TrafficLight.increaseCounter tl).2
  = Returned (c' <? d.1) /\
  (Z.of_nat n = TrafficLight.cycle d ->
   (times n TrafficLight.increaseCounter tl).2 = tl).
Proof.
  intros Hd Hin Hph. cbv zeta.
  assert (Hrun : times n TrafficLight.increaseCounter tl
    = (Returned tt, TrafficLight.with_counter
         ((TrafficLight.m_counter tl + Z.of_nat n) mod TrafficLight.cycle d) tl)).
  { revert tl Hd Hin Hph. induction n as [|n IH]; intros tl Hd Hin Hph;
      unfold TrafficLight.in_cycle in Hin; rewrite Hd in Hin;
      pose proof (wrap_range (d.1 + d.2)) as Hs; unfold TrafficLight.cycle in *.
    - simpl. rewrite Z.add_0_r, Z.mod_small by lia. destruct tl; reflexivity.
    - simpl times. unfold mbind, M_bind, bind.
      rewrite increaseCounter_run, Hd, Hph. cbv zeta. simpl negb. cbv iota.
      rewrite (wrap_small (TrafficLight.m_counter tl + 1)) by lia.
      unfold TrafficLight.cycle.
      destruct (Z.eqb_spec (TrafficLight.m_counter tl + 1) (wrap (d.1 + d.2)))
        as [He|Hne].
      + rewrite (IH (TrafficLight.with_counter 0
                       (TrafficLight.with_counter
                          (TrafficLight.m_counter tl + 1) tl)));
          [|exact Hd
           |unfold TrafficLight.in_cycle; simpl; rewrite Hd;
            unfold TrafficLight.cycle; lia
           |exact Hph].
        replace (TrafficLight.m_counter tl + Z.of_nat (S n))
          with (Z.of_nat n + 1 * wrap (d.1 + d.2)) by lia.
        rewrite Z.mod_add by lia. reflexivity.
      + rewrite (IH (TrafficLight.with_counter
                       (TrafficLight.m_counter tl + 1) tl));
          [|exact Hd
           |unfold TrafficLight.in_cycle; simpl; rewrite Hd;
            unfold TrafficLight.cycle; lia
           |exact Hph].
        replace (TrafficLight.m_counter tl + Z.of_nat (S n))
          with (TrafficLight.m_counter tl + 1 + Z.of_nat n) by lia.
        reflexivity. }
  rewrite Hrun. simpl. split; [reflexivity|]. split.
  - unfold TrafficLight.isGreen. simpl. rewrite Hd. reflexivity.
  - intros Hn. rewrite Hn.
    unfold TrafficLight.in_cycle in Hin. rewrite Hd in Hin.
    replace (TrafficLight.m_counter tl + TrafficLight.cycle d)
      with (TrafficLight.m_counter tl + 1 * TrafficLight.cycle d) by lia.
    rewrite Z.mod_add, Z.mod_small by lia. destruct tl; reflexivity.
Qed.

Lemma ticks_advance_counter_modulo_cycle_witness :
  times 13 TrafficLight.increaseCounter light55
  = (Returned tt, TrafficLight.with_counter 3 light55).
Proof.
  apply (ticks_advance_counter_modulo_cycle light55 (5, 5) 13); reflexivity.
Defined.

Lemma times_snoc {S} (c : M S unit) (m : nat) (s : S) :
  times (Datatypes.S m) c s = (times m c;; c) s.
Proof.
  revert s. induction m as [|m IHm]; intros s.
  - simpl. unfold mbind, M_bind, bind, mret, M_ret, ret.
    destruct (c s) as [[[]|e] s1]; reflexivity.
  - change (times (Datatypes.S (Datatypes.S m)) c s)
      with (bind c (fun _ => times (Datatypes.S m) c) s).
    change ((times (Datatypes.S m) c;; c) s)
      with (bind (bind c (fun _ => times m c)) (fun _ => c) s).
    unfold bind. destruct (c s) as [[[]|e] s1]; [|reflexivity].
    rewrite IHm. reflexivity.
Qed.

(** X7.  A phase queued with [setPhaseAfterCycle] takes effect at the end of
    the running cycle and not before: the ticks up to the last one of the
    cycle only advance the counter, and the tick that completes the cycle
    puts the counter at the queued phase (after the one conditional
    subtraction) and clears the queue. *)
Theorem pending_phase_applies_at_cycle_end
    (tl : TrafficLight.t) (d : Z * Z) (p : Z) (n : nat) :
  TrafficLight.m_delay tl = Some d ->
  TrafficLight.in_cycle tl = true ->
  let c := TrafficLight.m_counter tl in
  let q := TrafficLight.reduce_phase d p in
  (c + Z.of_nat n < TrafficLight.cycle d ->
   (TrafficLight.setPhaseAfterCycle p;; times n TrafficLight.increaseCounter) tl
   = (Returned tt,
      TrafficLight.with_counter (c + Z.of_nat n) (TrafficLight.with_phase q tl))) /\
  (c + Z.of_nat n = TrafficLight.cycle d ->
   (TrafficLight.setPhaseAfterCycle p;; times n TrafficLight.increaseCounter) tl
   = (Returned tt,
      TrafficLight.with_phase 0 (TrafficLight.with_counter q tl))).
Proof.
  intros Hd Hin c q. unfold TrafficLight.in_cycle in Hin. rewrite Hd in Hin.
  assert (Hset : TrafficLight.setPhaseAfterCycle p tl
                 = (Returned tt, TrafficLight.with_phase q tl)).
  { unfold TrafficLight.setPhaseAfterCycle, TrafficLight.delay_value.
    unfold_monad. rewrite Hd. reflexivity. }
  pose proof (wrap_range (d.1 + d.2)) as Hs. unfold TrafficLight.cycle in *.
  split; intros Hn; rewrite (bind_run _ _ _ _ _ Hset).
  - rewrite (ticks_before_wrap n _ d); simpl; try assumption;
      unfold TrafficLight.cycle; fold c; try lia. reflexivity.
  - destruct n as [|n]; [fold c in Hin; lia|].
    rewrite times_snoc.
    rewrite (bind_run _ _ _ _ _
               (ticks_before_wrap n (TrafficLight.with_phase q tl) d Hd
                  ltac:(simpl; fold c; lia)
                  ltac:(simpl; unfold TrafficLight.cycle; fold c; lia))).
    rewrite increaseCounter_run. simpl. rewrite Hd. cbv zeta.
    fold c. unfold TrafficLight.cycle.
    replace (c + Z.of_nat n + 1) with (wrap (d.1 + d.2)) by lia.
    rewrite (wrap_small (wrap (d.1 + d.2))) by exact Hs.
    rewrite Z.eqb_refl.
    destruct (Z.eqb_spec q 0) as [->|Hq]; reflexivity.
Qed.

Lemma pending_phase_applies_at_cycle_end_witness :
  (TrafficLight.setPhaseAfterCycle 7;; times 10 TrafficLight.increaseCounter)
    light55
  = (Returned tt, TrafficLight.with_counter 7 light55).
Proof.
  destruct (pending_phase_applies_at_cycle_end light55 (5, 5) 7 10
              eq_refl eq_refl) as [_ H].
  apply H. reflexivity.
Defined.

(** X8.  On a light whose delay has never been set, [setPhase],
    [increaseCounter] and both [isGreen] throw the runtime error
    [not_set], [setPhaseAfterCycle] throws [bad_optional_access] instead,
    each leaving the light as it was, while both overloads of [setDelay]
    return, set the delay and keep the counter. *)
Theorem unconfigured_light_throws (tl : TrafficLight.t) (p s : Z) (d : Z * Z) :
  TrafficLight.m_delay tl = None ->
  TrafficLight.setPhase p tl = (Thrown TrafficLight.not_set, tl) /\
  TrafficLight.increaseCounter tl = (Thrown TrafficLight.not_set, tl) /\
  TrafficLight.isGreen tl = Thrown TrafficLight.not_set /\
  TrafficLight.isGreen_street s tl = Thrown TrafficLight.not_set /\
  TrafficLight.setPhaseAfterCycle p tl = (Thrown bad_optional_access, tl) /\
  TrafficLight.setDelay_pair d tl
  = (Returned tt, TrafficLight.with_delay (Some d) tl) /\
  TrafficLight.setDelay p tl
  = (Returned tt, TrafficLight.with_delay (Some (p, p)) tl).
Proof.
  intros Hd. rewrite setPhase_run, increaseCounter_run.
  unfold TrafficLight.isGreen, TrafficLight.isGreen_street,
    TrafficLight.setPhaseAfterCycle, TrafficLight.delay_value,
    TrafficLight.setDelay_pair, TrafficLight.setDelay.
  unfold_monad. rewrite Hd. repeat split; reflexivity.
Qed.

Lemma unconfigured_light_throws_witness :
  TrafficLight.increaseCounter (TrafficLight.make 0 0)
  = (Thrown TrafficLight.not_set, TrafficLight.make 0 0).
Proof.
  apply (unconfigured_light_throws (TrafficLight.make 0 0) 0 0 (0, 0)).
  reflexivity.
Defined.

(** X9.  With the delay set, a street with priority and a street without it
    are never shown green together, and one of the two always is: [isGreen]
    of the one is the negation of [isGreen] of the other. *)
Theorem green_is_exclusive (tl : TrafficLight.t) (s1 s2 : Z) :
  is_Some (TrafficLight.m_delay tl) ->
  s1 ∈ Node.m_streetPriorities (TrafficLight.node tl) ->
  s2 ∉ Node.m_streetPriorities (TrafficLight.node tl) ->
  exists b, TrafficLight.isGreen_street s1 tl = Returned b /\
            TrafficLight.isGreen_street s2 tl = Returned (negb b).
Proof.
  intros [d Hd] H1 H2.
  unfold TrafficLight.isGreen_street, TrafficLight.isGreen. rewrite Hd.
  rewrite bool_decide_eq_true_2 by exact H1.
  rewrite bool_decide_eq_false_2 by exact H2.
  destruct (TrafficLight.m_counter tl <? d.1); eexists; split; reflexivity.
Qed.

Lemma green_is_exclusive_witness :
  exists b,
    TrafficLight.isGreen_street 4
      (TrafficLight.with_node
         (Node.with_streetPriorities {[4]} (Node.make 0 0)) light55)
    = Returned b /\
    TrafficLight.isGreen_street 6
      (TrafficLight.with_node
         (Node.with_streetPriorities {[4]} (Node.make 0 0)) light55)
    = Returned (negb b).
Proof.
  apply green_is_exclusive.
  - simpl. eauto.
  - simpl. apply elem_of_singleton. reflexivity.
  - simpl. rewrite elem_of_singleton. discriminate.
Defined.

(** X10.  The overload [setDelay(Delay d)] compares the counter with
    [d + old red], not with the new cycle [d + d]: it does what
    [setDelay(pair(d, d))] does when no delay was set, when the old red
    duration is [d], and when the counter is below both bounds. *)
Theorem setDelay_overloads_agree (tl : TrafficLight.t) (d : Z) :
  match TrafficLight.m_delay tl with
  | None => True
  | Some (green, red) =>
      red = d \/
      (TrafficLight.m_counter tl < wrap (d + red) /\
       TrafficLight.m_counter tl < wrap (d + d))
  end ->
  TrafficLight.setDelay d tl = TrafficLight.setDelay_pair (d, d) tl.
Proof.
  unfold TrafficLight.setDelay, TrafficLight.setDelay_pair. unfold_monad.
  destruct (TrafficLight.m_delay tl) as [[green red]|]; [|reflexivity].
  simpl. intros [->|[H1 H2]]; [reflexivity|].
  rewrite !Z.geb_leb.
  destruct (Z.leb_spec (wrap (d + red)) (TrafficLight.m_counter tl)); [lia|].
  destruct (Z.leb_spec (wrap (d + d)) (TrafficLight.m_counter tl)); [lia|].
  reflexivity.
Qed.

Lemma setDelay_overloads_agree_witness :
  TrafficLight.setDelay 3 light55 = TrafficLight.setDelay_pair (3, 3) light55.
Proof.
  apply (setDelay_overloads_agree light55 3). simpl. right.
  split; reflexivity.
Defined.

(** ** Roundabout: the queue and its capacity *)

(** X11.  [enqueue] and [dequeue], whether they return or throw, keep the
    queue of a roundabout within its capacity and its agents distinct, and
    never change the capacity. *)
Theorem roundabout_queue_within_capacity (r : Roundabout.t) (o : queue_op) :
  Roundabout.size r <= Roundabout.m_capacity r ->
  NoDup (Roundabout.m_agents r) ->
  Roundabout.size (queue_after o r) <= Roundabout.m_capacity (queue_after o r) /\
  NoDup (Roundabout.m_agents (queue_after o r)) /\
  Roundabout.m_capacity (queue_after o r) = Roundabout.m_capacity r.
Proof.
  intros Hsz Hnd. destruct o as [a|]; simpl.
  - rewrite enqueue_run. unfold rejected.
    destruct (Z.eqb_spec (Roundabout.size r) (Roundabout.m_capacity r)) as [|Hne];
      simpl; [auto|].
    destruct (existsb (fun id => id =? a) (Roundabout.m_agents r)) eqn:E; simpl;
      [auto|].
    unfold Roundabout.size in *. simpl. rewrite length_app. simpl.
    split; [lia|]. split; [|reflexivity].
    apply NoDup_app. split; [exact Hnd|]. split; [|apply NoDup_singleton].
    intros x Hx Hxa. apply list_elem_of_singleton in Hxa as ->.
    apply existsb_eqb in Hx. congruence.
  - rewrite dequeue_run. unfold Roundabout.size in *.
    destruct r as [id co cap [|a rest]]; simpl in *;
      [split; [exact Hsz | split; [exact Hnd | reflexivity]]|].
    apply NoDup_cons in Hnd as [_ Hnd]. split; [lia|]. split; auto.
Qed.

Lemma roundabout_queue_within_capacity_witness :
  Roundabout.size (queue_after (Enqueue 9) full_roundabout)
  <= Roundabout.m_capacity (queue_after (Enqueue 9) full_roundabout).
Proof.
  apply (roundabout_queue_within_capacity full_roundabout (Enqueue 9)).
  - vm_compute. discriminate.
  - apply NoDup_singleton.
Defined.

(** X12.  [Roundabout] inherits [setCapacity] from [NodeConcept] without the
    check that [Node] adds: a capacity below the number of queued agents is
    accepted, the roundabout is then not full, and [enqueue] admits a further
    agent, so that the queue exceeds the capacity. *)
Theorem roundabout_capacity_can_drop_below_queue
    (r : Roundabout.t) (c a : Z) :
  c < Roundabout.size r -> a ∉ Roundabout.m_agents r ->
  Roundabout.setCapacity c r = (Returned tt, Roundabout.with_capacity c r) /\
  Roundabout.isFull (Roundabout.with_capacity c r) = false /\
  (Roundabout.setCapacity c;; Roundabout.enqueue a) r
  = (Returned tt,
     Roundabout.with_agents (Roundabout.m_agents r ++ [a])
       (Roundabout.with_capacity c r)) /\
  c < Roundabout.size
        ((Roundabout.setCapacity c;; Roundabout.enqueue a) r).2.
Proof.
  intros Hc Hnot.
  assert (Hfull : Roundabout.isFull (Roundabout.with_capacity c r) = false)
    by (unfold Roundabout.isFull, Roundabout.size in *; simpl;
        apply Z.eqb_neq; lia).
  assert (Hrun : (Roundabout.setCapacity c;; Roundabout.enqueue a) r
    = (Returned tt, Roundabout.with_agents (Roundabout.m_agents r ++ [a])
         (Roundabout.with_capacity c r))).
  { unfold mbind, M_bind, bind. unfold Roundabout.setCapacity, modify.
    rewrite enqueue_run. unfold rejected.
    change (Roundabout.size (Roundabout.with_capacity c r)
            =? Roundabout.m_capacity (Roundabout.with_capacity c r))
      with (Roundabout.isFull (Roundabout.with_capacity c r)).
    rewrite Hfull. simpl.
    destruct (existsb (fun id => id =? a) (Roundabout.m_agents r)) eqn:E;
      [|reflexivity].
    apply existsb_eqb in E. contradiction. }
  split; [reflexivity|]. split; [exact Hfull|]. split; [exact Hrun|].
  rewrite Hrun. unfold Roundabout.size in *. simpl. rewrite length_app. lia.
Qed.

Lemma roundabout_capacity_can_drop_below_queue_witness :
  (Roundabout.setCapacity 0;; Roundabout.enqueue 9) full_roundabout
  = (Returned tt, Roundabout.mk 0 None 0 [7; 9]).
Proof.
  destruct (roundabout_capacity_can_drop_below_queue full_roundabout 0 9)
    as (_ & _ & H & _).
  - reflexivity.
  - vm_compute. intros Hin. inversion Hin as [|? ? ? Hin']. inversion Hin'.
  - exact H.
Defined.

(** ** SparseMatrix: bounds, erasing and clearing *)

Section EraseFacts.
Import SparseMatrix.
Context {V : Type} `{Zero V}.

Lemma last_index_positive_extent (m : t V) :
  wrap (_rows m * _cols m) <> 0 ->
  last_index m = wrap (_rows m * _cols m) - 1.
Proof.
  intros Hnz. unfold last_index.
  pose proof (wrap_range (_rows m * _cols m)). apply wrap_small. lia.
Qed.

Lemma erase_index_run i (m : t V) :
  erase_index i m =
  if i >? last_index m then (Thrown (out_of_range "Index out of range"), m)
  else if bool_decide (is_Some (_matrix m !! i))
       then (Returned tt, with_matrix (delete i (_matrix m)) m)
       else (Thrown (runtime_error "Element not found"), m).
Proof.
  unfold erase_index. unfold_monad. destruct (i >? last_index m); simpl;
    [reflexivity|].
  destruct (bool_decide (is_Some (_matrix m !! i))); reflexivity.
Qed.

Lemma last_index_no_cells (M : gmap Z V) (d : V) :
  last_index (mk M 0 0 d) = modulus - 1.
Proof. reflexivity. Qed.

End EraseFacts.

(** X13.  The two checks of a linear index disagree on a matrix without
    cells.  [operator()(index)] throws when [index >= rows * cols],
    [contains(index)] when [index > rows * cols - 1]: the same test while
    [rows * cols] is not 0 in the index type, but when it is 0, as after
    [clear()], [contains] accepts every index and [operator()] none, so an
    entry that [insert(index, v)] then stores cannot be read back. *)
Theorem index_checks_disagree_without_cells
    {V : Type} `{Zero V} (m : SparseMatrix.t V) (i : Z) (v : V) :
  is_uint32 i ->
  (wrap (SparseMatrix._rows m * SparseMatrix._cols m) <> 0 ->
   throws (SparseMatrix.at_index i m) = throws (SparseMatrix.contains_index i m)) /\
  (wrap (SparseMatrix._rows m * SparseMatrix._cols m) = 0 ->
   throws (SparseMatrix.at_index i m) = true /\
   throws (SparseMatrix.contains_index i m) = false) /\
  (SparseMatrix.clear;; SparseMatrix.insert_index i v;;
   observe (SparseMatrix.contains_index i)) m
  = (Returned true, SparseMatrix.mk {[i := v]} 0 0 (SparseMatrix._defaultReturn m)) /\
  (SparseMatrix.clear;; SparseMatrix.insert_index i v;;
   observe (SparseMatrix.at_index i)) m
  = (Thrown (out_of_range "Index out of range"),
     SparseMatrix.mk {[i := v]} 0 0 (SparseMatrix._defaultReturn m)).
Proof.
  intros Hi. unfold is_uint32 in Hi.
  pose proof (wrap_range (SparseMatrix._rows m * SparseMatrix._cols m)) as Hs.
  split; [|split; [|split]].
  - intros Hnz. unfold SparseMatrix.at_index, SparseMatrix.contains_index.
    rewrite (last_index_positive_extent m Hnz), Z.geb_leb, Z.gtb_ltb.
    destruct (Z.leb_spec (wrap (SparseMatrix._rows m * SparseMatrix._cols m)) i),
      (Z.ltb_spec (wrap (SparseMatrix._rows m * SparseMatrix._cols m) - 1) i);
      try reflexivity; lia.
  - intros Hz. unfold SparseMatrix.at_index, SparseMatrix.contains_index,
      SparseMatrix.last_index. rewrite Hz.
    change (wrap (0 - 1)) with (modulus - 1). rewrite Z.geb_leb, Z.gtb_ltb.
    destruct (Z.leb_spec 0 i); [|lia].
    destruct (Z.ltb_spec (modulus - 1) i); [lia|]. split; reflexivity.
  - unfold mbind, M_bind, bind, SparseMatrix.clear, modify.
    rewrite insert_index_run, (last_index_no_cells ∅), Z.gtb_ltb.
    destruct (Z.ltb_spec (modulus - 1) i); [lia|].
    unfold observe, SparseMatrix.contains_index, SparseMatrix.with_matrix.
    cbn [fst snd SparseMatrix._matrix SparseMatrix._rows SparseMatrix._cols
         SparseMatrix._defaultReturn].
    rewrite last_index_no_cells, Z.gtb_ltb.
    destruct (Z.ltb_spec (modulus - 1) i); [lia|].
    unfold SparseMatrix.emplace. rewrite lookup_empty.
    cbn [SparseMatrix._matrix].
    rewrite bool_decide_eq_true_2 by (rewrite lookup_insert_eq; eauto).
    reflexivity.
  - unfold mbind, M_bind, bind, SparseMatrix.clear, modify.
    rewrite insert_index_run, (last_index_no_cells ∅), Z.gtb_ltb.
    destruct (Z.ltb_spec (modulus - 1) i); [lia|].
    unfold observe, SparseMatrix.at_index, SparseMatrix.with_matrix.
    cbn [fst snd SparseMatrix._matrix SparseMatrix._rows SparseMatrix._cols
         SparseMatrix._defaultReturn].
    change (wrap (0 * 0)) with 0. rewrite Z.geb_leb.
    destruct (Z.leb_spec 0 i); [|lia].
    unfold SparseMatrix.emplace. rewrite lookup_empty. reflexivity.
Qed.

Lemma index_checks_disagree_without_cells_witness :
  (SparseMatrix.clear;; SparseMatrix.insert_index 3 8;;
   observe (SparseMatrix.at_index 3)) m22
  = (Thrown (out_of_range "Index out of range"),
     SparseMatrix.mk {[3 := 8]} 0 0 0).
Proof.
  apply (index_checks_disagree_without_cells m22 3 8).
  split; vm_compute; (reflexivity || discriminate).
Defined.

(** X14.  [erase(index)] throws [out_of_range] past the bound and
    "Element not found" for a key that is not stored, leaving the matrix as
    it was; otherwise it returns and has removed exactly that key, so that
    [contains(index)] is false afterwards.  It undoes an [insert(index, v)]
    that stored a new entry. *)
Theorem erase_removes_one_entry
    {V : Type} `{Zero V} (m : SparseMatrix.t V) (i : Z) (v : V) :
  (i > SparseMatrix.last_index m ->
   SparseMatrix.erase_index i m
   = (Thrown (out_of_range "Index out of range"), m)) /\
  (i <= SparseMatrix.last_index m ->
   (SparseMatrix._matrix m !! i = None ->
    SparseMatrix.erase_index i m
    = (Thrown (runtime_error "Element not found"), m) /\
    (SparseMatrix.insert_index i v;; SparseMatrix.erase_index i) m
    = (Returned tt, m)) /\
   (is_Some (SparseMatrix._matrix m !! i) ->
    SparseMatrix.erase_index i m
    = (Returned tt,
       SparseMatrix.with_matrix (delete i (SparseMatrix._matrix m)) m) /\
    SparseMatrix.contains_index i (SparseMatrix.erase_index i m).2
    = Returned false /\
    forall k, k <> i ->
      SparseMatrix._matrix (SparseMatrix.erase_index i m).2 !! k
      = SparseMatrix._matrix m !! k)).
Proof.
  split.
  - intros Hgt. rewrite erase_index_run, Z.gtb_ltb.
    destruct (Z.ltb_spec (SparseMatrix.last_index m) i); [reflexivity | lia].
  - intros Hle.
    assert (Hb : (i >? SparseMatrix.last_index m) = false)
      by (rewrite Z.gtb_ltb; apply Z.ltb_ge; lia).
    split.
    + intros Hnone. split.
      * rewrite erase_index_run, Hb, Hnone.
        rewrite bool_decide_eq_false_2 by (intros [? ?]; discriminate).
        reflexivity.
      * unfold mbind, M_bind, bind. rewrite insert_index_run, Hb.
        rewrite erase_index_run.
        change (SparseMatrix.last_index (SparseMatrix.with_matrix _ m))
          with (SparseMatrix.last_index m).
        rewrite Hb. simpl. unfold SparseMatrix.emplace. rewrite Hnone.
        rewrite bool_decide_eq_true_2 by (rewrite lookup_insert_eq; eauto).
        rewrite delete_insert_id by exact Hnone. destruct m; reflexivity.
    + intros Hsome. rewrite erase_index_run, Hb.
      rewrite bool_decide_eq_true_2 by exact Hsome. simpl.
      split; [reflexivity|]. split.
      * unfold SparseMatrix.contains_index.
        change (SparseMatrix.last_index (SparseMatrix.with_matrix _ m))
          with (SparseMatrix.last_index m).
        rewrite Hb. simpl. rewrite lookup_delete_eq.
        rewrite bool_decide_eq_false_2 by (intros [? ?]; discriminate).
        reflexivity.
      * intros k Hk. apply lookup_delete_ne. congruence.
Qed.

Lemma erase_removes_one_entry_witness :
  (SparseMatrix.insert_index 3 8;; SparseMatrix.erase_index 3) m22
  = (Returned tt, m22).
Proof.
  destruct (erase_removes_one_entry m22 3 8) as [_ H].
  destruct H as [H _]; [vm_compute; discriminate|].
  apply H. reflexivity.
Defined.

(** ** SparseMatrix: loops that build a table under new keys *)

Section RekeyFacts.
Import SparseMatrix.
Context {V : Type} `{Zero V} `{Iteration}.

Lemma foldl_with_matrix {A} (g : gmap Z V -> A -> gmap Z V) (l : list A) (T : t V) :
  foldl (fun T x => with_matrix (g (_matrix T) x) T) T l
  = with_matrix (foldl g (_matrix T) l) T.
Proof.
  revert T. induction l as [|x l IH]; intros T; simpl.
  - destruct T; reflexivity.
  - rewrite IH. reflexivity.
Qed.

Lemma foldl_filter {S A} (P : A -> Prop) `{forall x, Decision (P x)}
    (f : S -> A -> S) (l : list A) (s : S) :
  foldl (fun s x => if decide (P x) then f s x else s) s l
  = foldl f s (filter P l).
Proof.
  revert s. induction l as [|x l IH]; intros s; simpl; [reflexivity|].
  rewrite IH, filter_cons. destruct (decide (P x)); reflexivity.
Qed.

(** Entries put with [emplace] under the keys [τ k], where [σ] leads back
    from the new key to the old one. *)
Lemma foldl_rekey_lookup (τ σ : Z -> Z) (l : list (Z * V)) (acc : gmap Z V) k' :
  Forall (fun kv : Z * V => σ (τ kv.1) = kv.1) l ->
  foldl (fun a (kv : Z * V) => emplace (τ kv.1) kv.2 a) acc l !! k'
  = match acc !! k' with
    | Some x => Some x
    | None => if decide (τ (σ k') = k')
              then (list_to_map l : gmap Z V) !! σ k' else None
    end.
Proof.
  intros Hl. revert acc. induction Hl as [|[k1 v1] l Hk1 Hl IH]; intros acc.
  - simpl. rewrite lookup_empty.
    destruct (acc !! k'); [reflexivity|].
    destruct (decide (τ (σ k') = k')); reflexivity.
  - simpl in Hk1. simpl foldl. rewrite IH, lookup_emplace.
    destruct (acc !! k'); [reflexivity|]. simpl.
    destruct (decide (τ k1 = k')) as [E|E].
    + subst k'. rewrite Hk1.
      destruct (decide (τ k1 = τ k1)); [|congruence].
      rewrite lookup_insert_eq. reflexivity.
    + destruct (decide (τ (σ k') = k')) as [E'|]; [|reflexivity].
      rewrite lookup_insert_ne; [reflexivity|]. congruence.
Qed.

(** The pairs of a table that a loop with a test visits. *)
Lemma lookup_filter_iteration (P : Z * V -> Prop) `{forall x, Decision (P x)}
    (mp : gmap Z V) k :
  (list_to_map (filter P (iteration mp)) : gmap Z V) !! k
  = match mp !! k with
    | Some v => if decide (P (k, v)) then Some v else None
    | None => None
    end.
Proof.
  assert (Hnd : NoDup (filter P (iteration mp)).*1).
  { eapply sublist_NoDup; [|apply fmap_sublist, sublist_filter].
    rewrite (iteration_perm _ mp). apply NoDup_fst_map_to_list. }
  apply option_eq. intros v.
  rewrite <- (elem_of_list_to_map _ _ _ Hnd), list_elem_of_filter.
  rewrite (iteration_perm _ mp), elem_of_map_to_list.
  destruct (mp !! k) as [w|] eqn:E.
  - destruct (decide (P (k, w))) as [HP|HP].
    + split; [intros [_ Hv]; congruence|].
      intros Hv. injection Hv as <-. split; [exact HP | reflexivity].
    + split; [|discriminate]. intros [HP' Hv]. injection Hv as <-. contradiction.
  - split; [intros [_ ?]; discriminate | discriminate].
Qed.

Lemma well_formed_intro (m : t V) :
  0 <= _rows m -> 0 <= _cols m -> _rows m * _cols m <= modulus ->
  (forall k v, _matrix m !! k = Some v -> 0 <= k < _rows m * _cols m) ->
  well_formed m = true.
Proof.
  intros Hr Hc Hfit Hkeys. unfold well_formed.
  rewrite !andb_true_iff, !Z.leb_le, forallb_forall.
  repeat split; try assumption.
  intros [k v] Hin. apply list_elem_of_In, elem_of_map_to_list in Hin.
  specialize (Hkeys k v Hin). simpl. lia.
Qed.

Lemma transposed_key_back r c k :
  0 <= r -> 0 <= c -> 0 <= k < r * c ->
  0 <= transposed_key r c k < c * r /\
  transposed_key c r (transposed_key r c k) = k.
Proof.
  intros Hr Hc Hk. unfold transposed_key.
  assert (Hpos : 0 < c) by nia.
  assert (Hrpos : 0 < r) by nia.
  pose proof (Z.div_mod k c ltac:(lia)) as Hdm.
  pose proof (Z.mod_pos_bound k c Hpos) as Hmod.
  assert (Hdiv : 0 <= k `div` c < r).
  { split; [apply Z.div_pos; lia|]. apply Z.div_lt_upper_bound; lia. }
  assert (Hm : (k `mod` c * r + k `div` c) `mod` r = k `div` c).
  { rewrite Z.add_comm, Z.mod_add by lia. apply Z.mod_small. lia. }
  assert (Hd : (k `mod` c * r + k `div` c) `div` r = k `mod` c).
  { rewrite Z.add_comm, Z.div_add by lia. rewrite Z.div_small by lia. lia. }
  rewrite Hm, Hd. split; [nia | lia].
Qed.

Lemma transposed_key_cell r c i j :
  0 <= i < r -> 0 <= j < c -> transposed_key r c (i * c + j) = j * r + i.
Proof.
  intros Hi Hj. unfold transposed_key.
  rewrite (Z.add_comm (i * c)), Z.mod_add, Z.div_add by lia.
  rewrite Z.mod_small, Z.div_small by lia. lia.
Qed.

Lemma transpose_run (m : t V) :
  well_formed m = true ->
  transpose m
  = Returned (mk (foldl (fun a (kv : Z * V) =>
                           emplace (transposed_key (_rows m) (_cols m) kv.1) kv.2 a)
                    ∅ (iteration (_matrix m)))
                (_cols m) (_rows m) zero).
Proof.
  intros Hwf. pose proof (iteration_in_extent m Hwf) as Hext.
  apply well_formed_spec in Hwf as (Hr & Hc & Hfit & _).
  unfold transpose, filled.
  destruct (for_each_pure
              (fun T : t V => _rows T = _cols m /\ _cols T = _rows m)
              (fun kv : Z * V => 0 <= kv.1 < _rows m * _cols m)
              (fun T kv => with_matrix
                 (emplace (transposed_key (_rows m) (_cols m) kv.1) kv.2
                    (_matrix T)) T)
              (fun '(first, second) =>
                 r ← umod first (_cols m);
                 q ← udiv first (_cols m);
                 insert r q second)) with (l := iteration (_matrix m))
      (s := make (_cols m) (_rows m)) as [Hrun _].
  - intros [k v] T Hk [HTr HTc]. simpl in Hk.
    destruct (div_mod_in_extent _ _ k Hr Hc Hfit Hk) as (Hpos & Hq & Hm & _).
    split; [|split; assumption].
    rewrite (bind_run _ _ _ _ _ (umod_run k (_cols m) T ltac:(lia))).
    rewrite (bind_run _ _ _ _ _ (udiv_run k (_cols m) T ltac:(lia))).
    unfold insert. unfold mbind at 1, M_bind, bind, get.
    destruct (linear_in_extent T (k `mod` _cols m) (k `div` _cols m))
      as [Hlin Hle]; [lia | lia | rewrite HTr, HTc; lia |].
    rewrite insert_index_run.
    replace (linear T (k `mod` _cols m) (k `div` _cols m) >? last_index T)
      with false by (symmetry; rewrite Z.gtb_ltb; apply Z.ltb_ge; lia).
    rewrite Hlin, HTc. reflexivity.
  - exact Hext.
  - split; reflexivity.
  - rewrite Hrun. f_equal.
    exact (foldl_with_matrix
             (fun a (kv : Z * V) =>
                emplace (transposed_key (_rows m) (_cols m) kv.1) kv.2 a)
             (iteration (_matrix m)) (make (_cols m) (_rows m))).
Qed.

Lemma transpose_spec (m : t V) :
  well_formed m = true ->
  exists T, transpose m = Returned T /\
    _rows T = _cols m /\ _cols T = _rows m /\ well_formed T = true /\
    forall i j, 0 <= i < _rows m -> 0 <= j < _cols m ->
      _matrix T !! (j * _rows m + i) = _matrix m !! (i * _cols m + j).
Proof.
  intros Hwf. eexists. split; [apply (transpose_run m Hwf)|].
  pose proof (iteration_in_extent m Hwf) as Hext.
  apply well_formed_spec in Hwf as (Hr & Hc & Hfit & Hkeys).
  assert (Hlook : forall k',
    foldl (fun a (kv : Z * V) =>
             emplace (transposed_key (_rows m) (_cols m) kv.1) kv.2 a)
      ∅ (iteration (_matrix m)) !! k'
    = if decide (transposed_key (_rows m) (_cols m)
                   (transposed_key (_cols m) (_rows m) k') = k')
      then _matrix m !! transposed_key (_cols m) (_rows m) k' else None).
  { intros k'.
    rewrite (foldl_rekey_lookup (transposed_key (_rows m) (_cols m))
               (transposed_key (_cols m) (_rows m))).
    - rewrite lookup_empty, list_to_map_iteration. reflexivity.
    - eapply Forall_impl; [exact Hext|]. intros [k v] Hk. simpl in *.
      apply transposed_key_back; assumption. }
  simpl. split; [reflexivity|]. split; [reflexivity|]. split.
  - apply well_formed_intro; simpl; try assumption; [lia|].
    intros k' v. rewrite Hlook.
    destruct (decide _) as [E|]; [|discriminate]. intros Hv.
    apply Hkeys in Hv. rewrite <- E.
    apply transposed_key_back; assumption.
  - intros i j Hi Hj. rewrite Hlook.
    rewrite (transposed_key_cell (_cols m) (_rows m) j i) by assumption.
    rewrite (transposed_key_cell (_rows m) (_cols m) i j) by assumption.
    destruct (decide (j * _rows m + i = j * _rows m + i)); [|congruence].
    reflexivity.
Qed.

End RekeyFacts.

(** X15.  [operator++] of a well-formed matrix returns the transpose: the
    extents are exchanged, the result is well-formed, cell [(j, i)] of the
    result stores what cell [(i, j)] of the matrix stores, and its own
    transpose has the table and the extents of the matrix again. *)
Theorem transpose_exchanges_rows_and_columns
    {V : Type} `{Zero V} `{Iteration} (m : SparseMatrix.t V) :
  SparseMatrix.well_formed m = true ->
  exists T, SparseMatrix.transpose m = Returned T /\
    SparseMatrix._rows T = SparseMatrix._cols m /\
    SparseMatrix._cols T = SparseMatrix._rows m /\
    SparseMatrix.well_formed T = true /\
    (forall i j, 0 <= i < SparseMatrix._rows m -> 0 <= j < SparseMatrix._cols m ->
       SparseMatrix._matrix T !! (j * SparseMatrix._rows m + i)
       = SparseMatrix._matrix m !! (i * SparseMatrix._cols m + j)) /\
    exists T', SparseMatrix.transpose T = Returned T' /\
      SparseMatrix._matrix T' = SparseMatrix._matrix m /\
      SparseMatrix._rows T' = SparseMatrix._rows m /\
      SparseMatrix._cols T' = SparseMatrix._cols m.
Proof.
  intros Hwf.
  destruct (transpose_spec m Hwf) as (T & Hrun & HTr & HTc & HTwf & Hcells).
  exists T. repeat (split; [assumption|]).
  destruct (transpose_spec T HTwf) as (T' & Hrun' & HTr' & HTc' & HTwf' & Hcells').
  exists T'. split; [assumption|].
  rewrite HTr', HTc', HTr, HTc. split; [|split; reflexivity].
  apply well_formed_spec in Hwf as (Hr & Hc & Hfit & Hkeys).
  apply well_formed_spec in HTwf' as (_ & _ & _ & Hkeys').
  rewrite HTr', HTc', HTr, HTc in Hkeys'.
  apply map_eq. intros k.
  destruct (decide (0 <= k < SparseMatrix._rows m * SparseMatrix._cols m))
    as [Hk|Hk].
  - destruct (div_mod_in_extent _ _ k Hr Hc Hfit Hk) as (Hpos & Hq & Hm & _).
    pose proof (Z.div_mod k (SparseMatrix._cols m) ltac:(lia)) as Hdm.
    replace k with (k `div` SparseMatrix._cols m * SparseMatrix._cols m
                    + k `mod` SparseMatrix._cols m) by lia.
    rewrite <- Hcells by assumption.
    specialize (Hcells' (k `mod` SparseMatrix._cols m)
                        (k `div` SparseMatrix._cols m)).
    rewrite HTr, HTc in Hcells'. apply Hcells'; assumption.
  - destruct (SparseMatrix._matrix T' !! k) as [v|] eqn:E.
    { apply Hkeys' in E. lia. }
    destruct (SparseMatrix._matrix m !! k) as [v|] eqn:E'; [|reflexivity].
    apply Hkeys in E'. lia.
Qed.

Lemma transpose_exchanges_rows_and_columns_witness :
  exists T, SparseMatrix.transpose weighted22 = Returned T /\
    SparseMatrix._rows T = SparseMatrix._cols weighted22 /\
    SparseMatrix._cols T = SparseMatrix._rows weighted22 /\
    SparseMatrix.well_formed T = true /\
    (forall i j, 0 <= i < SparseMatrix._rows weighted22 ->
       0 <= j < SparseMatrix._cols weighted22 ->
       SparseMatrix._matrix T !! (j * SparseMatrix._rows weighted22 + i)
       = SparseMatrix._matrix weighted22 !! (i * SparseMatrix._cols weighted22 + j)) /\
    exists T', SparseMatrix.transpose T = Returned T' /\
      SparseMatrix._matrix T' = SparseMatrix._matrix weighted22 /\
      SparseMatrix._rows T' = SparseMatrix._rows weighted22 /\
      SparseMatrix._cols T' = SparseMatrix._cols weighted22.
Proof.
  apply (transpose_exchanges_rows_and_columns weighted22). reflexivity.
Defined.

(** ** SparseMatrix: rows and columns taken out of the table *)

Section RowColumnFacts.
Import SparseMatrix.
Context {V : Type} `{Zero V} `{Iteration}.

Lemma for_each_fold {S A} (P : S -> Prop) (Q : A -> Prop) (f : S -> A -> S)
    (body : A -> M S unit) (l : list A) (s : S) :
  (forall x s, Q x -> P s -> body x s = (Returned tt, f s x) /\ P (f s x)) ->
  Forall Q l -> P s ->
  for_each l body s = (Returned tt, foldl f s l).
Proof. intros Hb HQ HP. apply (for_each_pure P Q f body Hb l s HQ HP). Qed.

Lemma observe_run {S A B} (f : S -> outcome A) (k : A -> M S B) s a :
  f s = Returned a -> (observe f ≫= k) s = k a s.
Proof. intros Hf. unfold mbind, M_bind, bind, observe. rewrite Hf. reflexivity. Qed.

Lemma getRow_false_run (m : t V) i :
  well_formed m = true -> 0 <= i < _rows m ->
  getRow i false m
  = Returned (mk (foldl (fun a (kv : Z * V) => emplace (kv.1 `mod` _cols m) kv.2 a)
                    ∅ (filter (in_row (_cols m) i) (iteration (_matrix m))))
                1 (_cols m) zero).
Proof.
  intros Hwf Hi. pose proof (iteration_in_extent m Hwf) as Hext.
  apply well_formed_spec in Hwf as (Hr & Hc & Hfit & _).
  unfold getRow. rewrite Z.geb_leb.
  destruct (Z.leb_spec (_rows m) i); [lia|].
  unfold filled.
  rewrite (bind_run (mret tt) _ (make 1 (_cols m)) tt _ eq_refl).
  rewrite (for_each_fold
             (fun T : t V => _rows T = 1 /\ _cols T = _cols m)
             (fun kv : Z * V => 0 <= kv.1 < _rows m * _cols m)
             (fun T kv => if decide (in_row (_cols m) i kv)
                          then with_matrix
                                 (emplace (kv.1 `mod` _cols m) kv.2 (_matrix T)) T
                          else T)).
  - rewrite (foldl_filter (in_row (_cols m) i)
               (fun T (kv : Z * V) =>
                  with_matrix (emplace (kv.1 `mod` _cols m) kv.2 (_matrix T)) T)).
    f_equal.
    exact (foldl_with_matrix
             (fun a (kv : Z * V) => emplace (kv.1 `mod` _cols m) kv.2 a)
             (filter (in_row (_cols m) i) (iteration (_matrix m)))
             (make 1 (_cols m))).
  - intros [k v] T Hk [HTr HTc]. simpl in Hk.
    destruct (div_mod_in_extent _ _ k Hr Hc Hfit Hk) as (Hpos & Hq & Hm & _).
    rewrite (bind_run _ _ _ _ _ (udiv_run k (_cols m) T ltac:(lia))).
    destruct (decide (in_row (_cols m) i (k, v))) as [D|D];
      unfold in_row in D; simpl in D;
      destruct (Z.eqb_spec (k `div` _cols m) i); try contradiction;
      [|split; [reflexivity | split; assumption]].
    split; [|split; assumption].
    rewrite (bind_run _ _ _ _ _ (umod_run k (_cols m) T ltac:(lia))).
    rewrite insert_index_run, in_extent_last_index;
      [reflexivity | rewrite HTr, HTc; nia | rewrite HTr, HTc; lia].
  - exact Hext.
  - split; reflexivity.
Qed.

Lemma getCol_false_run (m : t V) j :
  well_formed m = true -> 0 <= j < _cols m ->
  getCol j false m
  = Returned (mk (foldl (fun a (kv : Z * V) => emplace (kv.1 `div` _cols m) kv.2 a)
                    ∅ (filter (in_col (_cols m) j) (iteration (_matrix m))))
                (_rows m) 1 zero).
Proof.
  intros Hwf Hj. pose proof (iteration_in_extent m Hwf) as Hext.
  apply well_formed_spec in Hwf as (Hr & Hc & Hfit & _).
  unfold getCol. rewrite Z.geb_leb.
  destruct (Z.leb_spec (_cols m) j); [lia|].
  unfold filled.
  rewrite (bind_run (mret tt) _ (make (_rows m) 1) tt _ eq_refl).
  rewrite (for_each_fold
             (fun T : t V => _rows T = _rows m /\ _cols T = 1)
             (fun kv : Z * V => 0 <= kv.1 < _rows m * _cols m)
             (fun T kv => if decide (in_col (_cols m) j kv)
                          then with_matrix
                                 (emplace (kv.1 `div` _cols m) kv.2 (_matrix T)) T
                          else T)).
  - rewrite (foldl_filter (in_col (_cols m) j)
               (fun T (kv : Z * V) =>
                  with_matrix (emplace (kv.1 `div` _cols m) kv.2 (_matrix T)) T)).
    f_equal.
    exact (foldl_with_matrix
             (fun a (kv : Z * V) => emplace (kv.1 `div` _cols m) kv.2 a)
             (filter (in_col (_cols m) j) (iteration (_matrix m)))
             (make (_rows m) 1)).
  - intros [k v] T Hk [HTr HTc]. simpl in Hk.
    destruct (div_mod_in_extent _ _ k Hr Hc Hfit Hk) as (Hpos & Hq & Hm & _).
    rewrite (bind_run _ _ _ _ _ (umod_run k (_cols m) T ltac:(lia))).
    destruct (decide (in_col (_cols m) j (k, v))) as [D|D];
      unfold in_col in D; simpl in D;
      destruct (Z.eqb_spec (k `mod` _cols m) j); try contradiction;
      [|split; [reflexivity | split; assumption]].
    split; [|split; assumption].
    rewrite (bind_run _ _ _ _ _ (udiv_run k (_cols m) T ltac:(lia))).
    rewrite insert_index_run, in_extent_last_index;
      [reflexivity | rewrite HTr, HTc; nia | rewrite HTr, HTc; lia].
  - exact Hext.
  - split; reflexivity.
Qed.

(** The table of [getRow(i)]: the entries of row [i] under their columns. *)
Lemma getRow_false_lookup (m : t V) i j :
  well_formed m = true -> 0 <= i < _rows m ->
  foldl (fun a (kv : Z * V) => emplace (kv.1 `mod` _cols m) kv.2 a)
    ∅ (filter (in_row (_cols m) i) (iteration (_matrix m))) !! j
  = if decide (0 <= j < _cols m) then _matrix m !! (i * _cols m + j) else None.
Proof.
  intros Hwf Hi. pose proof (iteration_in_extent m Hwf) as Hext.
  pose proof (well_formed_spec m Hwf) as (Hr & Hc & Hfit & Hkeys).
  rewrite (foldl_rekey_lookup (fun k => k `mod` _cols m)
             (fun j => i * _cols m + j)).
  - rewrite lookup_empty, lookup_filter_iteration.
    destruct (decide (0 <= j < _cols m)) as [Hj|Hj].
    + assert (Hm : (i * _cols m + j) `mod` _cols m = j)
        by (rewrite Z.add_comm, Z.mod_add by lia; apply Z.mod_small; lia).
      assert (Hd : (i * _cols m + j) `div` _cols m = i)
        by (rewrite Z.add_comm, Z.div_add by lia;
            rewrite Z.div_small by lia; lia).
      destruct (decide _) as [_|E]; [|contradiction].
      destruct (_matrix m !! (i * _cols m + j)) as [v|]; [|reflexivity].
      destruct (decide _) as [_|E]; [reflexivity|].
      exfalso. apply E. exact Hd.
    + destruct (decide _) as [E|]; [|reflexivity].
      destruct (_matrix m !! (i * _cols m + j)) as [v|] eqn:Ev; [|reflexivity].
      exfalso. apply Hkeys in Ev.
      assert (Hpos : 0 < _cols m) by nia.
      pose proof (Z.mod_pos_bound (i * _cols m + j) (_cols m) Hpos). lia.
  - apply Forall_forall. intros [k v] Hin. simpl.
    apply list_elem_of_filter in Hin as [Hrow Hin].
    rewrite Forall_forall in Hext. specialize (Hext _ Hin). simpl in Hext.
    unfold in_row in Hrow. simpl in Hrow.
    assert (Hpos : 0 < _cols m) by nia.
    pose proof (Z.div_mod k (_cols m) ltac:(lia)). rewrite <- Hrow. lia.
Qed.

(** The table of [getCol(j)]: the entries of column [j] under their rows. *)
Lemma getCol_false_lookup (m : t V) j i :
  well_formed m = true -> 0 <= j < _cols m ->
  foldl (fun a (kv : Z * V) => emplace (kv.1 `div` _cols m) kv.2 a)
    ∅ (filter (in_col (_cols m) j) (iteration (_matrix m))) !! i
  = if decide (0 <= i < _rows m) then _matrix m !! (i * _cols m + j) else None.
Proof.
  intros Hwf Hj. pose proof (iteration_in_extent m Hwf) as Hext.
  pose proof (well_formed_spec m Hwf) as (Hr & Hc & Hfit & Hkeys).
  assert (Hm : (i * _cols m + j) `mod` _cols m = j)
    by (rewrite Z.add_comm, Z.mod_add by lia; apply Z.mod_small; lia).
  assert (Hd : (i * _cols m + j) `div` _cols m = i)
    by (rewrite Z.add_comm, Z.div_add by lia;
        rewrite Z.div_small by lia; lia).
  rewrite (foldl_rekey_lookup (fun k => k `div` _cols m)
             (fun i => i * _cols m + j)).
  - rewrite lookup_empty, lookup_filter_iteration.
    destruct (decide _) as [_|E]; [|contradiction].
    destruct (_matrix m !! (i * _cols m + j)) as [v|] eqn:Ev.
    + destruct (decide _) as [_|E]; [|contradiction].
      apply Hkeys in Ev.
      destruct (decide (0 <= i < _rows m)) as [|Hi]; [reflexivity|].
      exfalso. apply Hi. split; [nia|]. nia.
    + destruct (decide (0 <= i < _rows m)); reflexivity.
  - apply Forall_forall. intros [k v] Hin. simpl.
    apply list_elem_of_filter in Hin as [Hcol Hin].
    unfold in_col in Hcol. simpl in Hcol.
    pose proof (Z.div_mod k (_cols m) ltac:(lia)). rewrite <- Hcol. lia.
Qed.

Lemma foldl_delete_lookup {A} (g : A -> Z) (l : list A) (acc : gmap Z V) k :
  foldl (fun a x => delete (g x) a) acc l !! k
  = if decide (k ∈ g <$> l) then None else acc !! k.
Proof.
  revert acc. induction l as [|x l IH]; intros acc; simpl.
  - destruct (decide (k ∈ [])) as [E|]; [inversion E | reflexivity].
  - rewrite IH. destruct (decide (k ∈ g <$> l)) as [E|E].
    + rewrite decide_True by (right; exact E). reflexivity.
    + destruct (decide (k = g x)) as [->|Hne].
      * rewrite decide_True by left. apply lookup_delete_eq.
      * rewrite decide_False by (intros Hin; inversion Hin; subst; contradiction).
        apply lookup_delete_ne. congruence.
Qed.

End RowColumnFacts.

(** X16.  [getRow(i)] and [getCol(j)] without [keepIndex], on a well-formed
    matrix: the row is a matrix of 1 by [cols] cells that stores under [j]
    what the matrix stores in cell [(i, j)], the column one of [rows] by 1
    cells that stores under [i] what the matrix stores in cell [(i, j)].
    An index at or past the extent throws [out_of_range], whatever
    [keepIndex] is. *)
Theorem getRow_getCol_extract_cells
    {V : Type} `{Zero V} `{Iteration} (m : SparseMatrix.t V) :
  SparseMatrix.well_formed m = true ->
  (forall i, 0 <= i < SparseMatrix._rows m ->
     exists row, SparseMatrix.getRow i false m = Returned row /\
       SparseMatrix._rows row = 1 /\
       SparseMatrix._cols row = SparseMatrix._cols m /\
       forall j, 0 <= j < SparseMatrix._cols m ->
         SparseMatrix._matrix row !! j
         = SparseMatrix._matrix m !! (i * SparseMatrix._cols m + j)) /\
  (forall j, 0 <= j < SparseMatrix._cols m ->
     exists col, SparseMatrix.getCol j false m = Returned col /\
       SparseMatrix._rows col = SparseMatrix._rows m /\
       SparseMatrix._cols col = 1 /\
       forall i, 0 <= i < SparseMatrix._rows m ->
         SparseMatrix._matrix col !! i
         = SparseMatrix._matrix m !! (i * SparseMatrix._cols m + j)) /\
  (forall i b, SparseMatrix._rows m <= i ->
     SparseMatrix.getRow i b m = Thrown (out_of_range "Index out of range")) /\
  (forall j b, SparseMatrix._cols m <= j ->
     SparseMatrix.getCol j b m = Thrown (out_of_range "Index out of range")).
Proof.
  intros Hwf. split; [|split; [|split]].
  - intros i Hi. eexists. split; [apply (getRow_false_run m i Hwf Hi)|].
    simpl. split; [reflexivity|]. split; [reflexivity|].
    intros j Hj. rewrite (getRow_false_lookup m i j Hwf Hi).
    rewrite decide_True by exact Hj. reflexivity.
  - intros j Hj. eexists. split; [apply (getCol_false_run m j Hwf Hj)|].
    simpl. split; [reflexivity|]. split; [reflexivity|].
    intros i Hi. rewrite (getCol_false_lookup m j i Hwf Hj).
    rewrite decide_True by exact Hi. reflexivity.
  - intros i b Hi. unfold SparseMatrix.getRow. rewrite Z.geb_leb.
    destruct (Z.leb_spec (SparseMatrix._rows m) i); [reflexivity | lia].
  - intros j b Hj. unfold SparseMatrix.getCol. rewrite Z.geb_leb.
    destruct (Z.leb_spec (SparseMatrix._cols m) j); [reflexivity | lia].
Qed.

Lemma getRow_getCol_extract_cells_witness :
  SparseMatrix.getRow 2 true weighted22
  = Thrown (out_of_range "Index out of range").
Proof.
  destruct (getRow_getCol_extract_cells weighted22 eq_refl) as (_ & _ & Hr & _).
  apply Hr. vm_compute. discriminate.
Defined.

(** X17.  [emptyRow(i)] of a well-formed matrix removes the stored entries
    of row [i] and nothing else, [emptyColumn(j)] those of column [j]; the
    extents stay.  An index at or past the extent throws [out_of_range] and
    leaves the matrix as it was. *)
Theorem emptyRow_emptyColumn_remove_entries
    {V : Type} `{Zero V} `{Iteration} (m : SparseMatrix.t V) :
  SparseMatrix.well_formed m = true ->
  (forall i, 0 <= i < SparseMatrix._rows m ->
     SparseMatrix.emptyRow i m
     = (Returned tt,
        SparseMatrix.with_matrix
          (filter (fun kv : Z * V => kv.1 `div` SparseMatrix._cols m <> i)
             (SparseMatrix._matrix m)) m)) /\
  (forall j, 0 <= j < SparseMatrix._cols m ->
     SparseMatrix.emptyColumn j m
     = (Returned tt,
        SparseMatrix.with_matrix
          (filter (fun kv : Z * V => kv.1 `mod` SparseMatrix._cols m <> j)
             (SparseMatrix._matrix m)) m)) /\
  (forall i, SparseMatrix._rows m <= i ->
     SparseMatrix.emptyRow i m
     = (Thrown (out_of_range "Index out of range"), m)) /\
  (forall j, SparseMatrix._cols m <= j ->
     SparseMatrix.emptyColumn j m
     = (Thrown (out_of_range "Index out of range"), m)).
Proof.
  intros Hwf.
  pose proof (well_formed_spec m Hwf) as (Hr & Hc & Hfit & Hkeys).
  split; [|split; [|split]].
  - intros i Hi. unfold SparseMatrix.emptyRow.
    rewrite (observe_run _ _ m _ (getRow_false_run m i Hwf Hi)).
    cbn [SparseMatrix._matrix].
    rewrite (for_each_fold
               (fun T : SparseMatrix.t V =>
                  SparseMatrix._rows T = SparseMatrix._rows m /\
                  SparseMatrix._cols T = SparseMatrix._cols m /\
                  SparseMatrix._defaultReturn T = SparseMatrix._defaultReturn m)
               (fun kv : Z * V => 0 <= kv.1 < SparseMatrix._cols m)
               (fun T kv => SparseMatrix.with_matrix
                  (delete (i * SparseMatrix._cols m + kv.1)
                     (SparseMatrix._matrix T)) T)).
    + f_equal.
      rewrite (foldl_with_matrix
                 (fun a (kv : Z * V) => delete (i * SparseMatrix._cols m + kv.1) a)).
      unfold SparseMatrix.with_matrix. f_equal.
      apply map_eq. intros k.
      rewrite (foldl_delete_lookup (fun kv : Z * V => i * SparseMatrix._cols m + kv.1)).
      apply option_eq. intros v. rewrite map_lookup_filter_Some. simpl.
      destruct (decide _) as [Hin|Hnin].
      * split; [discriminate|]. intros [Hv Hne]. exfalso.
        apply list_elem_of_fmap in Hin as ([j w] & -> & Hin). simpl in *.
        rewrite iteration_perm in Hin. apply elem_of_map_to_list in Hin.
        rewrite (getRow_false_lookup m i j Hwf Hi) in Hin.
        destruct (decide (0 <= j < SparseMatrix._cols m)) as [Hj|];
          [|discriminate].
        apply Hne. rewrite Z.add_comm, Z.div_add by lia.
        rewrite Z.div_small by lia. lia.
      * split; [|intros [Hv _]; exact Hv]. intros Hv. split; [exact Hv|].
        intros Hrow. apply Hnin. pose proof (Hkeys _ _ Hv) as Hk.
        destruct (div_mod_in_extent _ _ k Hr Hc Hfit Hk) as (Hpos & Hq & Hm & _).
        pose proof (Z.div_mod k (SparseMatrix._cols m) ltac:(lia)) as Hdm.
        apply list_elem_of_fmap.
        exists (k `mod` SparseMatrix._cols m, v). simpl. split; [lia|].
        rewrite iteration_perm. apply elem_of_map_to_list.
        rewrite (getRow_false_lookup m i _ Hwf Hi).
        rewrite decide_True by exact Hm. rewrite <- Hv. f_equal. lia.
    + intros [j w] T Hj (HTr & HTc & HTd). simpl in Hj.
      split; [|repeat split; assumption].
      unfold modify. f_equal. f_equal. f_equal.
      destruct (linear_in_extent T i j) as [Hlin _];
        [lia | lia | rewrite HTr, HTc; exact Hfit|].
      rewrite Hlin, HTc. reflexivity.
    + apply Forall_forall. intros [j w] Hin. simpl.
      rewrite iteration_perm in Hin. apply elem_of_map_to_list in Hin.
      rewrite (getRow_false_lookup m i j Hwf Hi) in Hin.
      destruct (decide (0 <= j < SparseMatrix._cols m)); [assumption | discriminate].
    + repeat split; reflexivity.
  - intros j Hj. unfold SparseMatrix.emptyColumn.
    rewrite (observe_run _ _ m _ (getCol_false_run m j Hwf Hj)).
    cbn [SparseMatrix._matrix].
    rewrite (for_each_fold
               (fun T : SparseMatrix.t V =>
                  SparseMatrix._rows T = SparseMatrix._rows m /\
                  SparseMatrix._cols T = SparseMatrix._cols m /\
                  SparseMatrix._defaultReturn T = SparseMatrix._defaultReturn m)
               (fun kv : Z * V => 0 <= kv.1 < SparseMatrix._rows m)
               (fun T kv => SparseMatrix.with_matrix
                  (delete (kv.1 * SparseMatrix._cols m + j)
                     (SparseMatrix._matrix T)) T)).
    + f_equal.
      rewrite (foldl_with_matrix
                 (fun a (kv : Z * V) => delete (kv.1 * SparseMatrix._cols m + j) a)).
      unfold SparseMatrix.with_matrix. f_equal.
      apply map_eq. intros k.
      rewrite (foldl_delete_lookup (fun kv : Z * V => kv.1 * SparseMatrix._cols m + j)).
      apply option_eq. intros v. rewrite map_lookup_filter_Some. simpl.
      destruct (decide _) as [Hin|Hnin].
      * split; [discriminate|]. intros [Hv Hne]. exfalso.
        apply list_elem_of_fmap in Hin as ([i w] & -> & Hin). simpl in *.
        apply Hne. rewrite Z.add_comm, Z.mod_add by lia.
        apply Z.mod_small. lia.
      * split; [|intros [Hv _]; exact Hv]. intros Hv. split; [exact Hv|].
        intros Hcol. apply Hnin. pose proof (Hkeys _ _ Hv) as Hk.
        destruct (div_mod_in_extent _ _ k Hr Hc Hfit Hk) as (Hpos & Hq & Hm & _).
        pose proof (Z.div_mod k (SparseMatrix._cols m) ltac:(lia)) as Hdm.
        apply list_elem_of_fmap.
        exists (k `div` SparseMatrix._cols m, v). simpl. split; [lia|].
        rewrite iteration_perm. apply elem_of_map_to_list.
        rewrite (getCol_false_lookup m j _ Hwf Hj).
        rewrite decide_True by exact Hq. rewrite <- Hv. f_equal. lia.
    + intros [i w] T Hi (HTr & HTc & HTd). simpl in Hi.
      split; [|repeat split; assumption].
      unfold modify. f_equal. f_equal. f_equal.
      destruct (linear_in_extent T i j) as [Hlin _];
        [lia | lia | rewrite HTr, HTc; exact Hfit|].
      rewrite Hlin, HTc. reflexivity.
    + apply Forall_forall. intros [i w] Hin. simpl.
      rewrite iteration_perm in Hin. apply elem_of_map_to_list in Hin.
      rewrite (getCol_false_lookup m j i Hwf Hj) in Hin.
      destruct (decide (0 <= i < SparseMatrix._rows m)); [assumption | discriminate].
    + repeat split; reflexivity.
  - intros i Hi. unfold SparseMatrix.emptyRow, SparseMatrix.getRow.
    unfold mbind, M_bind, bind, observe. rewrite Z.geb_leb.
    destruct (Z.leb_spec (SparseMatrix._rows m) i); [reflexivity | lia].
  - intros j Hj. unfold SparseMatrix.emptyColumn, SparseMatrix.getCol.
    unfold mbind, M_bind, bind, observe. rewrite Z.geb_leb.
    destruct (Z.leb_spec (SparseMatrix._cols m) j); [reflexivity | lia].
Qed.

Lemma emptyRow_emptyColumn_remove_entries_witness :
  SparseMatrix.emptyRow 0 weighted22
  = (Returned tt,
     SparseMatrix.with_matrix
       (filter (fun kv : Z * _ => kv.1 `div` SparseMatrix._cols weighted22 <> 0)
          (SparseMatrix._matrix weighted22)) weighted22).
Proof.
  destruct (emptyRow_emptyColumn_remove_entries weighted22 eq_refl) as (Hr & _).
  apply Hr. vm_compute. split; [discriminate | reflexivity].
Defined.

(** ** SparseMatrix: strength vector *)

Section StrengthFacts.
Import SparseMatrix.
Context {R : Type} `{Zero R} `{Real R} `{Iteration}.

(** The running sums of the loop of [getStrengthVector]. *)
Lemma foldl_strength_lookup n (l : list (Z * R)) (acc : gmap Z R) i :
  foldl (fun a (kv : Z * R) =>
           <[kv.1 `div` n := radd (default zero (a !! (kv.1 `div` n))) kv.2]> a)
    acc l !! i
  = if decide (filter (in_row n i) l = []) then acc !! i
    else Some (foldl (fun s (kv : Z * R) => radd s kv.2)
                 (default zero (acc !! i)) (filter (in_row n i) l)).
Proof.
  revert acc. induction l as [|[k v] l IH]; intros acc.
  - reflexivity.
  - simpl foldl. rewrite IH, filter_cons.
    destruct (decide (in_row n i (k, v))) as [D|D]; unfold in_row in D;
      simpl in D.
    + rewrite (decide_False (P := _ :: _ = [])) by discriminate.
      subst i. rewrite lookup_insert_eq. simpl.
      destruct (decide _) as [E|E]; [rewrite E|]; reflexivity.
    + rewrite lookup_insert_ne by exact D. reflexivity.
Qed.

End StrengthFacts.

(** X18.  [getStrengthVector()] of a well-formed square matrix returns a
    column of [rows] cells.  Row [i] of it is not stored when the row has no
    stored entry, and otherwise holds the values of the row's entries added
    up one after the other, starting from zero, in the order in which the
    loop visits the table.  A matrix that is not square throws. *)
Theorem strength_adds_row_in_visit_order
    {R : Type} `{Zero R} `{Real R} `{Iteration} (m : SparseMatrix.t R) :
  SparseMatrix.well_formed m = true ->
  (SparseMatrix._rows m = SparseMatrix._cols m ->
   exists sv, SparseMatrix.getStrengthVector m = Returned sv /\
     SparseMatrix._rows sv = SparseMatrix._rows m /\
     SparseMatrix._cols sv = 1 /\
     forall i,
       SparseMatrix._matrix sv !! i
       = if decide (filter (SparseMatrix.in_row (SparseMatrix._cols m) i)
                      (iteration (SparseMatrix._matrix m)) = [])
         then None
         else Some (foldl (fun s (kv : Z * R) => radd s kv.2) zero
                      (filter (SparseMatrix.in_row (SparseMatrix._cols m) i)
                         (iteration (SparseMatrix._matrix m))))) /\
  (SparseMatrix._rows m <> SparseMatrix._cols m ->
   SparseMatrix.getStrengthVector m
   = Thrown (runtime_error "getStrengthVector only works on square matrices")).
Proof.
  intros Hwf. pose proof (iteration_in_extent m Hwf) as Hext.
  apply well_formed_spec in Hwf as (Hr & Hc & Hfit & _).
  split.
  - intros Hsq. unfold SparseMatrix.getStrengthVector.
    rewrite (proj2 (Z.eqb_eq _ _) Hsq). simpl negb. cbv iota.
    unfold filled.
    rewrite (for_each_fold
               (fun T : SparseMatrix.t R =>
                  SparseMatrix._rows T = SparseMatrix._rows m /\
                  SparseMatrix._cols T = 1 /\
                  SparseMatrix._defaultReturn T = zero)
               (fun kv : Z * R =>
                  0 <= kv.1 < SparseMatrix._rows m * SparseMatrix._cols m)
               (fun T kv => SparseMatrix.with_matrix
                  (<[kv.1 `div` SparseMatrix._cols m :=
                       radd (default zero
                               (SparseMatrix._matrix T
                                  !! (kv.1 `div` SparseMatrix._cols m))) kv.2]>
                     (SparseMatrix._matrix T)) T)).
    + eexists. split; [reflexivity|].
      rewrite (foldl_with_matrix
                 (fun a (kv : Z * R) =>
                    <[kv.1 `div` SparseMatrix._cols m :=
                        radd (default zero (a !! (kv.1 `div` SparseMatrix._cols m)))
                          kv.2]> a)).
      simpl. split; [reflexivity|]. split; [reflexivity|].
      intros i. rewrite foldl_strength_lookup, lookup_empty. reflexivity.
    + intros [k v] T Hk (HTr & HTc & HTd). simpl in Hk.
      destruct (div_mod_in_extent _ _ k Hr Hc Hfit Hk) as (Hpos & Hq & _ & _).
      split; [|repeat split; assumption].
      rewrite (bind_run _ _ _ _ _ (udiv_run k (SparseMatrix._cols m) T ltac:(lia))).
      assert (Hfit' : SparseMatrix._rows T * SparseMatrix._cols T <= modulus)
        by (rewrite HTr, HTc; nia).
      rewrite (observe_run _ _ T _
                 (at_cell_in_extent T (k `div` SparseMatrix._cols m) 0
                    ltac:(lia) ltac:(lia) Hfit')).
      rewrite insert_or_assign_in_extent by (assumption || lia).
      unfold SparseMatrix.cell. rewrite HTc, HTd.
      replace (k `div` SparseMatrix._cols m * 1 + 0)
        with (k `div` SparseMatrix._cols m) by lia.
      reflexivity.
    + exact Hext.
    + repeat split; reflexivity.
  - intros Hne. unfold SparseMatrix.getStrengthVector.
    rewrite (proj2 (Z.eqb_neq _ _) Hne). reflexivity.
Qed.

Lemma strength_adds_row_in_visit_order_witness :
  exists sv, SparseMatrix.getStrengthVector halves = Returned sv /\
    SparseMatrix._matrix sv !! 0 = Some (0 + (1 # 2) + (- 3 # 2))%Q.
Proof.
  destruct (strength_adds_row_in_visit_order halves eq_refl) as [Hsq _].
  destruct (Hsq eq_refl) as (sv & Hrun & _ & _ & Hcells).
  exists sv. split; [exact Hrun|]. rewrite Hcells. reflexivity.
Defined.

(** ** SparseMatrix: reshaping to a column and expanding *)

Section ColumnFacts.
Import SparseMatrix.
Context {V : Type} `{Zero V} `{Iteration}.

Lemma NoDup_iteration_keys (mp : gmap Z V) : NoDup (iteration mp).*1.
Proof. rewrite (iteration_perm _ mp). apply NoDup_fst_map_to_list. Qed.

(** The loop of [reshape(index)]: every visited key is erased and put back
    when it is below [index]. *)
Lemma foldl_truncate_lookup idx (l : list (Z * V)) (acc : gmap Z V) k :
  NoDup l.*1 ->
  foldl (fun a (kv : Z * V) =>
           if kv.1 <? idx then <[kv.1 := kv.2]> (delete kv.1 a)
           else delete kv.1 a) acc l !! k
  = match (list_to_map l : gmap Z V) !! k with
    | Some v => if decide (k < idx) then Some v else None
    | None => acc !! k
    end.
Proof.
  revert acc. induction l as [|[k1 v1] l IH]; intros acc Hnd.
  - reflexivity.
  - simpl in Hnd. apply NoDup_cons in Hnd as [Hk1 Hnd].
    simpl foldl. rewrite IH by exact Hnd. simpl.
    destruct (decide (k = k1)) as [->|Hne].
    + rewrite (not_elem_of_list_to_map_1 _ _ Hk1), lookup_insert_eq.
      destruct (Z.ltb_spec k1 idx).
      * rewrite lookup_insert_eq, decide_True by assumption. reflexivity.
      * rewrite lookup_delete_eq, decide_False by lia. reflexivity.
    + rewrite (lookup_insert_ne _ k1 k) by congruence.
      destruct (list_to_map l !! k); [reflexivity|].
      destruct (k1 <? idx).
      * rewrite lookup_insert_ne, lookup_delete_ne by congruence. reflexivity.
      * rewrite lookup_delete_ne by congruence. reflexivity.
Qed.

Lemma reshape_dim_run idx (m : t V) :
  is_uint32 idx ->
  reshape_dim idx m
  = (Returned tt,
     mk (filter (fun kv : Z * V => kv.1 < idx) (_matrix m)) idx 1
        (_defaultReturn m)).
Proof.
  intros Hidx. unfold is_uint32 in Hidx. unfold reshape_dim.
  rewrite (bind_run get _ m m m eq_refl).
  rewrite (bind_run (modify (with_dims idx 1)) _ m tt (with_dims idx 1 m) eq_refl).
  cbv zeta.
  rewrite (for_each_fold
             (fun T : t V => _rows T = idx /\ _cols T = 1)
             (fun _ : Z * V => True)
             (fun T kv => with_matrix
                (if kv.1 <? idx then <[kv.1 := kv.2]> (delete kv.1 (_matrix T))
                 else delete kv.1 (_matrix T)) T)).
  - f_equal.
    rewrite (foldl_with_matrix
               (fun a (kv : Z * V) =>
                  if kv.1 <? idx then <[kv.1 := kv.2]> (delete kv.1 a)
                  else delete kv.1 a)).
    unfold with_matrix, with_dims. simpl. f_equal.
    apply map_eq. intros k.
    rewrite (foldl_truncate_lookup idx) by apply NoDup_iteration_keys.
    rewrite list_to_map_iteration.
    apply option_eq. intros v. rewrite map_lookup_filter_Some. simpl.
    destruct (_matrix m !! k) as [w|] eqn:E.
    + destruct (decide (k < idx)).
      * split; [intros; split; assumption | intros [? _]; assumption].
      * split; [discriminate | intros [_ ?]; contradiction].
    + split; [discriminate | intros [? _]; discriminate].
  - intros [k v] T _ [HTr HTc]. simpl.
    split; [|split; assumption].
    rewrite (bind_run (modify (fun m0 => with_matrix (delete k (_matrix m0)) m0))
               _ T tt (with_matrix (delete k (_matrix T)) T) eq_refl).
    destruct (Z.ltb_spec k idx) as [Hlt|Hge]; [|reflexivity].
    rewrite insert_or_assign_index_run.
    replace (k >? last_index (with_matrix (delete k (_matrix T)) T)) with false;
      [reflexivity|].
    symmetry. rewrite Z.gtb_ltb. apply Z.ltb_ge.
    unfold last_index, with_matrix. simpl. rewrite HTr, HTc, Z.mul_1_r.
    rewrite (wrap_small idx) by exact Hidx.
    destruct (Z.eq_dec idx 0) as [->|Hnz].
    + change (wrap (0 - 1)) with (modulus - 1). lia.
    + rewrite wrap_small by lia. lia.
  - apply Forall_forall. intros; exact I.
  - split; reflexivity.
Qed.

Lemma wrap_pred z : 1 <= z <= modulus -> wrap (z + (modulus - 1)) = z - 1.
Proof.
  intros Hz. unfold wrap.
  replace (z + (modulus - 1)) with (z - 1 + 1 * modulus) by lia.
  rewrite Z.mod_add by discriminate. apply Z.mod_small. lia.
Qed.

End ColumnFacts.

(** X19.  [reshape(index)] makes the matrix a column of [index] cells and
    keeps exactly the entries whose key is below [index], whatever the
    order in which it visits the table; when every key is below [index],
    the table is as before. *)
Theorem reshape_to_column_keeps_keys_below
    {V : Type} `{Zero V} `{Iteration} (m : SparseMatrix.t V) (index : Z) :
  is_uint32 index ->
  SparseMatrix.reshape_dim index m
  = (Returned tt,
     SparseMatrix.mk
       (filter (fun kv : Z * V => kv.1 < index) (SparseMatrix._matrix m))
       index 1 (SparseMatrix._defaultReturn m)) /\
  ((forall k v, SparseMatrix._matrix m !! k = Some v -> k < index) ->
   SparseMatrix._matrix (SparseMatrix.reshape_dim index m).2
   = SparseMatrix._matrix m).
Proof.
  intros Hidx. rewrite (reshape_dim_run index m Hidx). split; [reflexivity|].
  intros Hkeys. simpl. apply map_filter_id. intros k v Hv. simpl.
  exact (Hkeys k v Hv).
Qed.

Lemma reshape_to_column_keeps_keys_below_witness :
  SparseMatrix.reshape_dim 1 weighted22
  = (Returned tt,
     SparseMatrix.mk
       (filter (fun kv : Z * Z => kv.1 < 1) (SparseMatrix._matrix weighted22))
       1 1 0).
Proof.
  apply (reshape_to_column_keeps_keys_below weighted22 1).
  vm_compute. split; [discriminate | reflexivity].
Defined.

(** X20.  [insert_and_expand] does not expand a column.  On a well-formed
    matrix with one column and at least one row, a row index [i] at or past
    the extent, with column 0, leaves both extents as they were: the
    unsigned difference [j - _cols] wraps to the largest index, the
    increment wraps it to 0.  The value is stored under key [i], outside
    the extent, and reading cell [(i, 0)] afterwards throws. *)
Theorem insert_and_expand_column_not_expanded
    {V : Type} `{Zero V} `{Iteration} (m : SparseMatrix.t V) (i : Z) (v : V) :
  SparseMatrix.well_formed m = true ->
  SparseMatrix._cols m = 1 -> 1 <= SparseMatrix._rows m ->
  SparseMatrix._rows m <= i < modulus ->
  SparseMatrix.insert_and_expand i 0 v m
  = (Returned tt,
     SparseMatrix.with_matrix (<[i := v]> (SparseMatrix._matrix m)) m) /\
  SparseMatrix.at_cell i 0 (SparseMatrix.insert_and_expand i 0 v m).2
  = Thrown (out_of_range "Index out of range").
Proof.
  intros Hwf Hc1 Hr1 Hi.
  apply well_formed_spec in Hwf as (Hr & Hc & Hfit & Hkeys).
  assert (Hrun : SparseMatrix.insert_and_expand i 0 v m
                 = (Returned tt,
                    SparseMatrix.with_matrix
                      (<[i := v]> (SparseMatrix._matrix m)) m)).
  { unfold SparseMatrix.insert_and_expand.
    rewrite (bind_run get _ m m m eq_refl). rewrite Hc1.
    destruct (Z.ltb_spec i (SparseMatrix._rows m)) as [|_]; [lia|].
    simpl negb. simpl orb. cbv iota zeta.
    change (wrap (0 - 1)) with (modulus - 1).
    pose proof (wrap_range (i - SparseMatrix._rows m)) as Hw.
    rewrite (Z.max_r _ (modulus - 1)) by lia.
    change (1 =? 1) with true. cbv iota.
    rewrite (wrap_pred i) by lia.
    rewrite (wrap_pred (SparseMatrix._rows m)) by lia.
    destruct (Z.ltb_spec (i - 1) (SparseMatrix._rows m - 1)) as [|_]; [lia|].
    simpl negb. cbv iota.
    replace (modulus - 1 + 1) with modulus by lia.
    change (wrap modulus) with 0. rewrite Z.add_0_r.
    rewrite (wrap_small (SparseMatrix._rows m)) by lia.
    rewrite (bind_run _ _ m tt _
               (reshape_dim_run (SparseMatrix._rows m) m ltac:(unfold is_uint32; lia))).
    unfold modify, SparseMatrix.with_matrix, SparseMatrix.linear. simpl.
    rewrite Hc1, Z.mul_1_r, Z.add_0_r.
    rewrite (wrap_small i) by lia. rewrite (wrap_small i) by lia.
    rewrite map_filter_id; [reflexivity|].
    intros k w Hw'. simpl. apply Hkeys in Hw'. lia. }
  split; [exact Hrun|]. rewrite Hrun. simpl.
  unfold SparseMatrix.at_cell, SparseMatrix.with_matrix. simpl.
  rewrite Z.geb_leb. destruct (Z.leb_spec (SparseMatrix._rows m) i); [|lia].
  reflexivity.
Qed.

Lemma insert_and_expand_column_not_expanded_witness :
  SparseMatrix.insert_and_expand 5 0 7 (SparseMatrix.mk {[0 := 1]} 2 1 0)
  = (Returned tt, SparseMatrix.mk {[5 := 7; 0 := 1]} 2 1 0).
Proof.
  refine (proj1 (insert_and_expand_column_not_expanded
                   (SparseMatrix.mk {[0 := 1]} 2 1 0) 5 7 eq_refl eq_refl _ _)).
  - simpl. lia.
  - simpl. unfold modulus. lia.
Defined.

(** ** SparseMatrix: the assigning operators and [symmetrize] *)

Section AssignFacts.
Import SparseMatrix.
Context {V : Type} `{Zero V} `{Arith V} `{Iteration}.

Lemma foldl_assign_lookup (op : V -> V -> V) (ng : V -> V)
    (l : list (Z * V)) (acc : gmap Z V) k :
  NoDup l.*1 ->
  foldl (fun a (kv : Z * V) =>
           <[kv.1 := match a !! kv.1 with
                     | Some x => op x kv.2
                     | None => ng kv.2
                     end]> a) acc l !! k
  = match (list_to_map l : gmap Z V) !! k with
    | Some w => Some (match acc !! k with
                      | Some x => op x w
                      | None => ng w
                      end)
    | None => acc !! k
    end.
Proof.
  revert acc. induction l as [|[k1 v1] l IH]; intros acc Hnd.
  - reflexivity.
  - simpl in Hnd. apply NoDup_cons in Hnd as [Hk1 Hnd].
    simpl foldl. rewrite IH by exact Hnd. simpl.
    destruct (decide (k = k1)) as [->|Hne].
    + rewrite (not_elem_of_list_to_map_1 _ _ Hk1), !lookup_insert_eq.
      reflexivity.
    + rewrite !(lookup_insert_ne _ k1 k) by congruence. reflexivity.
Qed.

(** The loop of [operator+=] and [operator-=]. *)
Lemma assign_loop_run (op : V -> V -> V) (ng : V -> V) (m other : t V) :
  0 <= _rows m -> 0 <= _cols m -> _rows m * _cols m < modulus ->
  (forall k v, _matrix other !! k = Some v -> 0 <= k < _rows m * _cols m) ->
  for_each (iteration (_matrix other)) (fun '(first, second) =>
    c ← observe (contains_index first);
    if c : bool then
      x ← observe (at_index first);
      insert_or_assign_index first (op x second)
    else insert_index first (ng second)) m
  = (Returned tt,
     with_matrix
       (foldl (fun a (kv : Z * V) =>
                 <[kv.1 := match a !! kv.1 with
                           | Some x => op x kv.2
                           | None => ng kv.2
                           end]> a) (_matrix m) (iteration (_matrix other))) m).
Proof.
  intros Hr Hc Hfit Hkeys.
  rewrite (for_each_fold
             (fun T : t V => _rows T = _rows m /\ _cols T = _cols m /\
                             _defaultReturn T = _defaultReturn m)
             (fun kv : Z * V => 0 <= kv.1 < _rows m * _cols m)
             (fun T kv => with_matrix
                (<[kv.1 := match _matrix T !! kv.1 with
                           | Some x => op x kv.2
                           | None => ng kv.2
                           end]> (_matrix T)) T)).
  - f_equal.
    exact (foldl_with_matrix
             (fun a (kv : Z * V) =>
                <[kv.1 := match a !! kv.1 with
                          | Some x => op x kv.2
                          | None => ng kv.2
                          end]> a) (iteration (_matrix other)) m).
  - intros [k v] T Hk (HTr & HTc & HTd). simpl in Hk.
    split; [|repeat split; assumption].
    assert (Hin : (k >? last_index T) = false)
      by (apply in_extent_last_index; rewrite HTr, HTc; lia).
    assert (Hcont : contains_index k T
                    = Returned (bool_decide (is_Some (_matrix T !! k))))
      by (unfold contains_index; rewrite Hin; reflexivity).
    rewrite (observe_run _ _ T _ Hcont). simpl.
    destruct (_matrix T !! k) as [x|] eqn:E.
    + rewrite bool_decide_eq_true_2 by eauto.
      assert (Hat : at_index k T = Returned x).
      { unfold at_index. rewrite HTr, HTc, (wrap_small (_ * _)) by lia.
        rewrite Z.geb_leb.
        destruct (Z.leb_spec (_rows m * _cols m) k); [lia|].
        rewrite E. reflexivity. }
      rewrite (observe_run _ _ T _ Hat).
      rewrite insert_or_assign_index_run, Hin. reflexivity.
    + rewrite bool_decide_eq_false_2 by (intros [? ?]; discriminate).
      rewrite insert_index_run, Hin. unfold emplace. rewrite E. reflexivity.
  - apply Forall_forall. intros [k v] Hin. simpl.
    rewrite iteration_perm in Hin. apply elem_of_map_to_list in Hin.
    exact (Hkeys k v Hin).
  - repeat split; reflexivity.
Qed.

Lemma assign_loop_lookup (op : V -> V -> V) (ng : V -> V) (m other : t V) k :
  foldl (fun a (kv : Z * V) =>
           <[kv.1 := match a !! kv.1 with
                     | Some x => op x kv.2
                     | None => ng kv.2
                     end]> a) (_matrix m) (iteration (_matrix other)) !! k
  = match _matrix other !! k with
    | Some w => Some (match _matrix m !! k with
                      | Some x => op x w
                      | None => ng w
                      end)
    | None => _matrix m !! k
    end.
Proof.
  rewrite foldl_assign_lookup by apply NoDup_iteration_keys.
  rewrite list_to_map_iteration. reflexivity.
Qed.

Lemma dimensions_differ_false (m other : t V) :
  _rows m = _rows other -> _cols m = _cols other ->
  dimensions_differ m other = false.
Proof.
  intros Hr Hc. unfold dimensions_differ. rewrite Hr, Hc, !Z.eqb_refl.
  reflexivity.
Qed.

Lemma dimensions_differ_true (m other : t V) :
  _rows m <> _rows other \/ _cols m <> _cols other ->
  dimensions_differ m other = true.
Proof.
  intros Hd. unfold dimensions_differ.
  destruct (Z.eqb_spec (_rows m) (_rows other)),
    (Z.eqb_spec (_cols m) (_cols other)); try reflexivity.
  destruct Hd; contradiction.
Qed.

Lemma add_assign_run (m other : t V) :
  well_formed m = true -> well_formed other = true ->
  _rows m * _cols m < modulus ->
  _rows m = _rows other -> _cols m = _cols other ->
  add_assign other m
  = (Returned tt,
     with_matrix
       (foldl (fun a (kv : Z * V) =>
                 <[kv.1 := match a !! kv.1 with
                           | Some x => vadd x kv.2
                           | None => kv.2
                           end]> a) (_matrix m) (iteration (_matrix other))) m).
Proof.
  intros Hwf Hwfo Hfit Hr Hc.
  apply well_formed_spec in Hwf as (Hr0 & Hc0 & _ & _).
  apply well_formed_spec in Hwfo as (_ & _ & _ & Hkeys).
  rewrite <- Hr, <- Hc in Hkeys.
  unfold add_assign. rewrite (bind_run get _ m m m eq_refl).
  rewrite (dimensions_differ_false m other Hr Hc).
  rewrite (bind_run (throw_if false _) _ m tt m eq_refl).
  exact (assign_loop_run vadd (fun x => x) m other Hr0 Hc0 Hfit Hkeys).
Qed.

End AssignFacts.

(** X21.  [operator+=] and [operator-=] on well-formed matrices of equal
    extents with fewer than [2^32] cells return, and work entry by entry on
    the stored keys of the right operand: where the left operand stores a
    value too, the two are combined, elsewhere the right value (for [-=]
    its negation) is stored; keys that the right operand does not store
    stay as they are.  With different extents both throw and the left
    operand is unchanged. *)
Theorem assign_operators_work_on_stored_entries
    {V : Type} `{Zero V} `{Arith V} `{Iteration} (m other : SparseMatrix.t V) :
  SparseMatrix.well_formed m = true ->
  SparseMatrix.well_formed other = true ->
  SparseMatrix._rows m * SparseMatrix._cols m < modulus ->
  (SparseMatrix._rows m = SparseMatrix._rows other ->
   SparseMatrix._cols m = SparseMatrix._cols other ->
   exists A S,
     SparseMatrix.add_assign other m
     = (Returned tt, SparseMatrix.with_matrix A m) /\
     SparseMatrix.sub_assign other m
     = (Returned tt, SparseMatrix.with_matrix S m) /\
     forall k,
       A !! k = match SparseMatrix._matrix other !! k with
                | Some w => Some (match SparseMatrix._matrix m !! k with
                                  | Some x => vadd x w
                                  | None => w
                                  end)
                | None => SparseMatrix._matrix m !! k
                end /\
       S !! k = match SparseMatrix._matrix other !! k with
                | Some w => Some (match SparseMatrix._matrix m !! k with
                                  | Some x => vsub x w
                                  | None => vneg w
                                  end)
                | None => SparseMatrix._matrix m !! k
                end) /\
  (SparseMatrix._rows m <> SparseMatrix._rows other \/
   SparseMatrix._cols m <> SparseMatrix._cols other ->
   SparseMatrix.add_assign other m
   = (Thrown (runtime_error "Dimensions do not match"), m) /\
   SparseMatrix.sub_assign other m
   = (Thrown (runtime_error "Dimensions do not match"), m)).
Proof.
  intros Hwf Hwfo Hfit. split.
  - intros Hr Hc. eexists. eexists.
    split; [exact (add_assign_run m other Hwf Hwfo Hfit Hr Hc)|].
    apply well_formed_spec in Hwf as (Hr0 & Hc0 & _ & _).
    apply well_formed_spec in Hwfo as (_ & _ & _ & Hkeys).
    rewrite <- Hr, <- Hc in Hkeys. split.
    + unfold SparseMatrix.sub_assign. rewrite (bind_run get _ m m m eq_refl).
      rewrite (dimensions_differ_false m other Hr Hc).
      rewrite (bind_run (throw_if false _) _ m tt m eq_refl).
      exact (assign_loop_run vsub vneg m other Hr0 Hc0 Hfit Hkeys).
    + intros k. split.
      * exact (assign_loop_lookup vadd (fun x => x) m other k).
      * exact (assign_loop_lookup vsub vneg m other k).
  - intros Hd. unfold SparseMatrix.add_assign, SparseMatrix.sub_assign.
    rewrite !(bind_run get _ m m m eq_refl).
    rewrite (dimensions_differ_true m other Hd). split; reflexivity.
Qed.

Lemma assign_operators_work_on_stored_entries_witness :
  exists A, SparseMatrix.add_assign triangle triangle
            = (Returned tt, SparseMatrix.with_matrix A triangle) /\
            A !! 1 = Some true /\ A !! 0 = None.
Proof.
  destruct (assign_operators_work_on_stored_entries triangle triangle
              eq_refl eq_refl) as [Hsame _].
  - vm_compute. reflexivity.
  - destruct (Hsame eq_refl eq_refl) as (A & S & Hadd & _ & Hcells).
    exists A. split; [exact Hadd|].
    split; [rewrite (proj1 (Hcells 1)) | rewrite (proj1 (Hcells 0))];
      reflexivity.
Defined.

(** X22.  [symmetrize()] of a well-formed square matrix with fewer than
    [2^32] cells returns; afterwards cell [(i, j)] is stored exactly when
    cell [(i, j)] or cell [(j, i)] was, and, when [+] is commutative on the
    values, cells [(i, j)] and [(j, i)] store the same.  On a well-formed
    matrix that is not square it throws after building the transpose, and
    the matrix is unchanged. *)
Theorem symmetrize_makes_symmetric
    {V : Type} `{Zero V} `{Arith V} `{Iteration} (m : SparseMatrix.t V) :
  SparseMatrix.well_formed m = true ->
  SparseMatrix._rows m * SparseMatrix._cols m < modulus ->
  (SparseMatrix._rows m = SparseMatrix._cols m ->
   exists S,
     SparseMatrix.symmetrize m = (Returned tt, SparseMatrix.with_matrix S m) /\
     forall i j, 0 <= i < SparseMatrix._rows m -> 0 <= j < SparseMatrix._rows m ->
       (is_Some (S !! (i * SparseMatrix._rows m + j)) <->
        is_Some (SparseMatrix._matrix m !! (i * SparseMatrix._rows m + j)) \/
        is_Some (SparseMatrix._matrix m !! (j * SparseMatrix._rows m + i))) /\
       ((forall x y : V, vadd x y = vadd y x) ->
        S !! (i * SparseMatrix._rows m + j) = S !! (j * SparseMatrix._rows m + i))) /\
  (SparseMatrix._rows m <> SparseMatrix._cols m ->
   SparseMatrix.symmetrize m
   = (Thrown (runtime_error "Dimensions do not match"), m)).
Proof.
  intros Hwf Hfit.
  destruct (transpose_spec m Hwf) as (T & Hrun & HTr & HTc & HTwf & Hcells).
  split.
  - intros Hsq. eexists. split.
    + unfold SparseMatrix.symmetrize. rewrite (observe_run _ _ m _ Hrun).
      apply (add_assign_run m T Hwf HTwf Hfit); congruence.
    + assert (Hlook : forall i j,
        0 <= i < SparseMatrix._rows m -> 0 <= j < SparseMatrix._rows m ->
        foldl (fun a (kv : Z * V) =>
                 <[kv.1 := match a !! kv.1 with
                           | Some x => vadd x kv.2
                           | None => kv.2
                           end]> a) (SparseMatrix._matrix m)
          (iteration (SparseMatrix._matrix T)) !! (i * SparseMatrix._rows m + j)
        = match SparseMatrix._matrix m !! (j * SparseMatrix._rows m + i) with
          | Some w => Some (match SparseMatrix._matrix m
                                    !! (i * SparseMatrix._rows m + j) with
                            | Some x => vadd x w
                            | None => w
                            end)
          | None => SparseMatrix._matrix m !! (i * SparseMatrix._rows m + j)
          end).
      { intros i j Hi Hj.
        rewrite (assign_loop_lookup vadd (fun x => x) m T).
        rewrite (Hcells j i) by (rewrite <- ?Hsq; assumption).
        rewrite <- Hsq. reflexivity. }
      intros i j Hi Hj. rewrite (Hlook i j Hi Hj), (Hlook j i Hj Hi). split.
      * destruct (SparseMatrix._matrix m !! (j * SparseMatrix._rows m + i)),
          (SparseMatrix._matrix m !! (i * SparseMatrix._rows m + j));
          split; eauto; intros [[? ?]|[? ?]]; discriminate.
      * intros Hcomm.
        destruct (SparseMatrix._matrix m !! (j * SparseMatrix._rows m + i)),
          (SparseMatrix._matrix m !! (i * SparseMatrix._rows m + j));
          try reflexivity. f_equal. apply Hcomm.
  - intros Hne. unfold SparseMatrix.symmetrize.
    rewrite (observe_run _ _ m _ Hrun).
    unfold SparseMatrix.add_assign. rewrite (bind_run get _ m m m eq_refl).
    rewrite (dimensions_differ_true m T) by (left; congruence).
    reflexivity.
Qed.

Lemma symmetrize_makes_symmetric_witness :
  exists S,
    SparseMatrix.symmetrize triangle
    = (Returned tt, SparseMatrix.with_matrix S triangle) /\
    S !! (1 * 3 + 0) = S !! (0 * 3 + 1).
Proof.
  destruct (symmetrize_makes_symmetric triangle eq_refl) as [Hsq _].
  - vm_compute. reflexivity.
  - destruct (Hsq eq_refl) as (S & Hrun & Hcells).
    exists S. split; [exact Hrun|].
    apply (Hcells 1 0); [simpl; lia | simpl; lia |].
    intros [] []; reflexivity.
Defined.

(** ** SparseMatrix: sum and difference *)

Section CombineFacts.
Import SparseMatrix.
Context {V : Type} `{Zero V} `{Arith V} `{Iteration}.

Lemma elem_of_iteration_keys {W} (mp : gmap Z W) k :
  k ∈ (iteration mp).*1 <-> is_Some (mp !! k).
Proof.
  rewrite (iteration_perm _ mp), list_elem_of_fmap. split.
  - intros ([k' v] & -> & Hin). apply elem_of_map_to_list in Hin. eauto.
  - intros [v Hv]. exists (k, v). split; [reflexivity|].
    apply elem_of_map_to_list. exact Hv.
Qed.

Lemma foldl_mark_lookup (l : list (Z * V)) (acc : gmap Z bool) k :
  foldl (fun u (it : Z * V) => <[it.1 := true]> u) acc l !! k
  = if decide (k ∈ l.*1) then Some true else acc !! k.
Proof.
  revert acc. induction l as [|[k1 v1] l IH]; intros acc.
  - simpl. destruct (decide (k ∈ [])) as [E|]; [inversion E | reflexivity].
  - simpl foldl. rewrite IH. simpl.
    destruct (decide (k ∈ l.*1)) as [E|E].
    + rewrite decide_True by (right; exact E). reflexivity.
    + destruct (decide (k = k1)) as [->|Hne].
      * rewrite decide_True by left. apply lookup_insert_eq.
      * rewrite decide_False by (intros Hin; inversion Hin; subst; contradiction).
        apply lookup_insert_ne. congruence.
Qed.

Lemma unique_lookup (m other : t V) k :
  unique m other !! k
  = if decide (is_Some (_matrix m !! k) \/ is_Some (_matrix other !! k))
    then Some true else None.
Proof.
  unfold unique. rewrite !foldl_mark_lookup, lookup_empty.
  destruct (decide (k ∈ (iteration (_matrix other)).*1)) as [E|E];
    rewrite elem_of_iteration_keys in E.
  - rewrite decide_True by (right; exact E). reflexivity.
  - destruct (decide (k ∈ (iteration (_matrix m)).*1)) as [E'|E'];
      rewrite elem_of_iteration_keys in E'.
    + rewrite decide_True by (left; exact E'). reflexivity.
    + rewrite decide_False by (intros [?|?]; contradiction). reflexivity.
Qed.

Lemma foldl_emplace_keyed {W} (g : Z -> V) (l : list (Z * W)) (acc : gmap Z V) k :
  foldl (fun a (kv : Z * W) => emplace kv.1 (g kv.1) a) acc l !! k
  = match acc !! k with
    | Some x => Some x
    | None => if decide (k ∈ l.*1) then Some (g k) else None
    end.
Proof.
  revert acc. induction l as [|[k1 v1] l IH]; intros acc.
  - simpl. destruct (acc !! k); [reflexivity|].
    destruct (decide (k ∈ [])) as [E|]; [inversion E | reflexivity].
  - simpl foldl. rewrite IH, lookup_emplace. simpl.
    destruct (acc !! k); [reflexivity|].
    destruct (decide (k1 = k)) as [->|Hne].
    + rewrite decide_True by left. reflexivity.
    + destruct (decide (k ∈ l.*1)) as [E|E].
      * rewrite decide_True by (right; exact E). reflexivity.
      * rewrite decide_False; [reflexivity|].
        intros Hin; inversion Hin; subst; contradiction.
Qed.

Lemma combine_spec (op : V -> V -> V) (m other : t V) :
  well_formed m = true -> well_formed other = true ->
  _rows m * _cols m < modulus ->
  _rows m = _rows other -> _cols m = _cols other ->
  exists R, combine op m other = Returned R /\
    _rows R = _rows m /\ _cols R = _cols m /\
    forall k,
      _matrix R !! k
      = if decide (is_Some (_matrix m !! k) \/ is_Some (_matrix other !! k))
        then Some (op (default (_defaultReturn m) (_matrix m !! k))
                      (default (_defaultReturn other) (_matrix other !! k)))
        else None.
Proof.
  intros Hwf Hwfo Hfit Hrows Hcols.
  apply well_formed_spec in Hwf as (Hr & Hc & _ & Hkeys).
  apply well_formed_spec in Hwfo as (_ & _ & _ & Hkeyso).
  rewrite <- Hrows, <- Hcols in Hkeyso.
  unfold combine. rewrite (dimensions_differ_false m other Hrows Hcols).
  unfold filled.
  rewrite (for_each_fold
             (fun T : t V => _rows T = _rows m /\ _cols T = _cols m)
             (fun kv : Z * bool => 0 <= kv.1 < _rows m * _cols m)
             (fun T kv => with_matrix
                (emplace kv.1
                   (op (default (_defaultReturn m) (_matrix m !! kv.1))
                       (default (_defaultReturn other) (_matrix other !! kv.1)))
                   (_matrix T)) T)).
  - eexists. split; [reflexivity|].
    rewrite (foldl_with_matrix
               (fun a (kv : Z * bool) =>
                  emplace kv.1
                    (op (default (_defaultReturn m) (_matrix m !! kv.1))
                        (default (_defaultReturn other) (_matrix other !! kv.1)))
                    a)).
    simpl. split; [reflexivity|]. split; [reflexivity|]. intros k.
    rewrite (foldl_emplace_keyed
               (fun k => op (default (_defaultReturn m) (_matrix m !! k))
                            (default (_defaultReturn other) (_matrix other !! k)))).
    rewrite lookup_empty.
    destruct (decide (k ∈ (iteration (unique m other)).*1)) as [E|E];
      rewrite elem_of_iteration_keys, unique_lookup in E;
      destruct (decide (is_Some (_matrix m !! k) \/ is_Some (_matrix other !! k)))
        as [D|D]; try reflexivity.
    + destruct E as [? E]. discriminate.
    + exfalso. apply E. eauto.
  - intros [k b] T Hk [HTr HTc]. simpl in Hk.
    destruct (div_mod_in_extent _ _ k Hr Hc ltac:(lia) Hk)
      as (Hpos & Hq & Hm & Hlin).
    split; [|split; assumption].
    rewrite (bind_run _ _ _ _ _ (udiv_run k (_cols m) T ltac:(lia))).
    rewrite (bind_run _ _ _ _ _ (umod_run k (_cols m) T ltac:(lia))).
    assert (Hat : forall o : t V, _rows o = _rows m -> _cols o = _cols m ->
              at_index k o = Returned (default (_defaultReturn o) (_matrix o !! k))).
    { intros o Hor Hoc. unfold at_index.
      rewrite Hor, Hoc, (wrap_small (_ * _)) by lia. rewrite Z.geb_leb.
      destruct (Z.leb_spec (_rows m * _cols m) k); [lia | reflexivity]. }
    rewrite (observe_run (fun _ => at_index k m) _ T _ (Hat m eq_refl eq_refl)).
    rewrite (observe_run (fun _ => at_index k other) _ T _
               (Hat other (eq_sym Hrows) (eq_sym Hcols))).
    unfold insert. rewrite (bind_run get _ T T T eq_refl).
    unfold linear. rewrite HTc, Hlin.
    rewrite insert_index_run, in_extent_last_index;
      [reflexivity | rewrite HTr, HTc; lia | rewrite HTr, HTc; lia].
  - apply Forall_forall. intros [k b] Hin. simpl.
    assert (Hk : k ∈ (iteration (unique m other)).*1).
    { apply list_elem_of_fmap. exists (k, b). split; [reflexivity | exact Hin]. }
    rewrite elem_of_iteration_keys, unique_lookup in Hk.
    destruct (decide _) as [[[v Hv]|[v Hv]]|]; [| |destruct Hk; discriminate].
    + exact (Hkeys k v Hv).
    + exact (Hkeyso k v Hv).
  - split; reflexivity.
Qed.

End CombineFacts.

(** X23.  [operator+] and [operator-] of well-formed matrices of equal
    extents with fewer than [2^32] cells return a matrix of the same
    extents that stores an entry under every key that either operand
    stores, and no other: the sum, or the difference, of what the two
    operands read there, the default where one of them stores nothing.  So
    a difference keeps a stored entry where the operands agree.  With
    different extents both throw. *)
Theorem sum_and_difference_store_every_key
    {V : Type} `{Zero V} `{Arith V} `{Iteration} (m other : SparseMatrix.t V) :
  SparseMatrix.well_formed m = true ->
  SparseMatrix.well_formed other = true ->
  SparseMatrix._rows m * SparseMatrix._cols m < modulus ->
  (SparseMatrix._rows m = SparseMatrix._rows other ->
   SparseMatrix._cols m = SparseMatrix._cols other ->
   exists P D,
     SparseMatrix.add m other = Returned P /\
     SparseMatrix.sub m other = Returned D /\
     SparseMatrix._rows P = SparseMatrix._rows m /\
     SparseMatrix._cols P = SparseMatrix._cols m /\
     SparseMatrix._rows D = SparseMatrix._rows m /\
     SparseMatrix._cols D = SparseMatrix._cols m /\
     forall k,
       SparseMatrix._matrix P !! k
       = (if decide (is_Some (SparseMatrix._matrix m !! k) \/
                     is_Some (SparseMatrix._matrix other !! k))
          then Some (vadd (default (SparseMatrix._defaultReturn m)
                             (SparseMatrix._matrix m !! k))
                          (default (SparseMatrix._defaultReturn other)
                             (SparseMatrix._matrix other !! k)))
          else None) /\
       SparseMatrix._matrix D !! k
       = (if decide (is_Some (SparseMatrix._matrix m !! k) \/
                     is_Some (SparseMatrix._matrix other !! k))
          then Some (vsub (default (SparseMatrix._defaultReturn m)
                             (SparseMatrix._matrix m !! k))
                          (default (SparseMatrix._defaultReturn other)
                             (SparseMatrix._matrix other !! k)))
          else None)) /\
  (SparseMatrix._rows m <> SparseMatrix._rows other \/
   SparseMatrix._cols m <> SparseMatrix._cols other ->
   SparseMatrix.add m other = Thrown (runtime_error "Dimensions do not match") /\
   SparseMatrix.sub m other = Thrown (runtime_error "Dimensions do not match")).
Proof.
  intros Hwf Hwfo Hfit. split.
  - intros Hr Hc.
    destruct (combine_spec vadd m other Hwf Hwfo Hfit Hr Hc)
      as (P & HP & HPr & HPc & HPk).
    destruct (combine_spec vsub m other Hwf Hwfo Hfit Hr Hc)
      as (D & HD & HDr & HDc & HDk).
    exists P, D. repeat (split; [assumption|]).
    intros k. split; [apply HPk | apply HDk].
  - intros Hd. unfold SparseMatrix.add, SparseMatrix.sub, SparseMatrix.combine.
    rewrite (dimensions_differ_true m other Hd). split; reflexivity.
Qed.

Lemma sum_and_difference_store_every_key_witness :
  exists D, SparseMatrix.sub triangle triangle = Returned D /\
    SparseMatrix._matrix D !! 1 = Some false.
Proof.
  destruct (sum_and_difference_store_every_key triangle triangle
              eq_refl eq_refl) as [Hsame _].
  - vm_compute. reflexivity.
  - destruct (Hsame eq_refl eq_refl) as (P & D & _ & HD & _ & _ & _ & _ & Hk).
    exists D. split; [exact HD|]. rewrite (proj2 (Hk 1)). reflexivity.
Defined.

(** ** SparseMatrix: erasing a row *)

Section EraseRowFacts.
Import SparseMatrix.
Context {V : Type} `{Zero V} `{Iteration}.

Lemma div_of_cell c i j : 0 <= j < c -> (i * c + j) `div` c = i.
Proof.
  intros Hj. rewrite Z.add_comm, Z.div_add by lia.
  rewrite Z.div_small by lia. lia.
Qed.

Lemma div_shift_up k c : 0 < c -> (k + c) `div` c = k `div` c + 1.
Proof.
  intros Hc. replace (k + c) with (k + 1 * c) by lia.
  rewrite Z.div_add by lia. reflexivity.
Qed.

Lemma div_shift_down k c : 0 < c -> (k - c) `div` c = k `div` c - 1.
Proof.
  intros Hc. replace (k - c) with (k + (-1) * c) by lia.
  rewrite Z.div_add by lia. lia.
Qed.

Lemma key_before_without c idx k :
  0 < c -> k `div` c <> idx ->
  key_before_row c idx (key_without_row c idx k) = k.
Proof.
  intros Hc Hne. unfold key_before_row, key_without_row.
  destruct (Z.ltb_spec (k `div` c) idx) as [Hlt|Hge].
  - destruct (Z.ltb_spec (k `div` c) idx); lia.
  - rewrite div_shift_down by exact Hc.
    destruct (Z.ltb_spec (k `div` c - 1) idx); lia.
Qed.

Lemma key_before_row_cell c idx i j :
  0 <= j < c ->
  key_before_row c idx (i * c + j) = (if i <? idx then i else i + 1) * c + j /\
  key_without_row c idx (key_before_row c idx (i * c + j)) = i * c + j.
Proof.
  intros Hj. unfold key_before_row, key_without_row.
  rewrite (div_of_cell c i j Hj).
  destruct (Z.ltb_spec i idx) as [Hlt|Hge].
  - rewrite (div_of_cell c i j Hj).
    destruct (Z.ltb_spec i idx); [split; reflexivity | lia].
  - rewrite div_shift_up, (div_of_cell c i j Hj) by lia.
    destruct (Z.ltb_spec (i + 1) idx); [lia|]. split; lia.
Qed.

Lemma key_without_row_bound r c idx k :
  0 <= idx < r -> 0 < c -> 0 <= k < r * c -> k `div` c <> idx ->
  0 <= key_without_row c idx k < (r - 1) * c.
Proof.
  intros Hidx Hc Hk Hne. unfold key_without_row.
  pose proof (Z.div_mod k c ltac:(lia)) as Hdm.
  pose proof (Z.mod_pos_bound k c Hc) as Hmod.
  assert (Hq : 0 <= k `div` c < r).
  { split; [apply Z.div_pos; lia|]. apply Z.div_lt_upper_bound; lia. }
  destruct (Z.ltb_spec (k `div` c) idx) as [Hlt|Hge].
  - assert (c * (k `div` c) <= c * (idx - 1)) by nia. nia.
  - assert (c * (idx + 1) <= c * (k `div` c)) by nia. nia.
Qed.

(** The first loop of [eraseRow]. *)
Lemma eraseRow_erase_loop (m : t V) idx :
  for_each (seqZ 0 (_cols m)) (fun i =>
    modify (fun m0 => with_matrix (delete (linear m0 idx i) (_matrix m0)) m0)) m
  = (Returned tt,
     with_matrix
       (foldl (fun a i => delete (linear m idx i) a) (_matrix m)
          (seqZ 0 (_cols m))) m).
Proof.
  rewrite (for_each_fold
             (fun T : t V => _cols T = _cols m)
             (fun _ : Z => True)
             (fun T i => with_matrix (delete (linear m idx i) (_matrix T)) T)).
  - f_equal.
    exact (foldl_with_matrix (fun a i => delete (linear m idx i) a)
             (seqZ 0 (_cols m)) m).
  - intros i T _ HTc. split; [|exact HTc].
    unfold modify, linear. rewrite HTc. reflexivity.
  - apply Forall_forall. intros; exact I.
  - reflexivity.
Qed.

(** The first loop of [eraseColumn]. *)
Lemma eraseColumn_erase_loop (m : t V) idx :
  for_each (seqZ 0 (_rows m)) (fun i =>
    modify (fun m0 => with_matrix (delete (linear m0 i idx) (_matrix m0)) m0)) m
  = (Returned tt,
     with_matrix
       (foldl (fun a i => delete (linear m i idx) a) (_matrix m)
          (seqZ 0 (_rows m))) m).
Proof.
  rewrite (for_each_fold
             (fun T : t V => _cols T = _cols m)
             (fun _ : Z => True)
             (fun T i => with_matrix (delete (linear m i idx) (_matrix T)) T)).
  - f_equal.
    exact (foldl_with_matrix (fun a i => delete (linear m i idx) a)
             (seqZ 0 (_rows m)) m).
  - intros i T _ HTc. split; [|exact HTc].
    unfold modify, linear. rewrite HTc. reflexivity.
  - apply Forall_forall. intros; exact I.
  - reflexivity.
Qed.

Lemma foldl_delete_empty {A} (g : A -> Z) (l : list A) :
  foldl (fun a x => delete (g x) a) (∅ : gmap Z V) l = ∅.
Proof.
  apply map_eq. intros k. rewrite foldl_delete_lookup, lookup_empty.
  destruct (decide _); reflexivity.
Qed.

(** What the first loop of [eraseRow] leaves. *)
Lemma erase_row_cells (m : t V) idx :
  well_formed m = true -> 0 <= idx < _rows m ->
  foldl (fun a i => delete (linear m idx i) a) (_matrix m) (seqZ 0 (_cols m))
  = filter (fun kv : Z * V => kv.1 `div` _cols m <> idx) (_matrix m).
Proof.
  intros Hwf Hidx. apply well_formed_spec in Hwf as (Hr & Hc & Hfit & Hkeys).
  apply map_eq. intros k.
  rewrite (foldl_delete_lookup (fun i => linear m idx i)).
  apply option_eq. intros v. rewrite map_lookup_filter_Some. simpl.
  destruct (decide (k ∈ (fun i => linear m idx i) <$> seqZ 0 (_cols m)))
    as [Hin|Hnin].
  - split; [discriminate|]. intros [_ Hne]. exfalso. apply Hne.
    apply list_elem_of_fmap in Hin as (i & -> & Hi).
    apply elem_of_seqZ in Hi.
    destruct (linear_in_extent m idx i Hidx ltac:(lia) Hfit) as [-> _].
    apply div_of_cell. lia.
  - split; [|intros [Hv _]; exact Hv]. intros Hv. split; [exact Hv|].
    intros Heq. apply Hnin. pose proof (Hkeys _ _ Hv) as Hk.
    destruct (div_mod_in_extent _ _ k Hr Hc Hfit Hk) as (Hpos & Hq & Hm & _).
    pose proof (Z.div_mod k (_cols m) ltac:(lia)) as Hdm.
    apply list_elem_of_fmap. exists (k `mod` _cols m). split.
    + destruct (linear_in_extent m idx (k `mod` _cols m) Hidx Hm Hfit) as [-> _].
      lia.
    + apply elem_of_seqZ. lia.
Qed.

(** The second loop of [eraseRow]. *)
Lemma eraseRow_rekey_loop (m : t V) idx (mp : gmap Z V) :
  0 <= _rows m -> 0 <= _cols m -> _rows m * _cols m <= modulus ->
  0 <= idx ->
  (forall k v, mp !! k = Some v ->
     0 <= k < _rows m * _cols m /\ k `div` _cols m <> idx) ->
  filled (∅ : gmap Z V)
    (for_each (iteration mp) (fun '(key, value) =>
       q ← udiv key (_cols m);
       if q <? idx then modify (emplace key value)
       else modify (emplace (wrap (key - _cols m)) value)))
  = Returned (foldl (fun a (kv : Z * V) =>
                       emplace (key_without_row (_cols m) idx kv.1) kv.2 a)
                ∅ (iteration mp)).
Proof.
  intros Hr Hc Hfit Hidx Hkeys. unfold filled.
  rewrite (for_each_fold
             (fun _ : gmap Z V => True)
             (fun kv : Z * V =>
                0 <= kv.1 < _rows m * _cols m /\ kv.1 `div` _cols m <> idx)
             (fun a kv => emplace (key_without_row (_cols m) idx kv.1) kv.2 a)).
  - reflexivity.
  - intros [k v] a [Hk Hne] _. simpl in Hk, Hne. split; [|exact I].
    destruct (div_mod_in_extent _ _ k Hr Hc Hfit Hk) as (Hpos & Hq & Hm & _).
    rewrite (bind_run _ _ _ _ _ (udiv_run k (_cols m) a ltac:(lia))).
    unfold key_without_row. simpl.
    destruct (Z.ltb_spec (k `div` _cols m) idx) as [Hlt|Hge]; [reflexivity|].
    pose proof (Z.div_mod k (_cols m) ltac:(lia)) as Hdm.
    assert (_cols m * (idx + 1) <= _cols m * (k `div` _cols m)) by nia.
    rewrite wrap_small by nia. reflexivity.
  - apply Forall_forall. intros [k v] Hin. simpl.
    rewrite iteration_perm in Hin. apply elem_of_map_to_list in Hin.
    exact (Hkeys k v Hin).
  - exact I.
Qed.

Lemma eraseRow_run (m : t V) idx :
  well_formed m = true -> 0 <= idx < _rows m -> _rows m < modulus ->
  eraseRow idx m
  = (Returned tt,
     mk (foldl (fun a (kv : Z * V) =>
                  emplace (key_without_row (_cols m) idx kv.1) kv.2 a)
           ∅ (iteration (filter (fun kv : Z * V => kv.1 `div` _cols m <> idx)
                           (_matrix m))))
        (_rows m - 1) (_cols m) (_defaultReturn m)).
Proof.
  intros Hwf Hidx Hrows.
  pose proof (well_formed_spec m Hwf) as (Hr & Hc & Hfit & Hkeys).
  unfold eraseRow. rewrite (bind_run get _ m m m eq_refl).
  rewrite (wrap_small (_rows m - 1)) by lia.
  destruct (Z.gtb_spec idx (_rows m - 1)) as [|_]; [lia|].
  rewrite (bind_run (throw_if false _) _ m tt m eq_refl).
  rewrite (bind_run _ _ m tt _ (eraseRow_erase_loop m idx)).
  rewrite (erase_row_cells m idx Hwf Hidx).
  rewrite (bind_run get _ _ _ _ eq_refl).
  unfold mbind, M_bind, bind, observe.
  cbn [_matrix _rows _cols _defaultReturn with_matrix].
  rewrite (eraseRow_rekey_loop m idx _ Hr Hc Hfit ltac:(lia)).
  - unfold put. rewrite (wrap_small (_rows m - 1)) by lia. reflexivity.
  - intros k v Hv. apply map_lookup_filter_Some in Hv as [Hv Hne].
    split; [exact (Hkeys k v Hv) | exact Hne].
Qed.

Lemma eraseRow_lookup (m : t V) idx k' :
  well_formed m = true -> 0 <= idx < _rows m ->
  foldl (fun a (kv : Z * V) =>
           emplace (key_without_row (_cols m) idx kv.1) kv.2 a)
    ∅ (iteration (filter (fun kv : Z * V => kv.1 `div` _cols m <> idx)
                    (_matrix m))) !! k'
  = if decide (key_without_row (_cols m) idx
                 (key_before_row (_cols m) idx k') = k')
    then filter (fun kv : Z * V => kv.1 `div` _cols m <> idx) (_matrix m)
           !! key_before_row (_cols m) idx k'
    else None.
Proof.
  intros Hwf Hidx.
  pose proof (well_formed_spec m Hwf) as (Hr & Hc & Hfit & Hkeys).
  rewrite (foldl_rekey_lookup (key_without_row (_cols m) idx)
             (key_before_row (_cols m) idx)).
  - rewrite lookup_empty, list_to_map_iteration. reflexivity.
  - apply Forall_forall. intros [k v] Hin. simpl.
    rewrite iteration_perm in Hin. apply elem_of_map_to_list in Hin.
    apply map_lookup_filter_Some in Hin as [Hv Hne]. simpl in Hne.
    apply Hkeys in Hv.
    apply key_before_without; [nia | exact Hne].
Qed.

End EraseRowFacts.

(** X24.  [eraseRow(index)] of a well-formed matrix, for a row inside the
    extent, returns with one row less and the same columns: the rows above
    [index] keep their place, the rows below move up by one, and the result
    is well-formed. *)
Theorem eraseRow_moves_rows_up
    {V : Type} `{Zero V} `{Iteration} (m : SparseMatrix.t V) (index : Z) :
  SparseMatrix.well_formed m = true ->
  0 <= index < SparseMatrix._rows m -> SparseMatrix._rows m < modulus ->
  exists m', SparseMatrix.eraseRow index m = (Returned tt, m') /\
    SparseMatrix._rows m' = SparseMatrix._rows m - 1 /\
    SparseMatrix._cols m' = SparseMatrix._cols m /\
    SparseMatrix.well_formed m' = true /\
    forall i j, 0 <= i < SparseMatrix._rows m - 1 ->
      0 <= j < SparseMatrix._cols m ->
      SparseMatrix._matrix m' !! (i * SparseMatrix._cols m + j)
      = SparseMatrix._matrix m
          !! ((if i <? index then i else i + 1) * SparseMatrix._cols m + j).
Proof.
  intros Hwf Hidx Hrows. eexists.
  split; [exact (eraseRow_run m index Hwf Hidx Hrows)|].
  pose proof (well_formed_spec m Hwf) as (Hr & Hc & Hfit & Hkeys).
  simpl. split; [reflexivity|]. split; [reflexivity|]. split.
  - apply well_formed_intro; simpl; [lia | exact Hc | nia |].
    intros k' v. rewrite (eraseRow_lookup m index k' Hwf Hidx).
    destruct (decide _) as [E|]; [|discriminate].
    intros Hv. apply map_lookup_filter_Some in Hv as [Hv Hne]. simpl in Hne.
    apply Hkeys in Hv. rewrite <- E.
    apply key_without_row_bound; [exact Hidx | nia | exact Hv | exact Hne].
  - intros i j Hi Hj. rewrite (eraseRow_lookup m index _ Hwf Hidx).
    destruct (key_before_row_cell (SparseMatrix._cols m) index i j Hj)
      as [Hb Hw].
    rewrite Hw, Hb. rewrite decide_True by reflexivity.
    apply option_eq. intros v. rewrite map_lookup_filter_Some. simpl.
    split; [intros [Hv _]; exact Hv|]. intros Hv. split; [exact Hv|].
    rewrite div_of_cell by exact Hj.
    destruct (Z.ltb_spec i index); lia.
Qed.

Lemma eraseRow_moves_rows_up_witness :
  exists m', SparseMatrix.eraseRow 0 triangle = (Returned tt, m') /\
    SparseMatrix._rows m' = 2 /\
    SparseMatrix._matrix m' !! (1 * 3 + 1) = Some true.
Proof.
  destruct (eraseRow_moves_rows_up triangle 0 eq_refl)
    as (m' & Hrun & Hr & _ & _ & Hcells).
  - simpl. lia.
  - simpl. unfold modulus. lia.
  - exists m'. split; [exact Hrun|]. split; [exact Hr|].
    refine (eq_trans (Hcells 1 1 _ _) _);
      [simpl; lia | simpl; lia | reflexivity].
Defined.

(** X25.  [eraseRow] and [eraseColumn] on an empty matrix without rows, or
    without columns: the bound [_rows - 1] of the check wraps to the
    largest index, so every index passes, and the decrement leaves the
    matrix with [2^32 - 1] rows, or columns. *)
Theorem erase_from_zero_extent_wraps
    {V : Type} `{Zero V} `{Iteration} (m : SparseMatrix.t V) (index : Z) :
  SparseMatrix._matrix m = ∅ -> is_uint32 index ->
  (SparseMatrix._rows m = 0 ->
   SparseMatrix.eraseRow index m
   = (Returned tt,
      SparseMatrix.mk ∅ (modulus - 1) (SparseMatrix._cols m)
        (SparseMatrix._defaultReturn m))) /\
  (SparseMatrix._cols m = 0 ->
   SparseMatrix.eraseColumn index m
   = (Returned tt,
      SparseMatrix.mk ∅ (SparseMatrix._rows m) (modulus - 1)
        (SparseMatrix._defaultReturn m))).
Proof.
  intros Hempty Hidx. unfold is_uint32 in Hidx. split.
  - intros Hr0. unfold SparseMatrix.eraseRow.
    rewrite (bind_run get _ m m m eq_refl). rewrite Hr0.
    change (wrap (0 - 1)) with (modulus - 1).
    destruct (Z.gtb_spec index (modulus - 1)) as [|_]; [lia|].
    rewrite (bind_run (throw_if false _) _ m tt m eq_refl).
    rewrite (bind_run _ _ m tt _ (eraseRow_erase_loop m index)).
    rewrite Hempty, foldl_delete_empty.
    rewrite (bind_run get _ _ _ _ eq_refl).
    unfold mbind, M_bind, bind, observe.
    cbn [SparseMatrix._matrix SparseMatrix._rows SparseMatrix._cols
         SparseMatrix._defaultReturn SparseMatrix.with_matrix].
    rewrite iteration_empty. simpl. unfold put. rewrite Hr0. reflexivity.
  - intros Hc0. unfold SparseMatrix.eraseColumn.
    rewrite (bind_run get _ m m m eq_refl). rewrite Hc0.
    change (wrap (0 - 1)) with (modulus - 1).
    destruct (Z.gtb_spec index (modulus - 1)) as [|_]; [lia|].
    rewrite (bind_run (throw_if false _) _ m tt m eq_refl).
    rewrite (bind_run _ _ m tt _ (eraseColumn_erase_loop m index)).
    rewrite Hempty, foldl_delete_empty.
    rewrite (bind_run get _ _ _ _ eq_refl).
    unfold mbind, M_bind, bind, observe.
    cbn [SparseMatrix._matrix SparseMatrix._rows SparseMatrix._cols
         SparseMatrix._defaultReturn SparseMatrix.with_matrix].
    rewrite iteration_empty. simpl. unfold put. rewrite Hc0. reflexivity.
Qed.

Lemma erase_from_zero_extent_wraps_witness :
  SparseMatrix.eraseRow 7 (SparseMatrix.mk (∅ : gmap Z Z) 0 3 0)
  = (Returned tt, SparseMatrix.mk ∅ (modulus - 1) 3 0).
Proof.
  refine (proj1 (erase_from_zero_extent_wraps
                   (SparseMatrix.mk (∅ : gmap Z Z) 0 3 0) 7 eq_refl _) eq_refl).
  vm_compute. split; [discriminate | reflexivity].
Defined.

(** ** SparseMatrix: erasing a cell, reshaping with the same columns *)

Section ReshapeFacts.
Import SparseMatrix.
Context {V : Type} `{Zero V} `{Iteration}.

Lemma reshape_rows_run rows (m : t V) :
  well_formed m = true -> 0 <= rows -> rows * _cols m < modulus ->
  reshape rows (_cols m) m
  = (Returned tt,
     mk (filter (fun kv : Z * V => kv.1 < rows * _cols m) (_matrix m))
        rows (_cols m) (_defaultReturn m)).
Proof.
  intros Hwf Hrows Hfit.
  pose proof (iteration_in_extent m Hwf) as Hext.
  apply well_formed_spec in Hwf as (Hr & Hc & _ & Hkeys).
  unfold reshape. rewrite (bind_run get _ m m m eq_refl). cbv zeta.
  rewrite (bind_run (modify (with_dims rows (_cols m))) _ m tt
             (with_dims rows (_cols m) m) eq_refl).
  rewrite (wrap_small (rows * _cols m)) by nia.
  rewrite (for_each_fold
             (fun T : t V => _rows T = rows /\ _cols T = _cols m)
             (fun kv : Z * V => 0 <= kv.1 < _rows m * _cols m)
             (fun T kv => with_matrix
                (if kv.1 <? rows * _cols m
                 then <[kv.1 := kv.2]> (delete kv.1 (_matrix T))
                 else delete kv.1 (_matrix T)) T)).
  - f_equal.
    rewrite (foldl_with_matrix
               (fun a (kv : Z * V) =>
                  if kv.1 <? rows * _cols m then <[kv.1 := kv.2]> (delete kv.1 a)
                  else delete kv.1 a)).
    unfold with_matrix, with_dims. simpl. f_equal.
    apply map_eq. intros k.
    rewrite (foldl_truncate_lookup (rows * _cols m)) by apply NoDup_iteration_keys.
    rewrite list_to_map_iteration.
    apply option_eq. intros v. rewrite map_lookup_filter_Some. simpl.
    destruct (_matrix m !! k) as [w|] eqn:E.
    + destruct (decide (k < rows * _cols m)).
      * split; [intros; split; assumption | intros [? _]; assumption].
      * split; [discriminate | intros [_ ?]; contradiction].
    + split; [discriminate | intros [? _]; discriminate].
  - intros [k v] T Hk [HTr HTc]. simpl in Hk. simpl.
    split; [|split; assumption].
    rewrite (bind_run (modify (fun m0 => with_matrix (delete k (_matrix m0)) m0))
               _ T tt (with_matrix (delete k (_matrix T)) T) eq_refl).
    destruct (Z.ltb_spec k (rows * _cols m)) as [Hlt|Hge]; [|reflexivity].
    destruct (div_mod_in_extent rows (_cols m) k Hrows Hc ltac:(lia) ltac:(lia))
      as (Hpos & Hq & Hm & Hlin).
    rewrite (bind_run _ _ _ _ _ (udiv_run k (_cols m) _ ltac:(lia))).
    rewrite (bind_run _ _ _ _ _ (umod_run k (_cols m) _ ltac:(lia))).
    unfold insert_or_assign. rewrite (bind_run get _ _ _ _ eq_refl).
    unfold linear. cbn [_cols with_matrix]. rewrite HTc, Hlin.
    rewrite insert_or_assign_index_run, in_extent_last_index;
      [reflexivity | simpl; rewrite HTr, HTc; lia | simpl; rewrite HTr, HTc; lia].
  - exact Hext.
  - split; reflexivity.
Qed.

End ReshapeFacts.

(** X26.  [erase(i, j)] of a cell inside the extent does what
    [erase(index)] does with the linear index [i * cols + j], as long as
    the number of cells does not exceed [2^32]; a row or column at or past
    the extent throws [out_of_range] and leaves the matrix as it was. *)
Theorem erase_cell_is_erase_of_linear_index
    {V : Type} `{Zero V} (m : SparseMatrix.t V) (i j : Z) :
  SparseMatrix._rows m * SparseMatrix._cols m <= modulus ->
  (0 <= i < SparseMatrix._rows m -> 0 <= j < SparseMatrix._cols m ->
   SparseMatrix.erase i j m
   = SparseMatrix.erase_index (i * SparseMatrix._cols m + j) m) /\
  (SparseMatrix._rows m <= i \/ SparseMatrix._cols m <= j ->
   SparseMatrix.erase i j m = (Thrown (out_of_range "Index out of range"), m)).
Proof.
  intros Hfit. split.
  - intros Hi Hj.
    destruct (linear_in_extent m i j Hi Hj Hfit) as [Hlin Hle].
    rewrite erase_index_run. unfold SparseMatrix.erase.
    rewrite (bind_run get _ m m m eq_refl), !Z.geb_leb, Hlin.
    destruct (Z.leb_spec (SparseMatrix._rows m) i); [lia|].
    destruct (Z.leb_spec (SparseMatrix._cols m) j); [lia|].
    destruct (Z.gtb_spec (i * SparseMatrix._cols m + j)
                (SparseMatrix.last_index m)); [lia|].
    rewrite (bind_run (throw_if (false || false) _) _ m tt m eq_refl).
    destruct (bool_decide (is_Some
                (SparseMatrix._matrix m !! (i * SparseMatrix._cols m + j))));
      [|reflexivity].
    rewrite (bind_run (throw_if (negb true) _) _ m tt m eq_refl).
    unfold modify. rewrite Hlin. reflexivity.
  - intros Hout. unfold SparseMatrix.erase.
    rewrite (bind_run get _ m m m eq_refl), !Z.geb_leb.
    destruct (Z.leb_spec (SparseMatrix._rows m) i);
      [reflexivity|].
    destruct (Z.leb_spec (SparseMatrix._cols m) j); [reflexivity | lia].
Qed.

Lemma erase_cell_is_erase_of_linear_index_witness :
  SparseMatrix.erase 0 0 m22 = SparseMatrix.erase_index (0 * 2 + 0) m22.
Proof.
  refine (proj1 (erase_cell_is_erase_of_linear_index m22 0 0 _) _ _).
  - vm_compute. discriminate.
  - simpl. lia.
  - simpl. lia.
Defined.

(** X27.  [reshape(rows, cols)] with the number of columns that the
    matrix has: on a well-formed matrix, with fewer than [2^32] cells
    afterwards, it sets the number of rows and keeps exactly the entries
    whose key is below the new number of cells, whatever the order in which
    it visits the table. *)
Theorem reshape_same_columns_keeps_keys_below
    {V : Type} `{Zero V} `{Iteration} (m : SparseMatrix.t V) (rows : Z) :
  SparseMatrix.well_formed m = true ->
  0 <= rows -> rows * SparseMatrix._cols m < modulus ->
  SparseMatrix.reshape rows (SparseMatrix._cols m) m
  = (Returned tt,
     SparseMatrix.mk
       (filter (fun kv : Z * V => kv.1 < rows * SparseMatrix._cols m)
          (SparseMatrix._matrix m))
       rows (SparseMatrix._cols m) (SparseMatrix._defaultReturn m)) /\
  (SparseMatrix._rows m <= rows ->
   SparseMatrix._matrix
     (SparseMatrix.reshape rows (SparseMatrix._cols m) m).2
   = SparseMatrix._matrix m).
Proof.
  intros Hwf Hrows Hfit. rewrite (reshape_rows_run rows m Hwf Hrows Hfit).
  split; [reflexivity|]. intros Hgrow. simpl.
  apply well_formed_spec in Hwf as (Hr & Hc & _ & Hkeys).
  apply map_filter_id. intros k v Hv. simpl. apply Hkeys in Hv. nia.
Qed.

Lemma reshape_same_columns_keeps_keys_below_witness :
  SparseMatrix.reshape 1 3 triangle
  = (Returned tt,
     SparseMatrix.mk
       (filter (fun kv : Z * bool => kv.1 < 1 * 3)
          (SparseMatrix._matrix triangle)) 1 3 false).
Proof.
  refine (proj1 (reshape_same_columns_keeps_keys_below triangle 1 eq_refl _ _)).
  - lia.
  - vm_compute. reflexivity.
Defined.

(** ** SparseMatrix: erasing a column *)

Section EraseColumnFacts.
Import SparseMatrix.
Context {V : Type} `{Zero V} `{Iteration}.

Lemma mod_of_cell c i j : 0 <= j < c -> (i * c + j) `mod` c = j.
Proof.
  intros Hj. rewrite Z.add_comm, Z.mod_add by lia. apply Z.mod_small. lia.
Qed.

Lemma key_before_without_col c idx k :
  0 <= idx < c -> k `mod` c <> idx ->
  key_before_col c idx (key_without_col c idx k) = k.
Proof.
  intros Hidx Hne. unfold key_before_col, key_without_col.
  pose proof (Z.div_mod k c ltac:(lia)) as Hdm.
  pose proof (Z.mod_pos_bound k c ltac:(lia)) as Hmod.
  destruct (Z.ltb_spec (k `mod` c) idx) as [Hlt|Hge].
  - rewrite (div_of_cell (c - 1)), (mod_of_cell (c - 1)) by lia.
    destruct (Z.ltb_spec (k `mod` c) idx); lia.
  - rewrite (div_of_cell (c - 1)), (mod_of_cell (c - 1)) by lia.
    destruct (Z.ltb_spec (k `mod` c - 1) idx); lia.
Qed.

Lemma key_before_col_cell c idx i j :
  0 <= idx -> 0 <= j < c - 1 ->
  key_before_col c idx (i * (c - 1) + j)
  = i * c + (if j <? idx then j else j + 1) /\
  key_before_col c idx (i * (c - 1) + j) `mod` c <> idx /\
  key_without_col c idx (key_before_col c idx (i * (c - 1) + j))
  = i * (c - 1) + j.
Proof.
  intros Hidx Hj. unfold key_before_col, key_without_col.
  rewrite (div_of_cell (c - 1)), (mod_of_cell (c - 1)) by lia.
  destruct (Z.ltb_spec j idx) as [Hlt|Hge].
  - rewrite (div_of_cell c), (mod_of_cell c) by lia.
    destruct (Z.ltb_spec j idx); [|lia]. repeat split; lia.
  - rewrite (div_of_cell c), (mod_of_cell c) by lia.
    destruct (Z.ltb_spec (j + 1) idx); [lia|]. repeat split; lia.
Qed.

Lemma key_without_col_bound r c idx k :
  0 <= idx < c -> 0 <= k < r * c -> k `mod` c <> idx ->
  0 <= key_without_col c idx k < r * (c - 1).
Proof.
  intros Hidx Hk Hne. unfold key_without_col.
  pose proof (Z.div_mod k c ltac:(lia)) as Hdm.
  pose proof (Z.mod_pos_bound k c ltac:(lia)) as Hmod.
  assert (Hq : 0 <= k `div` c < r).
  { split; [apply Z.div_pos; lia|]. apply Z.div_lt_upper_bound; lia. }
  assert (Hq' : k `div` c * (c - 1) <= (r - 1) * (c - 1)) by nia.
  assert (0 <= k `div` c * (c - 1)) by nia.
  destruct (Z.ltb_spec (k `mod` c) idx); nia.
Qed.

(** What the first loop of [eraseColumn] leaves. *)
Lemma erase_col_cells (m : t V) idx :
  well_formed m = true -> 0 <= idx < _cols m ->
  foldl (fun a i => delete (linear m i idx) a) (_matrix m) (seqZ 0 (_rows m))
  = filter (fun kv : Z * V => kv.1 `mod` _cols m <> idx) (_matrix m).
Proof.
  intros Hwf Hidx. apply well_formed_spec in Hwf as (Hr & Hc & Hfit & Hkeys).
  apply map_eq. intros k.
  rewrite (foldl_delete_lookup (fun i => linear m i idx)).
  apply option_eq. intros v. rewrite map_lookup_filter_Some. simpl.
  destruct (decide (k ∈ (fun i => linear m i idx) <$> seqZ 0 (_rows m)))
    as [Hin|Hnin].
  - split; [discriminate|]. intros [_ Hne]. exfalso. apply Hne.
    apply list_elem_of_fmap in Hin as (i & -> & Hi).
    apply elem_of_seqZ in Hi.
    destruct (linear_in_extent m i idx ltac:(lia) Hidx Hfit) as [-> _].
    apply mod_of_cell. lia.
  - split; [|intros [Hv _]; exact Hv]. intros Hv. split; [exact Hv|].
    intros Heq. apply Hnin. pose proof (Hkeys _ _ Hv) as Hk.
    destruct (div_mod_in_extent _ _ k Hr Hc Hfit Hk) as (Hpos & Hq & Hm & _).
    pose proof (Z.div_mod k (_cols m) ltac:(lia)) as Hdm.
    apply list_elem_of_fmap. exists (k `div` _cols m). split.
    + destruct (linear_in_extent m (k `div` _cols m) idx Hq Hidx Hfit) as [-> _].
      lia.
    + apply elem_of_seqZ. lia.
Qed.

(** The second loop of [eraseColumn]. *)
Lemma eraseColumn_rekey_loop (m : t V) idx (mp : gmap Z V) :
  0 <= _rows m -> 0 <= _cols m -> _rows m * _cols m <= modulus ->
  0 <= idx < _cols m ->
  (forall k v, mp !! k = Some v ->
     0 <= k < _rows m * _cols m /\ k `mod` _cols m <> idx) ->
  filled (∅ : gmap Z V)
    (for_each (iteration mp) (fun '(key, value) =>
       r ← umod key (_cols m);
       q ← udiv key (_cols m);
       if r <? idx then modify (emplace (wrap (key - q)) value)
       else
         modify (emplace
           (wrap (wrap (wrap (q * wrap (_cols m - 1)) + r) - 1)) value)))
  = Returned (foldl (fun a (kv : Z * V) =>
                       emplace (key_without_col (_cols m) idx kv.1) kv.2 a)
                ∅ (iteration mp)).
Proof.
  intros Hr Hc Hfit Hidx Hkeys. unfold filled.
  rewrite (for_each_fold
             (fun _ : gmap Z V => True)
             (fun kv : Z * V =>
                0 <= kv.1 < _rows m * _cols m /\ kv.1 `mod` _cols m <> idx)
             (fun a kv => emplace (key_without_col (_cols m) idx kv.1) kv.2 a)).
  - reflexivity.
  - intros [k v] a [Hk Hne] _. simpl in Hk, Hne. split; [|exact I].
    destruct (div_mod_in_extent _ _ k Hr Hc Hfit Hk) as (Hpos & Hq & Hm & _).
    pose proof (Z.div_mod k (_cols m) ltac:(lia)) as Hdm.
    rewrite (bind_run _ _ _ _ _ (umod_run k (_cols m) a ltac:(lia))).
    rewrite (bind_run _ _ _ _ _ (udiv_run k (_cols m) a ltac:(lia))).
    unfold key_without_col. simpl.
    assert (Hqc : 0 <= k `div` _cols m * (_cols m - 1) <= k) by nia.
    assert (Hcm : _cols m <= modulus) by nia.
    destruct (Z.ltb_spec (k `mod` _cols m) idx) as [Hlt|Hge].
    + rewrite wrap_small by nia. unfold modify. do 3 f_equal. nia.
    + rewrite (wrap_small (_cols m - 1)) by lia.
      rewrite (wrap_small (k `div` _cols m * (_cols m - 1))) by lia.
      rewrite (wrap_small (k `div` _cols m * (_cols m - 1) + k `mod` _cols m))
        by nia.
      rewrite wrap_small by nia. unfold modify. do 3 f_equal. lia.
  - apply Forall_forall. intros [k v] Hin. simpl.
    rewrite iteration_perm in Hin. apply elem_of_map_to_list in Hin.
    exact (Hkeys k v Hin).
  - exact I.
Qed.

Lemma eraseColumn_run (m : t V) idx :
  well_formed m = true -> 0 <= idx < _cols m -> _cols m < modulus ->
  eraseColumn idx m
  = (Returned tt,
     mk (foldl (fun a (kv : Z * V) =>
                  emplace (key_without_col (_cols m) idx kv.1) kv.2 a)
           ∅ (iteration (filter (fun kv : Z * V => kv.1 `mod` _cols m <> idx)
                           (_matrix m))))
        (_rows m) (_cols m - 1) (_defaultReturn m)).
Proof.
  intros Hwf Hidx Hcols.
  pose proof (well_formed_spec m Hwf) as (Hr & Hc & Hfit & Hkeys).
  unfold eraseColumn. rewrite (bind_run get _ m m m eq_refl).
  rewrite (wrap_small (_cols m - 1)) by lia.
  destruct (Z.gtb_spec idx (_cols m - 1)) as [|_]; [lia|].
  rewrite (bind_run (throw_if false _) _ m tt m eq_refl).
  rewrite (bind_run _ _ m tt _ (eraseColumn_erase_loop m idx)).
  rewrite (erase_col_cells m idx Hwf Hidx).
  rewrite (bind_run get _ _ _ _ eq_refl).
  unfold mbind, M_bind, bind, observe.
  cbn [_matrix _rows _cols _defaultReturn with_matrix].
  rewrite (eraseColumn_rekey_loop m idx _ Hr Hc Hfit Hidx).
  - unfold put. rewrite (wrap_small (_cols m - 1)) by lia. reflexivity.
  - intros k v Hv. apply map_lookup_filter_Some in Hv as [Hv Hne].
    split; [exact (Hkeys k v Hv) | exact Hne].
Qed.

Lemma eraseColumn_lookup (m : t V) idx k' :
  well_formed m = true -> 0 <= idx < _cols m ->
  foldl (fun a (kv : Z * V) =>
           emplace (key_without_col (_cols m) idx kv.1) kv.2 a)
    ∅ (iteration (filter (fun kv : Z * V => kv.1 `mod` _cols m <> idx)
                    (_matrix m))) !! k'
  = if decide (key_without_col (_cols m) idx
                 (key_before_col (_cols m) idx k') = k')
    then filter (fun kv : Z * V => kv.1 `mod` _cols m <> idx) (_matrix m)
           !! key_before_col (_cols m) idx k'
    else None.
Proof.
  intros Hwf Hidx.
  rewrite (foldl_rekey_lookup (key_without_col (_cols m) idx)
             (key_before_col (_cols m) idx)).
  - rewrite lookup_empty, list_to_map_iteration. reflexivity.
  - apply Forall_forall. intros [k v] Hin. simpl.
    rewrite iteration_perm in Hin. apply elem_of_map_to_list in Hin.
    apply map_lookup_filter_Some in Hin as [Hv Hne]. simpl in Hne.
    apply key_before_without_col; assumption.
Qed.

End EraseColumnFacts.

(** X28.  [eraseColumn(index)] of a well-formed matrix, for a column
    inside the extent, returns with one column less and the same rows: the
    columns left of [index] keep their place, the columns right of it move
    left by one, and the result is well-formed. *)
Theorem eraseColumn_moves_columns_left
    {V : Type} `{Zero V} `{Iteration} (m : SparseMatrix.t V) (index : Z) :
  SparseMatrix.well_formed m = true ->
  0 <= index < SparseMatrix._cols m -> SparseMatrix._cols m < modulus ->
  exists m', SparseMatrix.eraseColumn index m = (Returned tt, m') /\
    SparseMatrix._rows m' = SparseMatrix._rows m /\
    SparseMatrix._cols m' = SparseMatrix._cols m - 1 /\
    SparseMatrix.well_formed m' = true /\
    forall i j, 0 <= i < SparseMatrix._rows m ->
      0 <= j < SparseMatrix._cols m - 1 ->
      SparseMatrix._matrix m' !! (i * (SparseMatrix._cols m - 1) + j)
      = SparseMatrix._matrix m
          !! (i * SparseMatrix._cols m + (if j <? index then j else j + 1)).
Proof.
  intros Hwf Hidx Hcols. eexists.
  split; [exact (eraseColumn_run m index Hwf Hidx Hcols)|].
  pose proof (well_formed_spec m Hwf) as (Hr & Hc & Hfit & Hkeys).
  simpl. split; [reflexivity|]. split; [reflexivity|]. split.
  - apply well_formed_intro; simpl; [exact Hr | lia | nia |].
    intros k' v. rewrite (eraseColumn_lookup m index k' Hwf Hidx).
    destruct (decide _) as [E|]; [|discriminate].
    intros Hv. apply map_lookup_filter_Some in Hv as [Hv Hne]. simpl in Hne.
    apply Hkeys in Hv. rewrite <- E.
    apply key_without_col_bound; assumption.
  - intros i j Hi Hj. rewrite (eraseColumn_lookup m index _ Hwf Hidx).
    destruct (key_before_col_cell (SparseMatrix._cols m) index i j
                ltac:(lia) Hj) as (Hb & Hne & Hw).
    rewrite Hw. rewrite decide_True by reflexivity.
    apply option_eq. intros v. rewrite map_lookup_filter_Some. simpl.
    rewrite <- Hb.
    split; [intros [Hv _]; exact Hv|]. intros Hv. split; [exact Hv | exact Hne].
Qed.

Lemma eraseColumn_moves_columns_left_witness :
  exists m', SparseMatrix.eraseColumn 0 triangle = (Returned tt, m') /\
    SparseMatrix._cols m' = 2 /\
    SparseMatrix._matrix m' !! (0 * (3 - 1) + 1) = Some true.
Proof.
  destruct (eraseColumn_moves_columns_left triangle 0 eq_refl)
    as (m' & Hrun & _ & Hc & _ & Hcells).
  - simpl. lia.
  - simpl. unfold modulus. lia.
  - exists m'. split; [exact Hrun|]. split; [exact Hc|].
    refine (eq_trans (Hcells 0 1 _ _) _);
      [simpl; lia | simpl; lia | reflexivity].
Defined.

(** ** SparseMatrix: normalised columns *)

Section NormColsFacts.
Import SparseMatrix.
Context {R : Type} `{Zero R} `{Real R} `{Iteration}.

Lemma reshape_of_empty rows cols r0 c0 :
  reshape rows cols (make r0 c0 : t R) = (Returned tt, make rows cols).
Proof.
  unfold reshape. unfold mbind, M_bind, bind, get, modify. simpl.
  rewrite iteration_empty. reflexivity.
Qed.

Lemma getCol_true_run (m : t R) j :
  well_formed m = true -> 0 <= j < _cols m ->
  getCol j true m = Returned (mk (col_entries m j) (_rows m) (_cols m) zero).
Proof.
  intros Hwf Hj. pose proof (iteration_in_extent m Hwf) as Hext.
  apply well_formed_spec in Hwf as (Hr & Hc & Hfit & _).
  unfold getCol. rewrite Z.geb_leb.
  destruct (Z.leb_spec (_cols m) j); [lia|].
  unfold filled.
  rewrite (bind_run _ _ _ _ _ (reshape_of_empty (_rows m) (_cols m) (_rows m) 1)).
  rewrite (for_each_fold
             (fun T : t R => _rows T = _rows m /\ _cols T = _cols m)
             (fun kv : Z * R => 0 <= kv.1 < _rows m * _cols m)
             (fun T kv => if decide (in_col (_cols m) j kv)
                          then with_matrix (emplace kv.1 kv.2 (_matrix T)) T
                          else T)).
  - rewrite (foldl_filter (in_col (_cols m) j)
               (fun T (kv : Z * R) =>
                  with_matrix (emplace kv.1 kv.2 (_matrix T)) T)).
    f_equal.
    rewrite (foldl_with_matrix (fun a (kv : Z * R) => emplace kv.1 kv.2 a)).
    unfold with_matrix, make. simpl. f_equal.
    apply map_eq. intros k.
    rewrite (foldl_rekey_lookup (fun k => k) (fun k => k))
      by (apply Forall_forall; intros; reflexivity).
    rewrite lookup_empty, decide_True by reflexivity.
    rewrite lookup_filter_iteration. unfold col_entries.
    apply option_eq. intros v. rewrite map_lookup_filter_Some.
    destruct (_matrix m !! k) as [w|]; [|split; [|intros [? _]]; discriminate].
    destruct (decide (in_col (_cols m) j (k, w))) as [D|D].
    + split; [intros Hv; split; [exact Hv | congruence]|intros [Hv _]; exact Hv].
    + split; [discriminate|]. intros [Hv D']. injection Hv as <-. contradiction.
  - intros [k v] T Hk [HTr HTc]. simpl in Hk.
    destruct (div_mod_in_extent _ _ k Hr Hc Hfit Hk) as (Hpos & Hq & Hm & _).
    rewrite (bind_run _ _ _ _ _ (umod_run k (_cols m) T ltac:(lia))).
    destruct (decide (in_col (_cols m) j (k, v))) as [D|D];
      unfold in_col in D; simpl in D;
      destruct (Z.eqb_spec (k `mod` _cols m) j); try contradiction;
      [|split; [reflexivity | split; assumption]].
    split; [|split; assumption].
    rewrite insert_index_run, in_extent_last_index;
      [reflexivity | rewrite HTr, HTc; lia | rewrite HTr, HTc; lia].
  - exact Hext.
  - split; reflexivity.
Qed.

Lemma norm_col_run (m N : t R) j :
  well_formed m = true -> 0 <= j < _cols m -> same_extent m N ->
  (col ← observe (fun _ => getCol j true m);
   let sum := divisor (abs_sum (iteration (_matrix col))) in
   for_each (iteration (_matrix col)) (fun '(first, second) =>
     insert_index first (rdiv second sum))) N
  = (Returned tt, norm_col m N j) /\ same_extent m (norm_col m N j).
Proof.
  intros Hwf Hj HN.
  rewrite (observe_run (fun _ => getCol j true m) _ N _
             (getCol_true_run m j Hwf Hj)).
  cbv zeta. cbn [_matrix].
  apply well_formed_spec in Hwf as (Hr & Hc & Hfit & Hkeys).
  apply (for_each_pure (same_extent m)
           (fun kv : Z * R => 0 <= kv.1 < _rows m * _cols m)
           (scale_into (col_divisor m j))).
  - intros [k v] s Hk Hs. exact (scale_into_run m _ s (k, v) Hfit Hk Hs).
  - apply Forall_forall. intros [k v] Hin.
    rewrite iteration_perm in Hin. apply elem_of_map_to_list in Hin.
    apply map_lookup_filter_Some in Hin as [Hin _]. exact (Hkeys k v Hin).
  - exact HN.
Qed.

Lemma lookup_norm_col (m N : t R) j k :
  _matrix (norm_col m N j) !! k =
  match _matrix N !! k with
  | Some x => Some x
  | None => if decide (k `mod` _cols m = j)
            then (fun v => rdiv v (col_divisor m j)) <$> _matrix m !! k
            else None
  end.
Proof.
  unfold norm_col. rewrite foldl_scale_into, list_to_map_iteration.
  destruct (_matrix N !! k); [reflexivity|]. f_equal.
  unfold col_entries.
  destruct (decide (k `mod` _cols m = j)) as [D|D].
  - f_equal. apply option_eq. intros v. rewrite map_lookup_filter_Some.
    split; [intros [Hv _]; exact Hv | intros Hv; split; [exact Hv | exact D]].
  - replace (filter (in_col (_cols m) j) (_matrix m) !! k) with (@None R);
      [reflexivity|].
    symmetry. apply map_lookup_filter_None. right. intros v _ D'. contradiction.
Qed.

Lemma foldl_norm_col (m : t R) (l : list Z) N k :
  _matrix (foldl (norm_col m) N l) !! k =
  match _matrix N !! k with
  | Some x => Some x
  | None => if decide (k `mod` _cols m ∈ l)
            then (fun v => rdiv v (col_divisor m (k `mod` _cols m)))
                   <$> _matrix m !! k
            else None
  end.
Proof.
  revert N. induction l as [|j l IH]; intros N.
  - simpl foldl. destruct (_matrix N !! k); [reflexivity|].
    rewrite decide_False by apply not_elem_of_nil. reflexivity.
  - simpl foldl. rewrite IH, lookup_norm_col.
    destruct (_matrix N !! k); [reflexivity|].
    destruct (decide (k `mod` _cols m = j)) as [Heq|Hne].
    + rewrite (decide_True (P := k `mod` _cols m ∈ j :: l))
        by (rewrite Heq; apply list_elem_of_here).
      rewrite Heq. destruct (_matrix m !! k); simpl; [reflexivity|].
      destruct (decide (j ∈ l)); reflexivity.
    + destruct (decide (k `mod` _cols m ∈ l)) as [Hin|Hnot].
      * rewrite decide_True by (apply elem_of_cons; auto). reflexivity.
      * rewrite decide_False; [reflexivity|].
        rewrite elem_of_cons. intros [?|?]; contradiction.
Qed.

End NormColsFacts.

(** X29.  [getNormCols()] of a well-formed matrix, for any arithmetic of
    the value type and any order of visit, returns a matrix of the same
    extents in which every stored entry is divided by the divisor of its
    column: the sum of the absolute values of the column, or 1 when that sum
    is below epsilon.  Nothing else is stored. *)
Theorem getNormCols_divides_by_column_sum
    {R : Type} `{Zero R} `{Real R} `{Iteration} (m : SparseMatrix.t R) :
  SparseMatrix.well_formed m = true ->
  (forall j, col_divisor m j
             = if rltb (SparseMatrix.abs_sum (iteration (col_entries m j)))
                    repsilon
               then rone
               else SparseMatrix.abs_sum (iteration (col_entries m j))) /\
  exists N, SparseMatrix.getNormCols m = Returned N /\
    SparseMatrix._rows N = SparseMatrix._rows m /\
    SparseMatrix._cols N = SparseMatrix._cols m /\
    forall k, SparseMatrix._matrix N !! k
              = (fun v => rdiv v (col_divisor m (k `mod` SparseMatrix._cols m)))
                  <$> SparseMatrix._matrix m !! k.
Proof.
  intros Hwf. split; [intros j; reflexivity|].
  assert (Hcols : Forall (fun j => 0 <= j < SparseMatrix._cols m)
                    (seqZ 0 (SparseMatrix._cols m)))
    by (apply Forall_forall; intros j Hj; apply elem_of_seqZ in Hj; lia).
  destruct (for_each_pure (same_extent m)
              (fun j => 0 <= j < SparseMatrix._cols m)
              (norm_col m)
              (fun index =>
                 col ← observe (fun _ => SparseMatrix.getCol index true m);
                 let sum := SparseMatrix.divisor
                              (SparseMatrix.abs_sum
                                 (iteration (SparseMatrix._matrix col))) in
                 for_each (iteration (SparseMatrix._matrix col))
                   (fun '(first, second) =>
                      SparseMatrix.insert_index first (rdiv second sum)))
              ltac:(intros j s Hj Hs; exact (norm_col_run m s j Hwf Hj Hs))
              (seqZ 0 (SparseMatrix._cols m))
              (SparseMatrix.make (SparseMatrix._rows m) (SparseMatrix._cols m))
              Hcols ltac:(split; reflexivity))
    as [Hrun [HNr HNc]].
  eexists. split; [|split; [exact HNr | split; [exact HNc|]]].
  - unfold SparseMatrix.getNormCols, filled. cbv zeta in Hrun |- *.
    rewrite Hrun. reflexivity.
  - intros k. rewrite foldl_norm_col. simpl. rewrite lookup_empty.
    destruct (SparseMatrix._matrix m !! k) as [v|] eqn:E.
    + apply well_formed_spec in Hwf as (Hr & Hc & Hfit & Hkeys).
      destruct (div_mod_in_extent _ _ k Hr Hc Hfit (Hkeys k v E))
        as (_ & _ & Hm & _).
      rewrite decide_True by (apply elem_of_seqZ; lia). reflexivity.
    + destruct (decide _); reflexivity.
Qed.

Lemma getNormCols_divides_by_column_sum_witness :
  exists N, SparseMatrix.getNormCols halves = Returned N /\
    SparseMatrix._matrix N !! 1
    = Some ((- 3 # 2) / col_divisor halves 1)%Q.
Proof.
  destruct (getNormCols_divides_by_column_sum halves eq_refl)
    as (_ & N & Hrun & _ & _ & Hcells).
  exists N. split; [exact Hrun|]. rewrite Hcells. reflexivity.
Defined.

(** X30.  [insert_and_expand(i, j, v)] on a cell inside the extent of a
    matrix with at most [2^32] cells changes no extent and does what
    [insert_or_assign(i, j, v)] does: the cell holds [v] afterwards,
    whatever it held before. *)
Theorem insert_and_expand_inside_extent
    {V : Type} `{Zero V} `{Iteration} (m : SparseMatrix.t V) (i j : Z) (v : V) :
  0 <= i < SparseMatrix._rows m -> 0 <= j < SparseMatrix._cols m ->
  SparseMatrix._rows m * SparseMatrix._cols m <= modulus ->
  SparseMatrix.insert_and_expand i j v m
  = (Returned tt,
     SparseMatrix.with_matrix
       (<[i * SparseMatrix._cols m + j := v]> (SparseMatrix._matrix m)) m) /\
  SparseMatrix.insert_and_expand i j v m = SparseMatrix.insert_or_assign i j v m.
Proof.
  intros Hi Hj Hfit.
  rewrite (insert_or_assign_in_extent m i j v Hi Hj Hfit).
  assert (Hrun : SparseMatrix.insert_and_expand i j v m
                 = (Returned tt,
                    SparseMatrix.with_matrix
                      (<[i * SparseMatrix._cols m + j := v]>
                         (SparseMatrix._matrix m)) m)).
  { unfold SparseMatrix.insert_and_expand.
    rewrite (bind_run get _ m m m eq_refl).
    destruct (Z.ltb_spec i (SparseMatrix._rows m)); [|lia].
    destruct (Z.ltb_spec j (SparseMatrix._cols m)); [|lia].
    simpl negb. simpl orb. cbv iota.
    rewrite (bind_run (mret tt) _ m tt m eq_refl).
    destruct (linear_in_extent m i j Hi Hj Hfit) as [Hlin _].
    unfold modify. rewrite Hlin. reflexivity. }
  split; exact Hrun.
Qed.

Lemma insert_and_expand_inside_extent_witness :
  SparseMatrix.insert_and_expand 0 1 true triangle
  = SparseMatrix.insert_or_assign 0 1 true triangle.
Proof.
  refine (proj2 (insert_and_expand_inside_extent triangle 0 1 true _ _ _)).
  - simpl. lia.
  - simpl. lia.
  - vm_compute. discriminate.
Defined.
